(** * flowResult.js: difference and pretty-printing of Flow reports

    A shallow embedding of [src/tsrc/flowResult.js].

    The module works on the objects of a parsed Flow report.  The only
    assignments to properties of objects that exist before a call are

      - [message.indent = (message.indent || 0)+2]  in [getExtraMessages],
      - [prev.descr = ...]                          in [prettyPrintError],

    and both targets are [FlowMessage] objects.  The embedding therefore
    keeps the [FlowMessage] objects in an explicit store, addressed by
    reference, and represents arrays and the other records (which are only
    read, or are built locally) as values that hold references to messages.
    JavaScript exceptions are outcomes of a computation; the store survives
    them, as it does in JavaScript.

    Conventions: a number is an integer ([Z]); a string is a sequence of
    code units ([ascii]); a property that is absent and one that is [null]
    are both [None]; a JSON text is the tree it denotes, except where
    [difference] uses it as a property key, where it is the string. *)

From Stdlib Require Import ZArith Lia Ascii.
From stdpp Require Import base list strings gmap pretty.

Local Open Scope Z_scope.

(** ** JavaScript strings and numbers

    Strings are sequences of code units ([ascii] here); numbers are the
    integers the Flow types [line], [column], [offset] and [indent] range
    over. *)

Definition nl : string := String "010"%char "".
Definition dquote : string := String "034"%char "".
Definition bslash : string := String "092"%char "".

(** [s.length] *)
Definition js_length (s : string) : Z := Z.of_nat (String.length s).

(** [String(n)] and the [%d] directive of [util.format] on an integer. *)
Definition js_String (n : Z) : string := pretty n.

Fixpoint string_repeat (sep : string) (n : nat) : string :=
  match n with
  | O => ""
  | S n' => sep +:+ string_repeat sep n'
  end.

Inductive js_error := TypeError | RangeError | SyntaxError | Stuck.

(** Outcome of an expression that may throw. *)
Inductive outcome (A : Type) :=
  | Ret (a : A)
  | Throw (e : js_error).
Arguments Ret {A} a.
Arguments Throw {A} e.

Definition obind {A B} (c : outcome A) (k : A -> outcome B) : outcome B :=
  match c with
  | Ret a => k a
  | Throw e => Throw e
  end.

Declare Scope outcome_scope.
Delimit Scope outcome_scope with out.
Bind Scope outcome_scope with outcome.
Notation "x <- c ;; k" := (obind c (fun x => k))
  (at level 100, c at next level, right associativity) : outcome_scope.

(** [Array(n).join(sep)]: [Array(n)] throws a RangeError unless [n] is an
    array length (an integer in [0, 2^32-1]); joining [n] empty slots gives
    [n-1] copies of the separator. *)
Definition Array_join (n : Z) (sep : string) : outcome string :=
  if (n <? 0) || (2 ^ 32 - 1 <? n)
  then Throw RangeError
  else Ret (string_repeat sep (Z.to_nat (n - 1))).

Fixpoint string_take (n : nat) (s : string) : string :=
  match n, s with
  | S n', String c s' => String c (string_take n' s')
  | _, _ => ""
  end.

Fixpoint string_drop (n : nat) (s : string) : string :=
  match n, s with
  | S n', String _ s' => string_drop n' s'
  | _, _ => s
  end.

(** [s.slice(-k)]: the last [k] code units of [s]. *)
Definition slice_last (k : nat) (s : string) : string :=
  string_drop (String.length s - k)%nat s.

(** [s.substr(0, len)]: the first [len] code units, fewer when [s] is
    shorter, none when [len <= 0]. *)
Definition substr0 (len : Z) (s : string) : string :=
  string_take (Z.to_nat len) s.

Fixpoint string_map (f : ascii -> ascii) (s : string) : string :=
  match s with
  | EmptyString => EmptyString
  | String c s' => String (f c) (string_map f s')
  end.

(** One match of [/[^\t ]/] replaced by a space. *)
Definition blank_out (c : ascii) : ascii :=
  if (Ascii.eqb c "009" || Ascii.eqb c " ")%bool then c else " "%char.

(** [s.replace(/[^\t ]/g, " ")] *)
Definition replace_non_blank (s : string) : string := string_map blank_out s.

Fixpoint join (sep : string) (l : list string) : string :=
  match l with
  | [] => ""
  | [s] => s
  | s :: l' => s +:+ sep +:+ join sep l'
  end.

(** ** The Flow types *)

Inductive MessageType := Blame | Comment.
Inductive LocType := LibFile | SourceFile | JsonFile | Builtin.

Record FlowPos := mkPos { line : Z; column : Z; offset : Z }.

(** [source] and [type] are [null] when [None]. *)
Record FlowLoc := mkLoc {
  source : option string;
  loc_type : option LocType;
  start : FlowPos;
  end_ : FlowPos;
}.

(** An absent property and a [null] one are both [None]; the code tests
    them with [!= null], [== null], [||] and [&&] only. *)
Record FlowMessage := mkMessage {
  descr : string;
  type : MessageType;
  context : option string;
  loc : option FlowLoc;
  indent : option Z;
}.

(** Arrays and records other than messages, over the representation [M]
    of a message: a reference into the store, or the message itself in a
    JSON text. *)
#[warnings="-register-all"]
Inductive FlowExtraNode (M : Type) := mkExtra {
  ex_message : list M;
  children : option (list (FlowExtraNode M));
}.
Arguments mkExtra {M} _ _.
Arguments ex_message {M} _.
Arguments children {M} _.

Record FlowError (M : Type) := mkError {
  kind : string;
  level : string;
  message : list M;
  trace : option (list M);
  operation : option M;
  extra : option (list (FlowExtraNode M));
}.
Arguments mkError {M} _ _ _ _ _ _.
Arguments kind {M} _.
Arguments level {M} _.
Arguments message {M} _.
Arguments trace {M} _.
Arguments operation {M} _.
Arguments extra {M} _.

Record FlowResult (M : Type) := mkResult {
  passed : bool;
  errors : list (FlowError M);
  flowVersion : string;
}.
Arguments mkResult {M} _ _ _.
Arguments passed {M} _.
Arguments errors {M} _.
Arguments flowVersion {M} _.

Global Instance MessageType_eq_dec : EqDecision MessageType.
Proof. solve_decision. Defined.
Global Instance LocType_eq_dec : EqDecision LocType.
Proof. solve_decision. Defined.
Global Instance FlowPos_eq_dec : EqDecision FlowPos.
Proof. solve_decision. Defined.
Global Instance FlowLoc_eq_dec : EqDecision FlowLoc.
Proof. solve_decision. Defined.

(** ** The store and the computations over it *)

(** References are positions in the store. *)
Abbreviation addr := nat (only parsing).
Abbreviation heap := (list FlowMessage) (only parsing).

Definition JS (A : Type) : Type := heap -> outcome A * heap.

Definition ret {A} (a : A) : JS A := fun h => (Ret a, h).
Definition throw {A} (e : js_error) : JS A := fun h => (Throw e, h).
Definition bind {A B} (c : JS A) (k : A -> JS B) : JS B :=
  fun h =>
    match c h with
    | (Ret a, h') => k a h'
    | (Throw e, h') => (Throw e, h')
    end.
Definition lift {A} (o : outcome A) : JS A := fun h => (o, h).

Declare Scope js_scope.
Delimit Scope js_scope with js.
Bind Scope js_scope with JS.
Notation "x <- c ;; k" := (bind c (fun x => k))
  (at level 100, c at next level, right associativity) : js_scope.
Notation "c ;;; k" := (bind c (fun _ => k))
  (at level 100, right associativity) : js_scope.

(** A new object literal. *)
Definition alloc (m : FlowMessage) : JS addr :=
  fun h => (Ret (length h), h ++ [m]).

(** Reading the properties of an object.  A reference outside the store
    does not exist in JavaScript; the computation is then [Stuck]. *)
Definition load (a : addr) : JS FlowMessage :=
  fun h =>
    match h !! a with
    | Some m => (Ret m, h)
    | None => (Throw Stuck, h)
    end.

(** Assignment to properties of the object at [a]. *)
Definition store (a : addr) (f : FlowMessage -> FlowMessage) : JS unit :=
  fun h =>
    match h !! a with
    | Some m => (Ret tt, <[a := f m]> h)
    | None => (Throw Stuck, h)
    end.

Section iteration.
Context {A B : Type}.

(** [l.map(f)] *)
Definition mapJS (f : A -> JS B) : list A -> JS (list B) :=
  fix go l :=
    match l with
    | [] => ret []
    | x :: l' => (y <- f x ;; ys <- go l' ;; ret (y :: ys))%js
    end.

(** [l.reduce(f, acc)], and [for (let x of l)] with the loop's state as
    the accumulator. *)
Definition reduceJS (f : B -> A -> JS B) : list A -> B -> JS B :=
  fix go l acc :=
    match l with
    | [] => ret acc
    | x :: l' => (acc' <- f acc x ;; go l' acc')%js
    end.

(** [l.forEach(f)] *)
Definition forEachJS (f : A -> JS unit) : list A -> JS unit :=
  fix go l :=
    match l with
    | [] => ret tt
    | x :: l' => (f x ;;; go l')%js
    end.

Definition traverse_option (f : A -> JS B) (o : option A) : JS (option B) :=
  match o with
  | Some x => (y <- f x ;; ret (Some y))%js
  | None => ret None
  end.
End iteration.

(** ** JSON

    [JSON.stringify] reads the objects reachable from its argument and
    [JSON.parse] builds new ones.  The text in between is represented by
    the tree it denotes: a [FlowResult FlowMessage] is the JSON text of a
    report.  Properties are visited in the order of the Flow type
    declarations. *)

Section traverse.
Context {A B : Type} (f : A -> JS B).

Fixpoint traverse_extra (n : FlowExtraNode A) : JS (FlowExtraNode B) :=
  (msgs <- mapJS f (ex_message n) ;;
   ch <- traverse_option (mapJS traverse_extra) (children n) ;;
   ret (mkExtra msgs ch))%js.

Definition traverse_error (e : FlowError A) : JS (FlowError B) :=
  (message' <- mapJS f (message e) ;;
   trace' <- traverse_option (mapJS f) (trace e) ;;
   operation' <- traverse_option f (operation e) ;;
   extra' <- traverse_option (mapJS traverse_extra) (extra e) ;;
   ret (mkError (kind e) (level e) message' trace' operation' extra'))%js.

Definition traverse_result (r : FlowResult A) : JS (FlowResult B) :=
  (errors' <- mapJS traverse_error (errors r) ;;
   ret (mkResult (passed r) errors' (flowVersion r)))%js.
End traverse.

(** [JSON.stringify(result)], [JSON.parse(text)] on a report. *)
Definition JSON_stringify (result : FlowResult addr) : JS (FlowResult FlowMessage) :=
  traverse_result load result.
Definition JSON_parse (text : FlowResult FlowMessage) : JS (FlowResult addr) :=
  traverse_result alloc text.

(** The same on one error. *)
Definition JSON_stringify_error (error : FlowError addr) : JS (FlowError FlowMessage) :=
  traverse_error load error.
Definition JSON_parse_error (text : FlowError FlowMessage) : JS (FlowError addr) :=
  traverse_error alloc text.

(** *** The text of a message array

    [difference] uses [JSON.stringify(error.message)] as a property key,
    so here the characters matter.  An optional property that is absent is
    left out; [source] and [type] of a location are printed as [null]. *)

Definition hex_digit (n : nat) : string :=
  string_take 1 (string_drop n "0123456789abcdef").

(** QuoteJSONString, one code unit. *)
Definition json_quote_char (c : ascii) : string :=
  let n := nat_of_ascii c in
  if Ascii.eqb c "034" then bslash +:+ dquote
  else if Ascii.eqb c "092" then bslash +:+ bslash
  else if Ascii.eqb c "008" then bslash +:+ "b"
  else if Ascii.eqb c "009" then bslash +:+ "t"
  else if Ascii.eqb c "010" then bslash +:+ "n"
  else if Ascii.eqb c "012" then bslash +:+ "f"
  else if Ascii.eqb c "013" then bslash +:+ "r"
  else if (n <? 32)%nat
       then bslash +:+ "u00" +:+ hex_digit (n / 16) +:+ hex_digit (n mod 16)
       else String c "".

Fixpoint json_quote_chars (s : string) : string :=
  match s with
  | EmptyString => ""
  | String c s' => json_quote_char c +:+ json_quote_chars s'
  end.

Definition json_string (s : string) : string :=
  dquote +:+ json_quote_chars s +:+ dquote.

Definition json_member (key value : string) : string :=
  json_string key +:+ ":" +:+ value.

Definition json_optional (key : string) (value : option string) : list string :=
  match value with
  | Some v => [json_member key v]
  | None => []
  end.

Definition json_nullable (value : option string) : string :=
  default "null" value.

Definition json_object (members : list string) : string :=
  "{" +:+ join "," members +:+ "}".

Definition json_array (elements : list string) : string :=
  "[" +:+ join "," elements +:+ "]".

Definition json_pos (p : FlowPos) : string :=
  json_object [ json_member "line" (js_String (line p));
                json_member "column" (js_String (column p));
                json_member "offset" (js_String (offset p)) ].

Definition json_loc_type (t : LocType) : string :=
  json_string match t with
              | LibFile => "LibFile"
              | SourceFile => "SourceFile"
              | JsonFile => "JsonFile"
              | Builtin => "Builtin"
              end.

Definition json_loc (l : FlowLoc) : string :=
  json_object [ json_member "source" (json_nullable (json_string <$> source l));
                json_member "type" (json_nullable (json_loc_type <$> loc_type l));
                json_member "start" (json_pos (start l));
                json_member "end" (json_pos (end_ l)) ].

Definition json_message (m : FlowMessage) : string :=
  json_object
    ([ json_member "descr" (json_string (descr m));
       json_member "type"
         (json_string match type m with Blame => "Blame" | Comment => "Comment" end) ]
     ++ json_optional "context" (json_string <$> context m)
     ++ json_optional "loc" (json_loc <$> loc m)
     ++ json_optional "indent" (js_String <$> indent m)).

Definition json_messages (l : list FlowMessage) : string :=
  json_array (json_message <$> l).

(** [JSON.stringify(error.message)] *)
Definition JSON_stringify_messages (message : list addr) : JS string :=
  (ms <- mapJS load message ;; ret (json_messages ms))%js.

(** *** Plain objects used as maps

    [oldHashes] starts as [{}], so a property read also finds what
    [Object.prototype] provides. *)
Definition Object_prototype_keys : list string :=
  [ "constructor"; "hasOwnProperty"; "isPrototypeOf"; "propertyIsEnumerable";
    "toLocaleString"; "toString"; "valueOf"; "__proto__";
    "__defineGetter__"; "__defineSetter__"; "__lookupGetter__"; "__lookupSetter__" ].

(** [obj[key] !== undefined], for an object whose own properties hold objects. *)
Definition property_defined {V} (obj : gmap string V) (key : string) : bool :=
  bool_decide (is_Some (obj !! key)) || bool_decide (key ∈ Object_prototype_keys).

(** ** The functions of flowResult.js *)

(** [noErrors] *)
Definition noErrors : FlowResult nat := mkResult true [] "No version".

(** The body of the first loop of [difference], on the state [oldHashes]. *)
Definition recordHash (oldHashes : gmap string (FlowError nat)) (error : FlowError nat)
    : JS (gmap string (FlowError nat)) :=
  (hash <- JSON_stringify_messages (message error) ;;
   ret (<[hash := error]> oldHashes))%js.

(** The body of the second loop, on the state [errors]. *)
Definition keepNew (oldHashes : gmap string (FlowError nat))
    (errors : list (FlowError nat)) (error : FlowError nat)
    : JS (list (FlowError nat)) :=
  (hash <- JSON_stringify_messages (message error) ;;
   if property_defined oldHashes hash
   then ret errors
   else (text <- JSON_stringify_error error ;;
         copy <- JSON_parse_error text ;;
         ret (errors ++ [copy])))%js.

(** [difference(a, b)]: a result that is a - b. *)
Definition difference (a b : FlowResult nat) : JS (FlowResult nat) :=
  (oldHashes <- reduceJS recordHash (errors b) ∅ ;;
   errors <- reduceJS (keepNew oldHashes) (errors a) [] ;;
   ret (mkResult (bool_decide (length errors = 0%nat)) errors (flowVersion a)))%js.

(** [mkComment(descr)] *)
Definition mkComment (descr : string) : JS addr :=
  alloc (mkMessage descr Comment None None None).

(** [getHeader(mainLoc)]; the text is [format("%s:%d", filename, line)]. *)
Definition getHeader (mainLoc : option FlowLoc) : JS (list addr) :=
  let '(filename, line) :=
    match mainLoc with
    | Some l => (default "[No file]" (source l), line (start l))
    | None => ("[No file]", -1)
    end in
  (c <- mkComment (filename +:+ ":" +:+ js_String line) ;; ret [c])%js.

Definition internal_error_prefix : string := "Internal error (see logs): ".

(** The [descr] that [getKindMessage] chooses, if any. *)
Definition kindDescr (kind level : string) (loc : option FlowLoc) : option string :=
  if bool_decide (kind = "internal") && bool_decide (level = "error")
  then Some internal_error_prefix
  else if bool_decide (loc ≠ None) && bool_decide (loc ≫= loc_type = Some LibFile)
       then if bool_decide (kind = "parse") && bool_decide (level = "error")
            then Some "Library parse error:"
            else if bool_decide (kind = "infer")
                 then Some "Library type error:"
                 else None
       else None.

(** [getKindMessage(kind, level, message)] *)
Definition getKindMessage (kind level : string) (message : list addr) : JS (list addr) :=
  match message with
  | m0 :: _ =>
      (m <- load m0 ;;
       match kindDescr kind level (loc m) with
       | Some descr =>
           k <- alloc (mkMessage descr Blame (context m) (loc m) None) ;;
           ret [k]
       | None => ret []
       end)%js
  | [] => ret []
  end.

(** [getOpReason(op)] *)
Definition getOpReason (op : option addr) : JS (list addr) :=
  match op with
  | Some op => (c <- mkComment "Error:" ;; ret [op; c])%js
  | None => ret []
  end.

(** [message.indent = (message.indent || 0)+2] *)
Definition bump_indent (m : FlowMessage) : FlowMessage :=
  mkMessage (descr m) (type m) (context m) (loc m) (Some (default 0 (indent m) + 2)).

(** The body of [getExtraMessages] for an array [extra], over the callback
    it passes to [reduce]. *)
Definition extraMessagesOf
    (callback : list addr -> FlowExtraNode addr -> JS (list addr))
    (extra : list (FlowExtraNode addr)) : JS (list addr) :=
  (messages <- reduceJS callback extra [] ;;
   forEachJS (fun message => store message bump_indent) messages ;;;
   ret messages)%js.

(** The callback [(acc, current) => ...] of [getExtraMessages]. *)
Fixpoint extraCallback (acc : list addr) (current : FlowExtraNode addr)
    {struct current} : JS (list addr) :=
  (childrenMessages <-
     match children current with
     | None => ret []
     | Some c => extraMessagesOf extraCallback c
     end ;;
   ret (acc ++ ex_message current ++ childrenMessages))%js.

(** [getExtraMessages(extra)] *)
Definition getExtraMessages (extra : option (list (FlowExtraNode addr))) : JS (list addr) :=
  match extra with
  | Some extra => extraMessagesOf extraCallback extra
  | None => ret []
  end.

(** [getTraceReasons(trace)] *)
Definition getTraceReasons (trace : option (list addr)) : JS (list addr) :=
  match trace with
  | Some (t :: ts) =>
      (r <- alloc (mkMessage "Trace:" Blame None None None) ;;
       ret ([r] ++ t :: ts))%js
  | _ => ret []
  end.

(** [prettyPrintMessage(mainFile, {context, descr, loc, indent})], on the
    properties read from the message. *)
Definition prettyPrintMessage (mainFile : string) (m : FlowMessage) : outcome string :=
  (indentation <- Array_join (default 0 (indent m) + 1) " " ;;
   match loc m with
   | Some loc =>
       let startCol := column (start loc) - 1 in
       contextStr <-
         match context m with
         | Some context =>
             let lineStr := js_String (line (start loc)) in
             let lineStr :=
               if js_length lineStr <? 3
               then slice_last 3 ("   " +:+ lineStr)
               else lineStr in
             let lineStr := lineStr +:+ ": " in
             padding <- Array_join (js_length lineStr + 1) " " ;;
             let padding :=
               if startCol <? js_length context
               then padding +:+ replace_non_blank (substr0 startCol context)
               else padding in
             let underline_size :=
               if line (start loc) =? line (end_ loc)
               then Z.max 1 (column (end_ loc) - startCol)
               else 1 in
             underline <- Array_join (underline_size + 1) "^" ;;
             Ret (indentation +:+ lineStr +:+ context +:+ nl +:+
                  indentation +:+ padding +:+ underline +:+ " ")
         | None => Ret indentation
         end ;;
       let see_another_file :=
         if bool_decide (source loc = Some mainFile)
         then ""
         else ". See: " +:+ default "null" (source loc) +:+ ":" +:+
              js_String (line (start loc)) in
       Ret (contextStr +:+ descr m +:+ see_another_file)
   | None => Ret (indentation +:+ descr m)
   end)%out.

(** [operation && operation.loc || message[0].loc] *)
Definition mainLocOf (operation : option addr) (message : list addr) : JS (option FlowLoc) :=
  (opLoc <-
     match operation with
     | Some op => (o <- load op ;; ret (loc o))
     | None => ret None
     end ;;
   match opLoc with
   | Some l => ret (Some l)
   | None =>
       match message with
       | m0 :: _ => (m <- load m0 ;; ret (loc m))
       | [] => throw TypeError
       end
   end)%js.

(** [mainLoc && mainLoc.source || "[No file]"] *)
Definition mainFileOf (mainLoc : option FlowLoc) : string :=
  match mainLoc ≫= source with
  | Some s => if bool_decide (s = "") then "[No file]" else s
  | None => "[No file]"
  end.

Definition set_descr (d : string) (m : FlowMessage) : FlowMessage :=
  mkMessage d (type m) (context m) (loc m) (indent m).

(** [prev.descr == "" ? descr : format("%s. %s", prev.descr, descr)] *)
Definition joinDescr (prev descr : string) : string :=
  if bool_decide (prev = "") then descr else prev +:+ ". " +:+ descr.

(** The callback [(acc, message) => ...] that merges comments into blames. *)
Definition mergeComment (acc : list addr) (message : addr) : JS (list addr) :=
  (m <- load message ;;
   if bool_decide (loc m ≠ None) || bool_decide (length acc = 0%nat)
      || bool_decide (type m = Blame)
   then ret (acc ++ [message])
   else if bool_decide (descr m ≠ "Error:")
        then match last acc with
             | Some prev =>
                 store prev (fun p => set_descr (joinDescr (descr p) (descr m)) p) ;;;
                 ret acc
             | None => throw TypeError
             end
        else ret acc)%js.

(** [prettyPrintError], up to and including the merge: the main file and
    the messages that are printed. *)
Definition mergedMessages (error : FlowError addr) : JS (string * list addr) :=
  (mainLoc <- mainLocOf (operation error) (message error) ;;
   header <- getHeader mainLoc ;;
   kindMessage <- getKindMessage (kind error) (level error) (message error) ;;
   opReason <- getOpReason (operation error) ;;
   extraMessages <- getExtraMessages (extra error) ;;
   traceReasons <- getTraceReasons (trace error) ;;
   let messages :=
     header ++ kindMessage ++ opReason ++ message error ++ extraMessages ++ traceReasons in
   let mainFile := mainFileOf mainLoc in
   messages <- reduceJS mergeComment messages [] ;;
   ret (mainFile, messages))%js.

(** [prettyPrintError(error)] *)
Definition prettyPrintError (error : FlowError addr) : JS string :=
  (merged <- mergedMessages error ;;
   let '(mainFile, messages) := merged in
   lines <- mapJS (fun message => m <- load message ;; lift (prettyPrintMessage mainFile m))
                 messages ;;
   ret (join nl lines))%js.

(** [prettyPrint(result)] *)
Definition prettyPrint (result : FlowResult addr) : JS string :=
  (text <- JSON_stringify result ;;
   result <- JSON_parse text ;;
   blocks <- mapJS prettyPrintError (errors result) ;;
   ret (join (nl +:+ nl) blocks))%js.

(** [prettyPrintWithHeader(result)]; the text is
    [format("%d error%s\n%s", n, n === 1 ? "" : "s", prettyPrint(result))]. *)
Definition prettyPrintWithHeader (result : FlowResult addr) : JS string :=
  if passed result
  then ret "No errors"
  else
    (let n := length (errors result) in
     body <- prettyPrint result ;;
     ret (js_String (Z.of_nat n) +:+ " error" +:+
          (if bool_decide (n = 1%nat) then "" else "s") +:+ nl +:+ body))%js.

(** ** The messages of a report

    The messages (or references to messages) that a value holds, in the
    order in which [JSON.stringify] and [JSON.parse] visit them. *)
Section elems.
Context {M : Type}.

Definition elems_list {T} (el : T -> list M) (l : list T) : list M :=
  concat (map el l).

Definition elems_option {T} (el : T -> list M) (o : option T) : list M :=
  from_option el [] o.

Fixpoint extra_elems (n : FlowExtraNode M) : list M :=
  ex_message n ++ elems_option (elems_list extra_elems) (children n).

Definition error_elems (e : FlowError M) : list M :=
  message e ++ elems_option id (trace e) ++ elems_option (fun x => [x]) (operation e)
  ++ elems_option (elems_list extra_elems) (extra e).

Definition result_elems (r : FlowResult M) : list M :=
  elems_list error_elems (errors r).
End elems.

(** * Notions used in the statements *)

(** ** Stores before and after a call *)

(** [preserves n h h']: the store [h'] has every object of [h], and the
    objects below [n] are as they were. *)
Definition preserves (n : nat) (h h' : heap) : Prop :=
  (length h <= length h')%nat /\ forall a, (a < n)%nat -> h' !! a = h !! a.

(** [frame n c Q]: run in a store of at least [n] objects, [c] leaves the
    first [n] alone, and a value it returns satisfies [Q]. *)
Definition frame {A} (n : nat) (c : JS A) (Q : A -> Prop) : Prop :=
  forall h, (n <= length h)%nat ->
    preserves n h (c h).2 /\ forall a, (c h).1 = Ret a -> Q a.

(** [stable c]: the computation [c] writes nothing, and what it returns in
    a store it returns in every larger store. *)
Definition stable {A} (c : JS A) : Prop :=
  forall h, (c h).2 = h /\
    forall a h2, (c h).1 = Ret a -> c (h ++ h2) = (Ret a, h ++ h2).

(** The store after a call, against the store [h] before it: every object
    of [h] is in place and as it was, so every report held in [h] has the
    text it had. *)
Definition untouched (h h' : list FlowMessage) : Prop :=
  (exists fresh, h' = h ++ fresh) /\
  forall (X : FlowResult nat) t,
    JSON_stringify X h = (Ret t, h) -> JSON_stringify X h' = (Ret t, h').

(** The references [l] are objects of a store of [n] objects. *)
Definition below (n : nat) (l : list nat) : Prop := Forall (fun a => (a < n)%nat) l.

(** [returns N c Q]: in a store of at least [N] objects, [c] returns; the
    store has not shrunk, and the value [a] it returns satisfies [Q a n]
    for the number [n] of objects of the store it leaves. *)
Definition returns {A} (N : nat) (c : JS A) (Q : A -> nat -> Prop) : Prop :=
  forall h, (N <= length h)%nat ->
    exists a h', c h = (Ret a, h') /\ (length h <= length h')%nat /\ Q a (length h').

(** [keeps I c]: the computation [c] maintains the property [I] of the store. *)
Definition keeps {A} (I : list FlowMessage -> Prop) (c : JS A) : Prop :=
  forall h, I h -> I (c h).2.

(** The object at [n0] has a text that begins with [P]. *)
Definition begins_with (n0 : nat) (P : string) (h : list FlowMessage) : Prop :=
  exists v more, h !! n0 = Some v /\ descr v = P +:+ more.

(** [allocates eT eU al ld t]: in any store [h], [al t] returns a value [r]
    after appending the messages [eT t]; the references [eU r] of [r] are
    the new objects, each once and in order; and in every store that
    begins with the new one, [ld r] reads [t] back. *)
Definition allocates {T U} (eT : T -> list FlowMessage) (eU : U -> list nat)
    (al : T -> JS U) (ld : U -> JS T) (t : T) : Prop :=
  forall h, exists r,
    al t h = (Ret r, h ++ eT t)
    /\ eU r = seq (length h) (length (eT t))
    /\ forall H, (h ++ eT t) `prefix_of` H -> ld r H = (Ret t, H).

(** ** The output of the renderer *)

(** The count line: "<N> error" for one error, "<N> errors" otherwise. *)
Definition count_line (N : nat) : string :=
  if bool_decide (N = 1%nat)
  then js_String (Z.of_nat N) +:+ " error"
  else js_String (Z.of_nat N) +:+ " errors".

(** The line-number label: the line right-justified to width 3, then ": ". *)
Definition line_label (n : Z) : string :=
  (if js_length (js_String n) <? 3
   then slice_last 3 ("   " +:+ js_String n)
   else js_String n) +:+ ": ".

(** The length of the underline of a location. *)
Definition underline_length (l : FlowLoc) : Z :=
  if line (start l) =? line (end_ l)
  then Z.max 1 (column (end_ l) - (column (start l) - 1))
  else 1.

(** The padding before the underline, as the code builds it. *)
Definition underline_padding (l : FlowLoc) (context : string) : string :=
  string_repeat " " (String.length (line_label (line (start l))))
  +:+ (if column (start l) - 1 <? js_length context
       then replace_non_blank (substr0 (column (start l) - 1) context)
       else "").

(** The padding as the specification words it: the prefix of the context
    is used as soon as the context has at least [startCol] characters. *)
Definition padding_claimed (l : FlowLoc) (context : string) : string :=
  string_repeat " " (String.length (line_label (line (start l))))
  +:+ (if column (start l) - 1 <=? js_length context
       then replace_non_blank (substr0 (column (start l) - 1) context)
       else "").

(** The reference to another file that ends a unit. *)
Definition see_another_file (mainFile : string) (l : FlowLoc) : string :=
  if bool_decide (source l = Some mainFile)
  then ""
  else ". See: " +:+ default "null" (source l) +:+ ":" +:+ js_String (line (start l)).

(** The text of the header unit. *)
Definition header_text (mainLoc : option FlowLoc) : string :=
  match mainLoc with
  | Some l => default "[No file]" (source l) +:+ ":" +:+ js_String (line (start l))
  | None => "[No file]:-1"
  end.

(** A string of spaces and tabs. *)
Fixpoint all_blank (s : string) : bool :=
  match s with
  | EmptyString => true
  | String c s' => (Ascii.eqb c "009" || Ascii.eqb c " ") && all_blank s'
  end.

(** [Array(n)] makes an array: [n] is an array length. *)
Definition array_length (n : Z) : Prop := 0 <= n <= 2 ^ 32 - 1.

(** The lines of a text, [cur] being the line read so far, reversed. *)
Fixpoint lines_of (cur s : string) : list string :=
  match s with
  | EmptyString => [String.rev cur]
  | String c s' =>
      if Ascii.eqb c "010"
      then String.rev cur :: lines_of "" s'
      else lines_of (String c cur) s'
  end.

(** The number of carets in a text. *)
Fixpoint count_carets (s : string) : nat :=
  match s with
  | EmptyString => 0
  | String c s' => ((if Ascii.eqb c "^" then 1 else 0) + count_carets s')%nat
  end.

(** ** The output of the merge and of [difference] *)

(** A unit that the merge keeps apart: it has a location or is a Blame. *)
Definition kept_apart (h : list FlowMessage) (a : nat) : Prop :=
  exists v, h !! a = Some v /\ (loc v <> None \/ type v = Blame).

(** Every unit of the output but the first is kept apart. *)
Definition merged_ok (h : list FlowMessage) (acc : list nat) : Prop :=
  forall i b, (0 < i)%nat -> acc !! i = Some b -> kept_apart h b.

(** Two errors with the same text of [message]. *)
Definition same_message_text (e o : FlowError FlowMessage) : bool :=
  bool_decide (json_messages (message o) = json_messages (message e)).

(** No error of the baseline has the text of [message] that [e] has. *)
Definition survives (baseline : list (FlowError FlowMessage))
    (e : FlowError FlowMessage) : bool :=
  forallb (fun o => negb (same_message_text e o)) baseline.

(** ** Reports used as examples *)

(** The message of the example in the specification. *)
Definition example_message : FlowMessage :=
  mkMessage "Cannot call function" Blame (Some "foo();")
    (Some (mkLoc (Some "a.js") None (mkPos 3 1 0) (mkPos 3 4 3))) None.

(** The error, with its one message at reference 0. *)
Definition example_error : FlowError nat :=
  mkError "infer" "error" [0%nat] None None None.

(** A unit whose location ends before it starts. *)
Definition backwards_message : FlowMessage :=
  mkMessage "Unexpected token" Blame (Some "var x = ;")
    (Some (mkLoc (Some "a.js") (Some SourceFile) (mkPos 7 9 0) (mkPos 7 4 0)))
    (Some 2).

(** A unit that points just behind the end of its context line. *)
Definition end_of_line_loc : FlowLoc :=
  mkLoc (Some "a.js") (Some SourceFile) (mkPos 1 3 2) (mkPos 1 3 2).

(** The unit at that location, with the context line "ab". *)
Definition end_of_line_message : FlowMessage :=
  mkMessage "x" Blame (Some "ab") (Some end_of_line_loc) None.

(** An internal error whose only message is a comment, with a trace. *)
Definition internal_error : FlowError nat :=
  mkError "internal" "error" [0%nat] (Some [1%nat]) None None.

(** Its message and the one unit of its trace. *)
Definition internal_store : list FlowMessage :=
  [ mkMessage "Unexpected exception" Comment None None None;
    mkMessage "inference" Comment None None None ].

(** An error whose operation has no location. *)
Definition fallback_error : FlowError nat :=
  mkError "infer" "error" [0%nat] None (Some 1%nat) None.

(** Its message, with a location, and its operation, without. *)
Definition fallback_store : list FlowMessage :=
  [ example_message; mkMessage "call of foo" Blame None None None ].

(** An error with a comment after its message and an [extra] group. *)
Definition noted_error : FlowError nat :=
  mkError "infer" "error" [0%nat; 1%nat] None None (Some [mkExtra [2%nat] None]).

(** Its message, the comment and the message of the group. *)
Definition noted_store : list FlowMessage :=
  [ example_message;
    mkMessage "See the docs" Comment None None None;
    mkMessage "foo is not a function" Blame None None None ].

(** ** The effect of [getExtraMessages] and of the merge *)

(** How often [getExtraMessages] raises the indent of the object [a] while
    it works on the group [n] at nesting level [d]: [d] times for every
    occurrence of [a] among the messages of [n], [d+1] times for every
    occurrence in a child of [n], and so on. *)
Fixpoint node_weight (a d : nat) (n : FlowExtraNode nat) : nat :=
  (d * count_occ Nat.eq_dec (ex_message n) a
   + from_option (fun cs => sum_list (map (node_weight a (S d)) cs)) 0 (children n))%nat.

(** The same for an array of groups at level [d]. *)
Definition extra_weight (a d : nat) (extra : list (FlowExtraNode nat)) : nat :=
  sum_list (map (node_weight a d) extra).

(** The raises that the children of a group receive while the group is
    collected. *)
Definition children_weight (a : nat) (n : FlowExtraNode nat) : nat :=
  from_option (extra_weight a 1) 0%nat (children n).

(** A message after [k] updates [indent = (indent || 0)+2]. *)
Definition indented (k : nat) (m : FlowMessage) : FlowMessage :=
  match k with
  | O => m
  | S _ => mkMessage (descr m) (type m) (context m) (loc m)
             (Some (default 0 (indent m) + 2 * Z.of_nat k))
  end.

(** The store [h'] is [h] with the indent of every object [a] raised
    [w a] times. *)
Definition bumped (w : nat -> nat) (h h' : list FlowMessage) : Prop :=
  length h' = length h /\ forall a, h' !! a = indented (w a) <$> h !! a.

(** The unit at [a] has a location or is a Blame. *)
Definition stays (h : list FlowMessage) (a : nat) : bool :=
  match h !! a with
  | Some v => bool_decide (loc v <> None) || bool_decide (type v = Blame)
  | None => false
  end.

(** The store [h'] has the objects of [h], with other texts at most. *)
Definition same_but_descr (h h' : list FlowMessage) : Prop :=
  length h' = length h /\
  forall a m, h !! a = Some m -> exists d, h' !! a = Some (set_descr d m).

(** The callback of the merge on the properties of the units: what
    [mergeComment] does to an output of distinct objects. *)
Definition merge_value (acc : list FlowMessage) (m : FlowMessage) : list FlowMessage :=
  if bool_decide (loc m <> None) || bool_decide (length acc = 0%nat)
     || bool_decide (type m = Blame)
  then acc ++ [m]
  else if bool_decide (descr m <> "Error:")
       then alter (fun p => set_descr (joinDescr (descr p) (descr m)) p)
                  (length acc - 1)%nat acc
       else acc.

(** The merge on the properties of the units. *)
Definition merge_values (l : list FlowMessage) : list FlowMessage :=
  fold_left merge_value l [].

(** The objects at [l] have the properties [ms]. *)
Definition reads (h : list FlowMessage) (l : list nat) (ms : list FlowMessage) : Prop :=
  Forall2 (fun a m => h !! a = Some m) l ms.

(** ** When a unit can be rendered *)


(** Tabs stay, every other character becomes a space. *)
Definition keep_tab (c : ascii) : ascii :=
  if Ascii.eqb c "009" then "009"%char else " "%char.

(** [operation && operation.loc] is a location. *)
Definition located (operation : option nat) (h : list FlowMessage) : Prop :=
  exists op o l, operation = Some op /\ h !! op = Some o /\ loc o = Some l.

(** ** The renderer on the text of a report

    What [prettyPrint] prints, as a function of the JSON text of the
    report. *)

(** [l.map(f)] for a callback that leaves the store alone. *)
Definition mapO {A B} (f : A -> outcome B) : list A -> outcome (list B) :=
  fix go l :=
    match l with
    | [] => Ret []
    | x :: l' => (y <- f x ;; ys <- go l' ;; Ret (y :: ys))%out
    end.

(** The units of a group of [extra] at nesting level [d]: its messages and
    those of its children, with the indent a message has after the level
    it is at. *)
Fixpoint extra_units (d : nat) (n : FlowExtraNode FlowMessage) : list FlowMessage :=
  map (indented d) (ex_message n)
  ++ from_option (fun cs => concat (map (extra_units (S d)) cs)) [] (children n).

(** The main location; there is none to take from an empty [message]. *)
Definition main_loc (e : FlowError FlowMessage) : outcome (option FlowLoc) :=
  match operation e ≫= loc with
  | Some l => Ret (Some l)
  | None =>
      match message e with
      | m :: _ => Ret (loc m)
      | [] => Throw TypeError
      end
  end.

Definition kind_units (e : FlowError FlowMessage) : list FlowMessage :=
  match message e with
  | m :: _ =>
      match kindDescr (kind e) (level e) (loc m) with
      | Some d => [mkMessage d Blame (context m) (loc m) None]
      | None => []
      end
  | [] => []
  end.

Definition op_units (e : FlowError FlowMessage) : list FlowMessage :=
  match operation e with
  | Some op => [op; mkMessage "Error:" Comment None None None]
  | None => []
  end.

Definition trace_units (e : FlowError FlowMessage) : list FlowMessage :=
  match trace e with
  | Some (t :: ts) => mkMessage "Trace:" Blame None None None :: t :: ts
  | _ => []
  end.

(** The units of an error before the merge, in the order of
    [prettyPrintError]. *)
Definition units (e : FlowError FlowMessage) (mainLoc : option FlowLoc)
    : list FlowMessage :=
  [mkMessage (header_text mainLoc) Comment None None None]
  ++ kind_units e ++ op_units e ++ message e
  ++ from_option (fun x => concat (map (extra_units 1) x)) [] (extra e)
  ++ trace_units e.

(** The block of an error. *)
Definition error_text (e : FlowError FlowMessage) : outcome string :=
  (mainLoc <- main_loc e ;;
   lines <- mapO (prettyPrintMessage (mainFileOf mainLoc)) (merge_values (units e mainLoc)) ;;
   Ret (join nl lines))%out.

(** The blocks of a report, one empty line between two of them. *)
Definition report_text (t : FlowResult FlowMessage) : outcome string :=
  (blocks <- mapO error_text (errors t) ;; Ret (join (nl +:+ nl) blocks))%out.

(** The same below the count line. *)
Definition report_text_with_header (t : FlowResult FlowMessage) : outcome string :=
  if passed t
  then Ret "No errors"
  else (body <- report_text t ;;
        Ret (count_line (length (errors t)) +:+ nl +:+ body))%out.

(** * Facts about strings *)

Lemma append_cons (c : ascii) (s1 s2 : string) :
  String c s1 +:+ s2 = String c (s1 +:+ s2).
Proof. reflexivity. Qed.

Lemma append_assoc (s1 s2 s3 : string) : (s1 +:+ s2) +:+ s3 = s1 +:+ (s2 +:+ s3).
Proof.
  induction s1 as [|c s1 IH]; [reflexivity|].
  rewrite !append_cons. f_equal. exact IH.
Qed.

Lemma append_nil_r (s : string) : s +:+ "" = s.
Proof.
  induction s as [|c s IH]; [reflexivity|].
  rewrite append_cons. f_equal. exact IH.
Qed.

Lemma length_append (s1 s2 : string) :
  String.length (s1 +:+ s2) = (String.length s1 + String.length s2)%nat.
Proof.
  induction s1 as [|c s1 IH]; [reflexivity|].
  rewrite append_cons. cbn [String.length]. cbn [Nat.add]. f_equal. exact IH.
Qed.

Lemma append_take_drop n s : string_take n s +:+ string_drop n s = s.
Proof.
  revert s. induction n as [|n IH]; intros [|c s]; try reflexivity.
  cbn [string_take string_drop]. rewrite append_cons. now rewrite IH.
Qed.

Lemma length_string_take n s :
  (n <= String.length s)%nat -> String.length (string_take n s) = n.
Proof.
  revert s. induction n as [|n IH]; intros [|c s] Hn; cbn in *; try lia.
  rewrite IH; lia.
Qed.

Lemma length_string_map f s : String.length (string_map f s) = String.length s.
Proof. induction s as [|c s IH]; cbn; [reflexivity | now rewrite IH]. Qed.

Lemma blank_out_keep_tab c : blank_out c = keep_tab c.
Proof.
  unfold blank_out, keep_tab.
  destruct (Ascii.eqb_spec c "009") as [->|Ht]; [reflexivity|]. cbn [orb].
  destruct (Ascii.eqb_spec c " ") as [->|Hs]; reflexivity.
Qed.

Lemma replace_non_blank_keep_tab s : replace_non_blank s = string_map keep_tab s.
Proof.
  unfold replace_non_blank. induction s as [|c s IH]; [reflexivity|].
  cbn [string_map]. now rewrite blank_out_keep_tab, IH.
Qed.

Lemma length_string_repeat (c : ascii) (n : nat) :
  String.length (string_repeat (String c "") n) = n.
Proof.
  induction n as [|n IH]; [reflexivity|].
  cbn [string_repeat]. rewrite append_cons. cbn [String.length]. f_equal. exact IH.
Qed.

(** * Reasoning about computations *)

Lemma bind_Ret {A B} (c : JS A) (k : A -> JS B) h a h' :
  c h = (Ret a, h') -> bind c k h = k a h'.
Proof. intros E. unfold bind. now rewrite E. Qed.

Lemma bind_Throw {A B} (c : JS A) (k : A -> JS B) h e h' :
  c h = (Throw e, h') -> bind c k h = (Throw e, h').
Proof. intros E. unfold bind. now rewrite E. Qed.

Lemma bind_inv {A B} (c : JS A) (k : A -> JS B) h b h2 :
  bind c k h = (Ret b, h2) ->
  exists a h1, c h = (Ret a, h1) /\ k a h1 = (Ret b, h2).
Proof.
  unfold bind. destruct (c h) as [[a|e] h1]; intros E; [eauto | discriminate].
Qed.

Lemma load_Some a h m : h !! a = Some m -> load a h = (Ret m, h).
Proof. intros E. unfold load. now rewrite E. Qed.

Lemma load_inv a h m h' : load a h = (Ret m, h') -> h !! a = Some m /\ h' = h.
Proof.
  unfold load. destruct (h !! a); intros E; inversion E; subst; auto.
Qed.

Lemma reduceJS_cons {A B} (f : B -> A -> JS B) x l acc h :
  reduceJS f (x :: l) acc h = bind (f acc x) (fun acc' => reduceJS f l acc') h.
Proof. reflexivity. Qed.

Lemma reduceJS_snoc {A B} (f : B -> A -> JS B) l x acc h :
  reduceJS f (l ++ [x]) acc h =
  match reduceJS f l acc h with
  | (Ret acc', h1) => f acc' x h1
  | (Throw e, h1) => (Throw e, h1)
  end.
Proof.
  revert acc h. induction l as [|y l IH]; intros acc h; simpl; unfold bind.
  - unfold ret. now destruct (f acc x h) as [[?|?] ?].
  - destruct (f acc y h) as [[acc'|e] h1]; [apply IH | reflexivity].
Qed.

(** ** Frames *)

Lemma preserves_refl n h : preserves n h h.
Proof. split; auto. Qed.

Lemma preserves_trans n h1 h2 h3 :
  preserves n h1 h2 -> preserves n h2 h3 -> preserves n h1 h3.
Proof.
  intros [L1 P1] [L2 P2]. split; [lia|].
  intros a Ha. rewrite P2, P1; auto.
Qed.

Lemma preserves_prefix h h' :
  preserves (length h) h h' -> exists fresh, h' = h ++ fresh.
Proof.
  intros [L P]. exists (drop (length h) h').
  apply list_eq. intros i.
  destruct (decide (i < length h)%nat) as [Hi|Hi].
  - rewrite lookup_app_l by done. now apply P.
  - rewrite lookup_app_r by lia. rewrite lookup_drop.
    f_equal. lia.
Qed.

Section frame_rules.
Context {A B : Type} (n : nat).

Lemma frame_ret (a : A) (Q : A -> Prop) : Q a -> frame n (ret a) Q.
Proof.
  intros HQ h _. split; [apply preserves_refl|].
  simpl. intros a' [= <-]. exact HQ.
Qed.

Lemma frame_throw e (Q : A -> Prop) : frame n (throw e) Q.
Proof. intros h _. split; [apply preserves_refl|]. simpl. discriminate. Qed.

Lemma frame_lift (o : outcome A) : frame n (lift o) (fun _ => True).
Proof. intros h _. split; [apply preserves_refl|]. auto. Qed.

Lemma frame_bind (c : JS A) (k : A -> JS B) (Q : A -> Prop) (R : B -> Prop) :
  frame n c Q -> (forall a, Q a -> frame n (k a) R) -> frame n (bind c k) R.
Proof.
  intros Hc Hk h Hn. destruct (Hc h Hn) as [P1 Q1].
  unfold bind. destruct (c h) as [[a|e] h1]; simpl in *.
  - destruct (Hk a (Q1 a eq_refl) h1) as [P2 Q2]; [destruct P1; lia|].
    split; [eapply preserves_trans; eauto | exact Q2].
  - split; [exact P1 | discriminate].
Qed.

Lemma frame_weaken (c : JS A) (Q Q' : A -> Prop) :
  frame n c Q -> (forall a, Q a -> Q' a) -> frame n c Q'.
Proof.
  intros Hc HQ h Hn. destruct (Hc h Hn) as [P1 Q1]. split; auto.
Qed.

Lemma frame_load a : frame n (load a) (fun _ => True).
Proof.
  intros h _. unfold load. destruct (h !! a); simpl;
    (split; [apply preserves_refl | auto]).
Qed.

Lemma frame_alloc m : frame n (alloc m) (fun a => (n <= a)%nat).
Proof.
  intros h Hn. unfold alloc; simpl. split.
  - split; [rewrite length_app; lia|].
    intros a Ha. rewrite lookup_app_l by lia. reflexivity.
  - intros a [= <-]. lia.
Qed.

Lemma frame_store a f : (n <= a)%nat -> frame n (store a f) (fun _ => True).
Proof.
  intros Ha h _. unfold store. destruct (h !! a); simpl;
    (split; [|auto]); [|apply preserves_refl].
  split; [rewrite length_insert; lia|].
  intros a' Ha'. apply list_lookup_insert_ne. lia.
Qed.
End frame_rules.

Section frame_iteration.
Context {A B : Type} (n : nat).

Lemma frame_mapJS (f : A -> JS B) (P : A -> Prop) (Q : B -> Prop) l :
  (forall x, P x -> frame n (f x) Q) ->
  Forall P l -> frame n (mapJS f l) (Forall Q).
Proof.
  intros Hf. induction 1 as [|x l Hx Hl IH]; simpl.
  - apply frame_ret. constructor.
  - eapply frame_bind; [apply Hf, Hx|]. intros y Hy.
    eapply frame_bind; [apply IH|]. intros ys Hys.
    apply frame_ret. now constructor.
Qed.

Lemma frame_reduceJS (f : B -> A -> JS B) (P : A -> Prop) (I : B -> Prop) l acc :
  (forall acc x, I acc -> P x -> frame n (f acc x) I) ->
  Forall P l -> I acc -> frame n (reduceJS f l acc) I.
Proof.
  intros Hf Hl. revert acc. induction Hl as [|x l Hx Hl IH]; intros acc Hacc; simpl.
  - now apply frame_ret.
  - eapply frame_bind; [apply Hf; eauto|]. intros acc' Hacc'. now apply IH.
Qed.

Lemma frame_forEachJS (f : A -> JS unit) (P : A -> Prop) l :
  (forall x, P x -> frame n (f x) (fun _ => True)) ->
  Forall P l -> frame n (forEachJS f l) (fun _ => True).
Proof.
  intros Hf. induction 1 as [|x l Hx Hl IH]; simpl.
  - now apply frame_ret.
  - eapply frame_bind; [apply Hf, Hx|]. intros _ _. apply IH.
Qed.

Lemma frame_traverse_option (f : A -> JS B) (P : A -> Prop) (Q : B -> Prop) o :
  (forall x, P x -> frame n (f x) Q) ->
  (forall x, o = Some x -> P x) ->
  frame n (traverse_option f o) (fun o' => forall y, o' = Some y -> Q y).
Proof.
  intros Hf Ho. destruct o as [x|]; simpl.
  - eapply frame_bind; [apply Hf, Ho; reflexivity|]. intros y Hy.
    apply frame_ret. now intros y' [= <-].
  - apply frame_ret. discriminate.
Qed.
End frame_iteration.

(** ** The messages of a report *)

Section elems_facts.
Context {M : Type}.

Lemma Forall_elems_list {T} (P : M -> Prop) (el : T -> list M) l :
  Forall P (elems_list el l) <-> Forall (fun x => Forall P (el x)) l.
Proof.
  unfold elems_list. induction l as [|x l IH]; simpl.
  - split; constructor.
  - rewrite Forall_app, Forall_cons, IH. reflexivity.
Qed.

Lemma Forall_elems_option {T} (P : M -> Prop) (el : T -> list M) o :
  Forall P (elems_option el o) <-> forall x, o = Some x -> Forall P (el x).
Proof.
  destruct o as [x|]; simpl; split.
  - now intros H ? [= <-].
  - auto.
  - discriminate.
  - constructor.
Qed.

(** Induction over a tree of [extra] groups. *)
Lemma FlowExtraNode_tree_ind (P : FlowExtraNode M -> Prop) :
  (forall ms, P (mkExtra ms None)) ->
  (forall ms cs, Forall P cs -> P (mkExtra ms (Some cs))) ->
  forall n, P n.
Proof.
  intros Hnone Hsome. fix self 1. intros [ms [cs|]].
  - apply Hsome. induction cs as [|c cs IH]; constructor; [apply self | exact IH].
  - apply Hnone.
Qed.
End elems_facts.

(** ** What the functions leave alone *)

Section frames.
Context (n : nat).

Lemma frame_traverse_extra {A B} (f : A -> JS B) (P : A -> Prop) (Q : B -> Prop) :
  (forall x, P x -> frame n (f x) Q) ->
  forall node, Forall P (extra_elems node) ->
    frame n (traverse_extra f node) (fun r => Forall Q (extra_elems r)).
Proof.
  intros Hf. induction node as [ms|ms cs IH] using FlowExtraNode_tree_ind;
    simpl; intros HP; apply Forall_app in HP as [Hms Hcs].
  - eapply frame_bind; [eapply frame_mapJS; eauto|]. intros ms' Hms'.
    eapply frame_bind; [apply frame_ret with (Q := fun o => o = None); reflexivity|].
    intros ? ->. apply frame_ret. simpl. rewrite app_nil_r. exact Hms'.
  - eapply frame_bind; [eapply frame_mapJS; eauto|]. intros ms' Hms'.
    simpl in Hcs. apply Forall_elems_list in Hcs.
    eapply frame_bind.
    { eapply frame_bind.
      - apply frame_mapJS with (P := fun c => Forall P (extra_elems c) /\
          (Forall P (extra_elems c) ->
           frame n (traverse_extra f c) (fun r => Forall Q (extra_elems r))))
          (Q := fun r => Forall Q (extra_elems r)).
        + intros c [Hc1 Hc2]. auto.
        + apply Forall_and. split; assumption.
      - intros cs' Hcs'.
        apply frame_ret with
          (Q := fun o => Forall Q (elems_option (elems_list extra_elems) o)).
        simpl. now apply Forall_elems_list. }
    intros ch' Hch'. apply frame_ret. simpl. apply Forall_app. auto.
Qed.

Lemma frame_traverse_error {A B} (f : A -> JS B) (P : A -> Prop) (Q : B -> Prop) :
  (forall x, P x -> frame n (f x) Q) ->
  forall e, Forall P (error_elems e) ->
    frame n (traverse_error f e) (fun r => Forall Q (error_elems r)).
Proof.
  intros Hf e HP. unfold error_elems in HP.
  apply Forall_app in HP as [Hm HP]. apply Forall_app in HP as [Ht HP].
  apply Forall_app in HP as [Ho Hx].
  unfold traverse_error.
  eapply frame_bind; [eapply frame_mapJS; eauto|]. intros m' Hm'.
  eapply frame_bind.
  { apply frame_traverse_option with (P := Forall P) (Q := Forall Q).
    - intros l Hl. eapply frame_mapJS; eauto.
    - intros l E. rewrite E in Ht. exact Ht. }
  intros t' Ht'.
  eapply frame_bind.
  { apply frame_traverse_option with (P := P) (Q := Q); [exact Hf|].
    intros x E. rewrite E in Ho. exact (Forall_inv Ho). }
  intros o' Ho'.
  eapply frame_bind.
  { apply frame_traverse_option
      with (P := fun l => Forall P (elems_list extra_elems l))
           (Q := fun l => Forall Q (elems_list extra_elems l)).
    - intros l Hl. apply Forall_elems_list in Hl.
      eapply frame_weaken.
      + apply frame_mapJS with (P := fun c => Forall P (extra_elems c))
                               (Q := fun c => Forall Q (extra_elems c));
          [|exact Hl].
        intros c Hc. apply frame_traverse_extra with (P := P); auto.
      + intros l' Hl'. now apply Forall_elems_list.
    - intros l E. rewrite E in Hx. exact Hx. }
  intros x' Hx'. apply frame_ret. unfold error_elems; simpl.
  repeat (apply Forall_app; split).
  - exact Hm'.
  - apply Forall_elems_option. exact Ht'.
  - apply Forall_elems_option. intros x E. constructor; auto.
  - apply Forall_elems_option. exact Hx'.
Qed.

Lemma frame_traverse_result {A B} (f : A -> JS B) (P : A -> Prop) (Q : B -> Prop) :
  (forall x, P x -> frame n (f x) Q) ->
  forall r, Forall P (result_elems r) ->
    frame n (traverse_result f r) (fun r' => Forall Q (result_elems r')).
Proof.
  intros Hf r HP. unfold traverse_result.
  apply Forall_elems_list in HP.
  eapply frame_bind.
  - apply frame_mapJS with (P := fun e => Forall P (error_elems e))
                           (Q := fun e => Forall Q (error_elems e));
      [|exact HP].
    intros e He. apply frame_traverse_error with (P := P); auto.
  - intros es Hes. apply frame_ret. now apply Forall_elems_list.
Qed.
End frames.

Ltac frame_done :=
  apply frame_ret; first [exact I | assumption | constructor; fail | auto; fail].

Section program_frames.
Context (n : nat).
Let fresh (l : list nat) : Prop := Forall (fun a => (n <= a)%nat) l.

Lemma frame_mkComment d : frame n (mkComment d) (fun a => (n <= a)%nat).
Proof. apply frame_alloc. Qed.

Lemma frame_getHeader mainLoc : frame n (getHeader mainLoc) fresh.
Proof.
  unfold getHeader.
  destruct (match mainLoc with Some l => _ | None => _ end) as [filename line].
  eapply frame_bind; [apply frame_mkComment|].
  intros c Hc. apply frame_ret. now constructor.
Qed.

Lemma frame_getKindMessage kind level message :
  frame n (getKindMessage kind level message) fresh.
Proof.
  unfold getKindMessage. destruct message as [|m0 ?]; [frame_done|].
  eapply frame_bind; [apply frame_load|]. intros m _.
  destruct (kindDescr kind level (loc m)); [|frame_done].
  eapply frame_bind; [apply frame_alloc|].
  intros k Hk. apply frame_ret. now constructor.
Qed.

Lemma frame_getOpReason op :
  (forall o, op = Some o -> (n <= o)%nat) -> frame n (getOpReason op) fresh.
Proof.
  intros Hop. destruct op as [o|]; simpl; [|frame_done].
  eapply frame_bind; [apply frame_mkComment|].
  intros c Hc. apply frame_ret. repeat constructor; auto.
Qed.

Lemma frame_getTraceReasons trace :
  (forall t, trace = Some t -> fresh t) -> frame n (getTraceReasons trace) fresh.
Proof.
  intros Ht. destruct trace as [[|t ts]|]; simpl; try frame_done.
  eapply frame_bind; [apply frame_alloc|].
  intros r Hr. apply frame_ret. constructor; [exact Hr|]. now apply Ht.
Qed.

Lemma frame_extraMessagesOf callback extra (P : FlowExtraNode nat -> Prop) :
  (forall acc current, fresh acc -> P current -> frame n (callback acc current) fresh) ->
  Forall P extra -> frame n (extraMessagesOf callback extra) fresh.
Proof.
  intros Hcb Hex. unfold extraMessagesOf.
  eapply frame_bind.
  { apply frame_reduceJS with (P := P) (I := fresh); auto. constructor. }
  intros messages Hm.
  eapply frame_bind.
  { apply frame_forEachJS with (P := fun a => (n <= a)%nat); [|exact Hm].
    intros a Ha. now apply frame_store. }
  intros _ _. frame_done.
Qed.

Lemma frame_extraCallback current :
  fresh (extra_elems current) ->
  forall acc, fresh acc -> frame n (extraCallback acc current) fresh.
Proof.
  induction current as [ms|ms cs IH] using FlowExtraNode_tree_ind;
    simpl; intros HP acc Hacc; apply Forall_app in HP as [Hms Hcs].
  - eapply frame_bind; [apply frame_ret with (Q := fresh); constructor|].
    intros c Hc. apply frame_ret. repeat (apply Forall_app; split); auto.
  - simpl in Hcs. apply Forall_elems_list in Hcs.
    eapply frame_bind.
    { apply frame_extraMessagesOf with
        (P := fun c => fresh (extra_elems c) /\
                (fresh (extra_elems c) ->
                 forall acc, fresh acc -> frame n (extraCallback acc c) fresh)).
      - intros acc' c Hacc' [Hc1 Hc2]. auto.
      - apply Forall_and. split; assumption. }
    intros c Hc. apply frame_ret. repeat (apply Forall_app; split); auto.
Qed.

Lemma frame_getExtraMessages extra :
  fresh (elems_option (elems_list extra_elems) extra) ->
  frame n (getExtraMessages extra) fresh.
Proof.
  intros Hx. destruct extra as [l|]; simpl; [|apply frame_ret; constructor].
  simpl in Hx. apply Forall_elems_list in Hx.
  apply frame_extraMessagesOf with (P := fun c => fresh (extra_elems c)); [|exact Hx].
  intros acc c Hacc Hc. now apply frame_extraCallback.
Qed.

Lemma frame_mainLocOf operation message :
  frame n (mainLocOf operation message) (fun _ => True).
Proof.
  unfold mainLocOf. eapply frame_bind with (Q := fun _ => True).
  - destruct operation; [|frame_done].
    eapply frame_bind; [apply frame_load|]. intros; frame_done.
  - intros [l|] _; [frame_done|].
    destruct message; [apply frame_throw|].
    eapply frame_bind; [apply frame_load|]. intros; frame_done.
Qed.

Lemma frame_mergeComment acc message :
  fresh acc -> (n <= message)%nat -> frame n (mergeComment acc message) fresh.
Proof.
  intros Hacc Hm. unfold mergeComment.
  eapply frame_bind; [apply frame_load|]. intros m _.
  destruct (_ || _ || _).
  { apply frame_ret. apply Forall_app. split; auto. }
  destruct (bool_decide _); [|frame_done].
  destruct (last acc) as [prev|] eqn:E; [|apply frame_throw].
  eapply frame_bind; [|intros; frame_done].
  apply frame_store.
  apply last_Some in E as [acc' ->].
  apply Forall_app in Hacc as [_ Hp]. exact (Forall_inv Hp).
Qed.

Lemma frame_mergedMessages error :
  fresh (error_elems error) -> frame n (mergedMessages error) (fun r => fresh r.2).
Proof.
  intros HP. unfold error_elems in HP.
  apply Forall_app in HP as [Hm HP]. apply Forall_app in HP as [Ht HP].
  apply Forall_app in HP as [Ho Hx].
  unfold mergedMessages.
  eapply frame_bind; [apply frame_mainLocOf|]. intros mainLoc _.
  eapply frame_bind; [apply frame_getHeader|]. intros header Hh.
  eapply frame_bind; [apply frame_getKindMessage|]. intros kindMessage Hk.
  eapply frame_bind.
  { apply frame_getOpReason. intros o E. rewrite E in Ho. exact (Forall_inv Ho). }
  intros opReason Hop.
  eapply frame_bind; [apply frame_getExtraMessages, Hx|]. intros extraMessages He.
  eapply frame_bind.
  { apply frame_getTraceReasons. intros t E. rewrite E in Ht. exact Ht. }
  intros traceReasons Htr.
  eapply frame_bind.
  { apply frame_reduceJS with (P := fun a => (n <= a)%nat) (I := fresh).
    - intros; now apply frame_mergeComment.
    - repeat (apply Forall_app; split); assumption.
    - constructor. }
  intros messages Hmsgs. frame_done.
Qed.

Lemma frame_prettyPrintError error :
  fresh (error_elems error) -> frame n (prettyPrintError error) (fun _ => True).
Proof.
  intros HP. unfold prettyPrintError.
  eapply frame_bind; [apply frame_mergedMessages, HP|].
  intros [mainFile messages] Hm. simpl in Hm.
  eapply frame_bind with (Q := fun _ => True); [|intros; frame_done].
  eapply frame_weaken.
  - apply frame_mapJS with (P := fun _ => True) (Q := fun _ => True).
    + intros a _. eapply frame_bind; [apply frame_load|].
      intros; apply frame_lift.
    + now apply Forall_true.
  - auto.
Qed.
End program_frames.

Lemma frame_JSON_stringify n result :
  frame n (JSON_stringify result) (fun _ => True).
Proof.
  eapply frame_weaken.
  - apply frame_traverse_result with (P := fun _ => True) (Q := fun _ => True).
    + intros; apply frame_load.
    + now apply Forall_true.
  - auto.
Qed.

Lemma frame_JSON_stringify_error n error :
  frame n (JSON_stringify_error error) (fun _ => True).
Proof.
  eapply frame_weaken.
  - apply frame_traverse_error with (P := fun _ => True) (Q := fun _ => True).
    + intros; apply frame_load.
    + now apply Forall_true.
  - auto.
Qed.

Lemma frame_JSON_stringify_messages n message :
  frame n (JSON_stringify_messages message) (fun _ => True).
Proof.
  unfold JSON_stringify_messages.
  eapply frame_bind with (Q := fun _ => True); [|intros; frame_done].
  eapply frame_weaken.
  - apply frame_mapJS with (P := fun _ => True) (Q := fun _ => True).
    + intros; apply frame_load.
    + now apply Forall_true.
  - auto.
Qed.

Lemma frame_JSON_parse n text :
  frame n (JSON_parse text) (fun r => Forall (fun a => (n <= a)%nat) (result_elems r)).
Proof.
  apply frame_traverse_result with (P := fun _ => True).
  - intros; apply frame_alloc.
  - now apply Forall_true.
Qed.

Lemma frame_JSON_parse_error n text :
  frame n (JSON_parse_error text) (fun r => Forall (fun a => (n <= a)%nat) (error_elems r)).
Proof.
  apply frame_traverse_error with (P := fun _ => True).
  - intros; apply frame_alloc.
  - now apply Forall_true.
Qed.

Lemma frame_prettyPrint n result : frame n (prettyPrint result) (fun _ => True).
Proof.
  unfold prettyPrint.
  eapply frame_bind; [apply frame_JSON_stringify|]. intros text _.
  eapply frame_bind; [apply frame_JSON_parse|]. intros copy Hcopy.
  apply Forall_elems_list in Hcopy.
  eapply frame_bind with (Q := fun _ => True); [|intros; frame_done].
  eapply frame_weaken.
  - apply frame_mapJS with
      (P := fun e => Forall (fun a => (n <= a)%nat) (error_elems e)) (Q := fun _ => True);
      [|exact Hcopy].
    intros e He. now apply frame_prettyPrintError.
  - auto.
Qed.

Lemma frame_prettyPrintWithHeader n result :
  frame n (prettyPrintWithHeader result) (fun _ => True).
Proof.
  unfold prettyPrintWithHeader. destruct (passed result); [frame_done|].
  eapply frame_bind; [apply frame_prettyPrint|]. intros; frame_done.
Qed.

Lemma frame_difference n a b : frame n (difference a b) (fun _ => True).
Proof.
  unfold difference.
  eapply frame_bind with (Q := fun _ => True).
  { apply frame_reduceJS with (P := fun _ => True) (I := fun _ => True); auto.
    - intros oldHashes error _ _. unfold recordHash.
      eapply frame_bind; [apply frame_JSON_stringify_messages|].
      intros; frame_done.
    - now apply Forall_true. }
  intros oldHashes _.
  eapply frame_bind with (Q := fun _ => True); [|intros; frame_done].
  apply frame_reduceJS with (P := fun _ => True) (I := fun _ => True); auto.
  - intros errors error _ _. unfold keepNew.
    eapply frame_bind; [apply frame_JSON_stringify_messages|]. intros hash _.
    destruct (property_defined oldHashes hash); [frame_done|].
    eapply frame_bind; [apply frame_JSON_stringify_error|]. intros text _.
    eapply frame_bind; [apply frame_JSON_parse_error|]. intros; frame_done.
  - now apply Forall_true.
Qed.

(** ** When the planner returns *)

Lemma below_mono n n' l : (n <= n')%nat -> below n l -> below n' l.
Proof.
  intros Hn H. eapply Forall_impl; [exact H|]. intros a Ha. cbn in Ha. lia.
Qed.

Lemma returns_ret {A} N (a : A) (Q : A -> nat -> Prop) :
  (forall n, (N <= n)%nat -> Q a n) -> returns N (ret a) Q.
Proof. intros HQ h Hh. exists a, h. auto. Qed.

Lemma returns_bind {A B} N (c : JS A) (k : A -> JS B) Q R :
  returns N c Q ->
  (forall a n, (N <= n)%nat -> Q a n -> returns n (k a) R) ->
  returns N (bind c k) R.
Proof.
  intros Hc Hk h Hh. destruct (Hc h Hh) as (a & h1 & E & L & HQ).
  assert (N <= length h1)%nat as HN by lia.
  destruct (Hk a (length h1) HN HQ h1 (le_n _)) as (b & h2 & E2 & L2 & HR).
  exists b, h2. rewrite (bind_Ret _ _ _ _ _ E).
  split; [exact E2|]. split; [lia | exact HR].
Qed.

Lemma returns_load N a : (a < N)%nat -> returns N (load a) (fun _ _ => True).
Proof.
  intros Ha h Hh. destruct (lookup_lt_is_Some_2 h a) as [m Hm]; [lia|].
  exists m, h. rewrite (load_Some _ _ _ Hm). auto.
Qed.

Lemma returns_alloc N m : returns N (alloc m) (fun a n => (a < n)%nat).
Proof.
  intros h Hh. exists (length h), (h ++ [m]). rewrite length_app. cbn.
  repeat split; lia.
Qed.

Lemma returns_store N a f : (a < N)%nat -> returns N (store a f) (fun _ _ => True).
Proof.
  intros Ha h Hh. destruct (lookup_lt_is_Some_2 h a) as [m Hm]; [lia|].
  exists tt, (<[a := f m]> h). unfold store. rewrite Hm, length_insert. auto.
Qed.

Lemma returns_reduceJS {A B} (f : B -> A -> JS B) (P : A -> Prop)
    (I : B -> nat -> Prop) N l :
  (forall b n n', (n <= n')%nat -> I b n -> I b n') ->
  (forall acc x n, (N <= n)%nat -> P x -> I acc n -> returns n (f acc x) I) ->
  Forall P l ->
  forall acc n, (N <= n)%nat -> I acc n -> returns n (reduceJS f l acc) I.
Proof.
  intros Hmono Hf. induction 1 as [|x l Hx Hl IH]; intros acc n Hn Hacc.
  - apply returns_ret. intros n' Hn'. now apply (Hmono acc n).
  - intros h Hh. rewrite reduceJS_cons. revert h Hh.
    apply returns_bind with (Q := I); [now apply Hf|].
    intros acc' n' Hn' Hacc'. apply IH; [lia | exact Hacc'].
Qed.

Lemma returns_forEachJS {A} (f : A -> JS unit) (P : A -> Prop) N l :
  (forall x n, (N <= n)%nat -> P x -> returns n (f x) (fun _ _ => True)) ->
  Forall P l ->
  forall n, (N <= n)%nat -> returns n (forEachJS f l) (fun _ _ => True).
Proof.
  intros Hf. induction 1 as [|x l Hx Hl IH]; intros n Hn.
  - now apply returns_ret.
  - apply returns_bind with (Q := fun _ _ => True); [now apply Hf|].
    intros _ n' Hn' _. apply IH. lia.
Qed.

Lemma returns_getHeader mainLoc n :
  returns n (getHeader mainLoc) (fun r n' => below n' r).
Proof.
  unfold getHeader.
  destruct (match mainLoc with Some l => _ | None => _ end) as [filename line].
  eapply returns_bind; [apply returns_alloc|].
  intros c n' _ Hc. apply returns_ret. intros n'' Hn''. cbn beta in *.
  constructor; [lia | constructor].
Qed.

Lemma returns_getKindMessage kind level message n :
  below n message -> returns n (getKindMessage kind level message) (fun r n' => below n' r).
Proof.
  intros Hm. unfold getKindMessage.
  destruct message as [|m0 rest]; [apply returns_ret; constructor|].
  eapply returns_bind; [apply returns_load, (Forall_inv Hm)|].
  intros m n' _ _. destruct (kindDescr _ _ _); [|apply returns_ret; constructor].
  eapply returns_bind; [apply returns_alloc|].
  intros k n'' _ Hk. apply returns_ret. intros n3 Hn3. cbn beta in *.
  constructor; [lia | constructor].
Qed.

Lemma returns_getOpReason op n :
  below n (elems_option (fun x => [x]) op) ->
  returns n (getOpReason op) (fun r n' => below n' r).
Proof.
  intros Hop. destruct op as [o|]; cbn; [|apply returns_ret; constructor].
  eapply returns_bind; [apply returns_alloc|].
  intros c n' Hn' Hc. apply returns_ret. intros n'' Hn''. cbn beta in *.
  constructor; [pose proof (Forall_inv Hop); cbn in *; lia|].
  constructor; [lia | constructor].
Qed.

Lemma returns_getTraceReasons trace n :
  below n (elems_option id trace) ->
  returns n (getTraceReasons trace) (fun r n' => below n' r).
Proof.
  intros Ht. destruct trace as [[|t ts]|]; cbn; try (apply returns_ret; constructor).
  eapply returns_bind; [apply returns_alloc|].
  intros r n' Hn' Hr. apply returns_ret. intros n'' Hn''. cbn beta in *.
  constructor; [lia|]. eapply below_mono; [|exact Ht]. lia.
Qed.

Lemma returns_extraMessagesOf callback extra (P : FlowExtraNode nat -> Prop) n :
  (forall acc current n', (n <= n')%nat -> P current -> below n' acc ->
     returns n' (callback acc current) (fun r n'' => below n'' r)) ->
  Forall P extra ->
  returns n (extraMessagesOf callback extra) (fun r n' => below n' r).
Proof.
  intros Hcb Hex. unfold extraMessagesOf.
  eapply returns_bind.
  { apply returns_reduceJS with (P := P) (I := fun r n' => below n' r) (N := n);
      [intros b n1 n2; apply below_mono | exact Hcb | exact Hex | lia | constructor]. }
  intros messages n' Hn' Hm.
  eapply returns_bind.
  { apply returns_forEachJS with (P := fun a => (a < n')%nat) (N := n'); [|exact Hm|lia].
    intros a n'' Hn'' Ha. apply returns_store. lia. }
  intros _ n'' Hn'' _. apply returns_ret. intros n3 Hn3. cbn beta in *.
  eapply below_mono; [|exact Hm]. lia.
Qed.

Lemma returns_extraCallback current :
  forall acc n, below n (extra_elems current) -> below n acc ->
    returns n (extraCallback acc current) (fun r n' => below n' r).
Proof.
  induction current as [ms|ms cs IH] using FlowExtraNode_tree_ind;
    intros acc n HP Hacc; cbn in HP; apply Forall_app in HP as [Hms Hcs]; cbn.
  - eapply returns_bind with (Q := fun r n' => below n' r);
      [apply returns_ret; constructor|].
    intros c n' Hn' Hc. apply returns_ret. intros n'' Hn''. cbn beta in *.
    repeat (apply Forall_app; split);
      [eapply below_mono; [|exact Hacc] | eapply below_mono; [|exact Hms]
       | eapply below_mono; [|exact Hc]]; lia.
  - cbn in Hcs. apply Forall_elems_list in Hcs.
    eapply returns_bind.
    { apply returns_extraMessagesOf with
        (P := fun c => below n (extra_elems c) /\
                (forall acc n, below n (extra_elems c) -> below n acc ->
                   returns n (extraCallback acc c) (fun r n' => below n' r))).
      - intros acc' c n' Hn' [Hc1 Hc2] Hacc'. apply Hc2; [|exact Hacc'].
        eapply below_mono; eauto.
      - apply Forall_and. split; assumption. }
    intros c n' Hn' Hc. apply returns_ret. intros n'' Hn''. cbn beta in *.
    repeat (apply Forall_app; split);
      [eapply below_mono; [|exact Hacc] | eapply below_mono; [|exact Hms]
       | eapply below_mono; [|exact Hc]]; lia.
Qed.

Lemma returns_getExtraMessages extra n :
  below n (elems_option (elems_list extra_elems) extra) ->
  returns n (getExtraMessages extra) (fun r n' => below n' r).
Proof.
  intros Hx. destruct extra as [l|]; cbn; [|apply returns_ret; constructor].
  cbn in Hx. apply Forall_elems_list in Hx.
  apply returns_extraMessagesOf with (P := fun c => below n (extra_elems c)); [|exact Hx].
  intros acc c n' Hn' Hc Hacc. apply returns_extraCallback; [|exact Hacc].
  eapply below_mono; eauto.
Qed.

Lemma returns_mainLocOf operation message n :
  below n (elems_option (fun x => [x]) operation) -> below n message -> message <> [] ->
  returns n (mainLocOf operation message) (fun _ _ => True).
Proof.
  intros Hop Hm Hne. unfold mainLocOf.
  eapply returns_bind with (Q := fun _ _ => True).
  - destruct operation as [op|]; [|now apply returns_ret].
    eapply returns_bind; [apply returns_load, (Forall_inv Hop)|].
    intros; now apply returns_ret.
  - intros [l|] n' Hn' _; [now apply returns_ret|].
    destruct message as [|m0 rest]; [contradiction|].
    eapply returns_bind; [apply returns_load; pose proof (Forall_inv Hm); cbn in *; lia|].
    intros; now apply returns_ret.
Qed.

Lemma returns_mergeComment acc message n :
  (message < n)%nat -> below n acc ->
  returns n (mergeComment acc message) (fun r n' => below n' r).
Proof.
  intros Hm Hacc. unfold mergeComment.
  eapply returns_bind; [now apply returns_load|]. intros m n' Hn' _.
  destruct (bool_decide (loc m <> None)); cbn [orb].
  { apply returns_ret. intros n'' Hn''. cbn beta in *. apply Forall_app. split.
    - eapply below_mono; [|exact Hacc]. lia.
    - constructor; [lia | constructor]. }
  case_bool_decide as Hlen; cbn [orb].
  { apply returns_ret. intros n'' Hn''. cbn beta in *. apply Forall_app. split.
    - eapply below_mono; [|exact Hacc]. lia.
    - constructor; [lia | constructor]. }
  destruct (bool_decide (type m = Blame)).
  { apply returns_ret. intros n'' Hn''. cbn beta in *. apply Forall_app. split.
    - eapply below_mono; [|exact Hacc]. lia.
    - constructor; [lia | constructor]. }
  destruct (bool_decide _).
  - destruct (last acc) as [prev|] eqn:E.
    + apply last_Some in E as [acc' ->].
      pose proof (Forall_inv (proj2 (proj1 (Forall_app _ _ _) Hacc))) as Hprev.
      eapply returns_bind; [apply returns_store; cbn in Hprev; lia|].
      intros _ n'' Hn'' _. apply returns_ret. intros n3 Hn3. cbn beta in *.
      eapply below_mono; [|exact Hacc]. lia.
    + apply last_None in E. subst acc. now contradiction Hlen.
  - apply returns_ret. intros n'' Hn''. cbn beta in *. eapply below_mono; [|exact Hacc]. lia.
Qed.

Lemma returns_merge l acc n :
  below n l -> below n acc ->
  returns n (reduceJS mergeComment l acc) (fun r n' => below n' r).
Proof.
  intros Hl Hacc.
  apply returns_reduceJS with (P := fun a => (a < n)%nat) (I := fun r n' => below n' r) (N := n);
    [intros b n1 n2; apply below_mono | | exact Hl | lia | exact Hacc].
  intros acc' x n' Hn' Hx Hacc'. apply returns_mergeComment; [lia | exact Hacc'].
Qed.
(** The planner and the merge return for an error that has a message and
    whose messages are in the store. *)
Lemma mergedMessages_returns error h :
  message error <> [] -> below (length h) (error_elems error) ->
  exists mainFile messages h', mergedMessages error h = (Ret (mainFile, messages), h').
Proof.
  intros Hne HP. unfold error_elems in HP.
  apply Forall_app in HP as [Hm HP]. apply Forall_app in HP as [Ht HP].
  apply Forall_app in HP as [Ho Hx].
  assert (returns (length h) (mergedMessages error) (fun _ _ => True)) as H.
  { unfold mergedMessages.
    eapply returns_bind; [now apply returns_mainLocOf|]. intros mainLoc n1 H1 _.
    eapply returns_bind; [apply returns_getHeader|]. intros header n2 H2 Hh.
    eapply returns_bind.
    { apply returns_getKindMessage. eapply below_mono; [|exact Hm]. lia. }
    intros kindMessage n3 H3 Hk.
    eapply returns_bind.
    { apply returns_getOpReason. eapply below_mono; [|exact Ho]. lia. }
    intros opReason n4 H4 Hop.
    eapply returns_bind.
    { apply returns_getExtraMessages. eapply below_mono; [|exact Hx]. lia. }
    intros extraMessages n5 H5 He.
    eapply returns_bind.
    { apply returns_getTraceReasons. eapply below_mono; [|exact Ht]. lia. }
    intros traceReasons n6 H6 Htr.
    eapply returns_bind.
    { apply returns_merge; [|constructor].
      repeat (apply Forall_app; split);
        [eapply below_mono; [|exact Hh] | eapply below_mono; [|exact Hk]
         | eapply below_mono; [|exact Hop] | eapply below_mono; [|exact Hm]
         | eapply below_mono; [|exact He] | eapply below_mono; [|exact Htr]]; lia. }
    intros messages n7 H7 _. now apply returns_ret. }
  destruct (H h (le_n _)) as ([mainFile messages] & h' & E & _). eauto.
Qed.

(** ** Reading *)

Lemma stable_ret {A} (a : A) : stable (ret a).
Proof. intros h. split; [reflexivity|]. now intros a' h2 [= <-]. Qed.

Lemma stable_load a : stable (load a).
Proof.
  intros h. unfold load. destruct (h !! a) as [m|] eqn:E; simpl; split; auto;
    try discriminate.
  intros a' h2 [= <-]. now rewrite (lookup_app_l_Some _ _ _ _ E).
Qed.

Lemma stable_bind {A B} (c : JS A) (k : A -> JS B) :
  stable c -> (forall a, stable (k a)) -> stable (bind c k).
Proof.
  intros Hc Hk h. destruct (Hc h) as [Hc1 Hc2]. unfold bind.
  destruct (c h) as [[a|e] h1] eqn:E; simpl in *; subst h1.
  - destruct (Hk a h) as [Hk1 Hk2]. split; [exact Hk1|].
    intros b h2 Hb. rewrite (Hc2 a h2 eq_refl). now apply Hk2.
  - split; [reflexivity | discriminate].
Qed.

Lemma stable_mapJS {A B} (f : A -> JS B) l :
  Forall (fun x => stable (f x)) l -> stable (mapJS f l).
Proof.
  induction 1 as [|x l Hx Hl IH]; simpl; [apply stable_ret|].
  apply stable_bind; [exact Hx|]. intros y.
  apply stable_bind; [exact IH|]. intros ys. apply stable_ret.
Qed.

Lemma stable_traverse_option {A B} (f : A -> JS B) o :
  (forall x, o = Some x -> stable (f x)) -> stable (traverse_option f o).
Proof.
  intros Hf. destruct o as [x|]; simpl; [|apply stable_ret].
  apply stable_bind; [now apply Hf|]. intros; apply stable_ret.
Qed.

Lemma stable_mapJS_load l : stable (mapJS load l).
Proof. apply stable_mapJS, Forall_forall. intros; apply stable_load. Qed.

Lemma stable_traverse_extra_load node : stable (traverse_extra load node).
Proof.
  induction node as [ms|ms cs IH] using FlowExtraNode_tree_ind; simpl.
  - apply stable_bind; [apply stable_mapJS_load|]. intros ms'.
    apply stable_bind; [apply stable_ret|]. intros; apply stable_ret.
  - apply stable_bind; [apply stable_mapJS_load|]. intros ms'.
    apply stable_bind; [|intros; apply stable_ret].
    apply stable_bind; [now apply stable_mapJS|]. intros; apply stable_ret.
Qed.

Lemma stable_JSON_stringify_error error : stable (JSON_stringify_error error).
Proof.
  unfold JSON_stringify_error, traverse_error.
  apply stable_bind; [apply stable_mapJS_load|]. intros m'.
  apply stable_bind.
  { apply stable_traverse_option. intros; apply stable_mapJS_load. }
  intros t'. apply stable_bind.
  { apply stable_traverse_option. intros; apply stable_load. }
  intros o'. apply stable_bind; [|intros; apply stable_ret].
  apply stable_traverse_option. intros l _.
  apply stable_mapJS, Forall_forall. intros; apply stable_traverse_extra_load.
Qed.

Lemma stable_JSON_stringify result : stable (JSON_stringify result).
Proof.
  unfold JSON_stringify, traverse_result.
  apply stable_bind; [|intros; apply stable_ret].
  apply stable_mapJS, Forall_forall. intros; apply stable_JSON_stringify_error.
Qed.

Lemma stable_JSON_stringify_messages message : stable (JSON_stringify_messages message).
Proof.
  unfold JSON_stringify_messages.
  apply stable_bind; [apply stable_mapJS_load|]. intros; apply stable_ret.
Qed.

(** The text of a report does not change when the store only grows. *)
Lemma JSON_stringify_grow result h t fresh :
  JSON_stringify result h = (Ret t, h) ->
  JSON_stringify result (h ++ fresh) = (Ret t, h ++ fresh).
Proof.
  intros E. apply (stable_JSON_stringify result h). now rewrite E.
Qed.

Lemma frame_untouched {A} (c : JS A) h :
  (forall n, frame n c (fun _ => True)) -> untouched h (c h).2.
Proof.
  intros Hc. destruct (Hc (length h) h (le_n _)) as [P _].
  apply preserves_prefix in P as [fresh ->]. split; [eauto|].
  intros X t. apply JSON_stringify_grow.
Qed.

(** C9: [difference], [prettyPrint] and [prettyPrintWithHeader] leave the
    caller's reports as they were, whatever they return or throw: the store
    after the call is the store before it followed by objects the call has
    created, so the updates of [indent] and [descr] went to copies, and
    both arguments stringify to the text they had. *)
Theorem reports_untouched (R baseline : FlowResult nat) (h : list FlowMessage) :
  untouched h (difference R baseline h).2 /\
  untouched h (prettyPrint R h).2 /\
  untouched h (prettyPrintWithHeader R h).2.
Proof.
  split; [|split]; apply frame_untouched; intros n.
  - apply frame_difference.
  - apply frame_prettyPrint.
  - apply frame_prettyPrintWithHeader.
Qed.

(** * The merge pass *)

(** C2: the merge is one left-to-right fold of [mergeComment] from an empty
    output, and on a unit [m] with properties [u] it does this.  If [u] has
    a location, or the output [acc] is empty, or [u] is a Blame, [m] is
    appended and no object changes.  Otherwise (a Comment without location,
    after a last output unit [prev]): when the text of [u] is not "Error:"
    the output stays and the text of [prev] becomes [descr u] if it was
    empty and "<prev>. <text>" if not; when it is "Error:" nothing
    changes. *)
Theorem merge_pass (messages acc : list nat) (m : nat) (u : FlowMessage)
    (h : list FlowMessage) (Hu : h !! m = Some u) :
  reduceJS mergeComment (messages ++ [m]) [] h =
    match reduceJS mergeComment messages [] h with
    | (Ret out, h1) => mergeComment out m h1
    | (Throw e, h1) => (Throw e, h1)
    end
  /\ (loc u <> None \/ acc = [] \/ type u = Blame ->
      mergeComment acc m h = (Ret (acc ++ [m]), h))
  /\ (forall out prev p,
        loc u = None -> type u = Comment ->
        acc = out ++ [prev] -> h !! prev = Some p ->
        (descr u <> "Error:" ->
         mergeComment acc m h =
           (Ret acc,
            <[prev := set_descr (if bool_decide (descr p = "")
                                 then descr u
                                 else descr p +:+ ". " +:+ descr u) p]> h))
        /\ (descr u = "Error:" -> mergeComment acc m h = (Ret acc, h))).
Proof.
  split; [apply reduceJS_snoc|]. split.
  - intros H. unfold mergeComment. rewrite (bind_Ret _ _ _ _ _ (load_Some _ _ _ Hu)).
    destruct H as [H|[H|H]].
    + rewrite (bool_decide_eq_true_2 _ H). reflexivity.
    + subst acc. simpl. rewrite orb_true_r. reflexivity.
    + rewrite (bool_decide_eq_true_2 (type u = Blame) H), orb_true_r. reflexivity.
  - intros out prev p Hloc Hty -> Hp.
    unfold mergeComment. rewrite (bind_Ret _ _ _ _ _ (load_Some _ _ _ Hu)).
    rewrite bool_decide_eq_false_2 by (rewrite Hloc; intros H; now apply H).
    rewrite bool_decide_eq_false_2 by (rewrite length_app; simpl; lia).
    rewrite bool_decide_eq_false_2 by (rewrite Hty; discriminate).
    simpl. split; intros Hd.
    + rewrite (bool_decide_eq_true_2 _ Hd), last_snoc.
      unfold bind, store. rewrite Hp. reflexivity.
    + rewrite bool_decide_eq_false_2 by (intros H; now apply H). reflexivity.
Qed.

Lemma merge_pass_witness :
  mergeComment [0%nat] 1
    [mkMessage "a.js:3" Comment None None None;
     mkMessage "See the docs" Comment None None None]
  = (Ret [0%nat],
     [mkMessage "a.js:3. See the docs" Comment None None None;
      mkMessage "See the docs" Comment None None None]).
Proof.
  refine (proj1 (proj2 (proj2
    (merge_pass [] [0%nat] 1 (mkMessage "See the docs" Comment None None None)
       [mkMessage "a.js:3" Comment None None None;
        mkMessage "See the docs" Comment None None None] eq_refl))
    [] 0%nat (mkMessage "a.js:3" Comment None None None)
    eq_refl eq_refl eq_refl eq_refl) _).
  vm_compute. discriminate.
Defined.

(** * The trace *)

(** C3, as the code has it: for a non-empty trace [getTraceReasons] makes
    one new unit with text "Trace:", of type Blame and without location,
    and returns it followed by the trace as it is; for an empty or absent
    trace it returns nothing and makes nothing. *)
Theorem trace_reasons (t : nat) (ts : list nat) (h : list FlowMessage) :
  getTraceReasons (Some (t :: ts)) h =
    (Ret (length h :: t :: ts), h ++ [mkMessage "Trace:" Blame None None None])
  /\ getTraceReasons (Some []) h = (Ret [], h)
  /\ getTraceReasons None h = (Ret [], h).
Proof. repeat split. Qed.

(** C3 as stated fails: the unit before the trace is not a Comment. *)
Lemma trace_unit_not_comment :
  ~ exists a h',
      getTraceReasons (Some [0%nat]) [mkMessage "t" Blame None None None]
        = (Ret [a; 0%nat], h')
      /\ h' !! a = Some (mkMessage "Trace:" Comment None None None).
Proof.
  intros (a & h' & E & Ha).
  cbn in E. injection E as <- <-. discriminate Ha.
Qed.

(** * The header of a report *)

(** C7: on a report that passed, [prettyPrintWithHeader] returns
    "No errors"; on one that did not, with [N] errors, it returns the count
    line, a newline and what [prettyPrint] returns for the report (and
    throws what [prettyPrint] throws). *)
Theorem with_header (errors : list (FlowError nat)) (version : string)
    (h : list FlowMessage) :
  prettyPrintWithHeader (mkResult true errors version) h = (Ret "No errors", h)
  /\ prettyPrintWithHeader (mkResult false errors version) h =
       match prettyPrint (mkResult false errors version) h with
       | (Ret body, h') => (Ret (count_line (length errors) +:+ nl +:+ body), h')
       | (Throw e, h') => (Throw e, h')
       end.
Proof.
  split; [reflexivity|].
  unfold prettyPrintWithHeader, bind, count_line; simpl.
  destruct (prettyPrint _ h) as [[body|e] h']; [|reflexivity].
  unfold ret. do 2 f_equal.
  destruct (bool_decide (length errors = 1%nat)); simpl.
  - now rewrite !append_assoc.
  - now rewrite !append_assoc.
Qed.

(** * Rendering one unit *)

Lemma Array_join_Ret n sep :
  array_length n -> Array_join n sep = Ret (string_repeat sep (Z.to_nat (n - 1))).
Proof.
  intros [H0 H1]. unfold Array_join.
  rewrite (proj2 (Z.ltb_ge n 0)) by exact H0.
  rewrite (proj2 (Z.ltb_ge (2 ^ 32 - 1) n)) by exact H1.
  reflexivity.
Qed.

Lemma Array_join_inv n sep s :
  Array_join n sep = Ret s -> s = string_repeat sep (Z.to_nat (n - 1)).
Proof.
  unfold Array_join. destruct (_ || _); [discriminate|]. now intros [= <-].
Qed.

Lemma all_blank_append s1 s2 :
  all_blank (s1 +:+ s2) = all_blank s1 && all_blank s2.
Proof.
  induction s1 as [|c s1 IH]; [reflexivity|].
  rewrite append_cons. cbn [all_blank]. rewrite IH. now rewrite andb_assoc.
Qed.

Lemma all_blank_spaces n : all_blank (string_repeat " " n) = true.
Proof.
  induction n as [|n IH]; [reflexivity|].
  cbn [string_repeat]. rewrite all_blank_append, IH. reflexivity.
Qed.

Lemma blank_out_blank c :
  (Ascii.eqb (blank_out c) "009" || Ascii.eqb (blank_out c) " ") = true.
Proof.
  unfold blank_out.
  destruct (Ascii.eqb c "009" || Ascii.eqb c " ") eqn:E; [exact E | reflexivity].
Qed.

Lemma all_blank_replace s : all_blank (replace_non_blank s) = true.
Proof.
  induction s as [|c s IH]; [reflexivity|].
  cbn [replace_non_blank string_map all_blank].
  rewrite blank_out_blank. exact IH.
Qed.

Lemma all_blank_padding l c : all_blank (underline_padding l c) = true.
Proof.
  unfold underline_padding. rewrite all_blank_append, all_blank_spaces.
  destruct (_ <? _); [apply all_blank_replace | reflexivity].
Qed.

(** What [prettyPrintMessage] returns for a unit with a location and a
    context line, when it returns. *)
Lemma prettyPrintMessage_context mainFile m l c s :
  loc m = Some l -> context m = Some c ->
  prettyPrintMessage mainFile m = Ret s ->
  let indentation := string_repeat " " (Z.to_nat (default 0 (indent m))) in
  s = indentation +:+ line_label (line (start l)) +:+ c +:+ nl +:+
      indentation +:+ underline_padding l c +:+
      string_repeat "^" (Z.to_nat (underline_length l)) +:+ " " +:+
      descr m +:+ see_another_file mainFile l.
Proof.
  intros Hl Hc. unfold prettyPrintMessage. rewrite Hl, Hc.
  destruct (Array_join (default 0 (indent m) + 1) " ") as [ind|e] eqn:Ei;
    [|discriminate].
  apply Array_join_inv in Ei. cbn [obind].
  fold (line_label (line (start l))).
  destruct (Array_join (js_length (line_label (line (start l))) + 1) " ")
    as [pad|e] eqn:Ep; [|discriminate].
  apply Array_join_inv in Ep. cbn [obind].
  fold (underline_length l).
  destruct (Array_join (underline_length l + 1) "^") as [ul|e] eqn:Eu; [|discriminate].
  apply Array_join_inv in Eu. cbn [obind].
  intros [= <-]. subst ind pad ul.
  replace (default 0 (indent m) + 1 - 1) with (default 0 (indent m)) by lia.
  replace (underline_length l + 1 - 1) with (underline_length l) by lia.
  replace (Z.to_nat (js_length (line_label (line (start l))) + 1 - 1))
    with (String.length (line_label (line (start l))))
    by (unfold js_length; lia).
  unfold underline_padding, see_another_file.
  destruct (column (start l) - 1 <? js_length c); rewrite ?append_assoc; reflexivity.
Qed.

(** ** When rendering returns *)

Lemma length_pretty_N_go (k : nat) : forall (x : N) (s : string),
  (x < 10 ^ N.of_nat k)%N ->
  (String.length (pretty_N_go x s) <= k + String.length s)%nat.
Proof.
  induction k as [|k IH]; intros x s Hx.
  - assert (x = 0%N) as -> by (simpl in Hx; lia).
    rewrite pretty_N_go_0. lia.
  - destruct (decide (x = 0%N)) as [->|Hne].
    + rewrite pretty_N_go_0. lia.
    + rewrite pretty_N_go_step by lia.
      etransitivity; [apply IH|cbn [String.length]; lia].
      rewrite Nat2N.inj_succ, N.pow_succ_r' in Hx.
      apply N.Div0.div_lt_upper_bound. lia.
Qed.

(** A safe integer prints in at most 17 characters. *)
Lemma length_js_String (z : Z) :
  Z.abs z < 2 ^ 53 -> (String.length (js_String z) <= 17)%nat.
Proof.
  intros Hz. unfold js_String, pretty, pretty_Z.
  assert (forall p : positive, Z.pos p < 2 ^ 53 ->
            (String.length (pretty p) <= 16)%nat) as Hp.
  { intros p Hp. unfold pretty, pretty_positive, pretty, pretty_N.
    destruct (decide (N.pos p = 0%N)); [discriminate|].
    pose proof (length_pretty_N_go 16 (N.pos p) "") as H.
    cbn [String.length] in H. rewrite Nat.add_0_r in H. apply H.
    change (10 ^ N.of_nat 16)%N with 10000000000000000%N. lia. }
  destruct z as [|p|p].
  - cbn. lia.
  - specialize (Hp p Hz). lia.
  - rewrite append_cons. cbn [String.length]. 
    change ("" +:+ pretty p) with (pretty p).
    specialize (Hp p). rewrite <- Pos2Z.opp_pos, Z.abs_opp in Hz.
    specialize (Hp Hz). lia.
Qed.

Lemma length_string_drop n s :
  String.length (string_drop n s) = (String.length s - n)%nat.
Proof.
  revert s. induction n as [|n IH]; intros [|c s]; cbn; auto.
Qed.

Lemma length_line_label (z : Z) :
  Z.abs z < 2 ^ 53 -> (String.length (line_label z) <= 19)%nat.
Proof.
  intros Hz. pose proof (length_js_String z Hz) as H.
  unfold line_label. rewrite length_append. cbn [String.length].
  destruct (_ <? 3).
  - unfold slice_last. rewrite length_string_drop, length_append. cbn [String.length]. lia.
  - lia.
Qed.

(** [prettyPrintMessage] returns when the indentation and the underline
    are array lengths and the line is a safe integer. *)
Lemma prettyPrintMessage_returns mainFile m l c :
  loc m = Some l -> context m = Some c ->
  0 <= default 0 (indent m) < 2 ^ 32 - 1 ->
  Z.abs (line (start l)) < 2 ^ 53 ->
  underline_length l < 2 ^ 32 - 1 ->
  exists s, prettyPrintMessage mainFile m = Ret s.
Proof.
  intros Hl Hc Hi Hline Hu. unfold prettyPrintMessage. rewrite Hl, Hc.
  rewrite Array_join_Ret by (unfold array_length; lia). cbn [obind].
  fold (line_label (line (start l))).
  pose proof (length_line_label _ Hline) as Hlab.
  rewrite Array_join_Ret by (unfold array_length, js_length; lia). cbn [obind].
  fold (underline_length l).
  assert (1 <= underline_length l) as H1.
  { unfold underline_length. destruct (_ =? _); lia. }
  rewrite Array_join_Ret by (unfold array_length; lia). cbn [obind].
  eauto.
Qed.

(** C4: for a unit with a location and a context line, whatever
    [prettyPrintMessage] returns has, on its second line, blank padding
    followed by exactly [N] carets, where [N] is
    [max(1, end.column - (start.column - 1))] when the location starts and
    ends on one line and 1 otherwise.  It does return when the indentation
    and [N] are array lengths; a location whose end is before its start has
    [N = 1] and is rendered like any other. *)
Theorem underline_carets (mainFile : string) (m : FlowMessage) (l : FlowLoc)
    (c : string) (Hl : loc m = Some l) (Hc : context m = Some c) :
  let N := if line (start l) =? line (end_ l)
           then Z.max 1 (column (end_ l) - (column (start l) - 1))
           else 1 in
  let returns := exists s, prettyPrintMessage mainFile m = Ret s in
  let bounded := 0 <= default 0 (indent m) < 2 ^ 32 - 1
                 /\ Z.abs (line (start l)) < 2 ^ 53 in
  (forall s, prettyPrintMessage mainFile m = Ret s ->
     exists indentation padding,
       all_blank indentation = true /\ all_blank padding = true /\
       s = indentation +:+ line_label (line (start l)) +:+ c +:+ nl +:+
           indentation +:+ padding +:+ string_repeat "^" (Z.to_nat N) +:+ " " +:+
           descr m +:+ see_another_file mainFile l)
  /\ (bounded -> N < 2 ^ 32 - 1 -> returns)
  /\ (line (end_ l) < line (start l)
      \/ (line (end_ l) = line (start l) /\ column (end_ l) < column (start l)) ->
      N = 1 /\ (bounded -> returns)).
Proof.
  intros N returns bounded. change N with (underline_length l).
  split; [|split].
  - intros s Hs.
    exists (string_repeat " " (Z.to_nat (default 0 (indent m)))), (underline_padding l c).
    split; [apply all_blank_spaces|]. split; [apply all_blank_padding|].
    exact (prettyPrintMessage_context mainFile m l c s Hl Hc Hs).
  - intros [Hi Hline] HN. eapply prettyPrintMessage_returns; eauto.
  - intros Hbad.
    assert (underline_length l = 1) as H1.
    { unfold underline_length. destruct (Z.eqb_spec (line (start l)) (line (end_ l))); lia. }
    split; [exact H1|].
    intros [Hi Hline]. eapply prettyPrintMessage_returns; eauto. lia.
Qed.

Lemma underline_carets_witness :
  exists s, prettyPrintMessage "a.js" backwards_message = Ret s.
Proof.
  refine (proj2 (proj2 (proj2
    (underline_carets "a.js" backwards_message
       (mkLoc (Some "a.js") (Some SourceFile) (mkPos 7 9 0) (mkPos 7 4 0))
       "var x = ;" eq_refl eq_refl)) _) _).
  - right. cbn. lia.
  - cbn. lia.
Defined.

(** C8 as stated fails there: the code emits the five spaces of the label
    only, the claim two more. *)
Lemma padding_at_end_of_context :
  prettyPrintMessage "a.js" end_of_line_message
    = Ret ("  1: ab" +:+ nl +:+ "     " +:+ "^" +:+ " x")
  /\ padding_claimed end_of_line_loc "ab" = "       "
  /\ prettyPrintMessage "a.js" end_of_line_message
     <> Ret ("  1: ab" +:+ nl +:+ padding_claimed end_of_line_loc "ab" +:+ "^" +:+ " x").
Proof. repeat split. vm_compute. discriminate. Qed.

(** C8, as the code has it: for a unit with a location and a context line
    [c], the padding before the underline is as many spaces as the label
    has characters, followed, when [c] is longer than [startCol]
    (= start.column - 1) characters, by the first [startCol] characters
    [pre] of [c] with every character other than tab and space replaced by
    a space; when [c] has [startCol] characters or fewer, the spaces of the
    label are all.  Rendering returns within the bounds of array
    lengths. *)
Theorem padding_before_underline (mainFile : string) (m : FlowMessage)
    (l : FlowLoc) (c : string) (Hl : loc m = Some l) (Hc : context m = Some c) :
  let startCol := column (start l) - 1 in
  let label := line_label (line (start l)) in
  (forall s, prettyPrintMessage mainFile m = Ret s ->
     exists indentation padding,
       all_blank indentation = true
       /\ s = indentation +:+ label +:+ c +:+ nl +:+
              indentation +:+ padding +:+
              string_repeat "^" (Z.to_nat (underline_length l)) +:+ " " +:+
              descr m +:+ see_another_file mainFile l
       /\ (startCol < js_length c ->
            exists pre rest,
              c = pre +:+ rest
              /\ String.length pre = Z.to_nat startCol
              /\ padding = string_repeat " " (String.length label)
                           +:+ string_map keep_tab pre)
       /\ (js_length c <= startCol ->
            padding = string_repeat " " (String.length label)))
  /\ (0 <= default 0 (indent m) < 2 ^ 32 - 1 ->
      Z.abs (line (start l)) < 2 ^ 53 ->
      underline_length l < 2 ^ 32 - 1 ->
      exists s, prettyPrintMessage mainFile m = Ret s).
Proof.
  intros startCol label. split.
  - intros s Hs.
    exists (string_repeat " " (Z.to_nat (default 0 (indent m)))), (underline_padding l c).
    split; [apply all_blank_spaces|].
    split; [exact (prettyPrintMessage_context mainFile m l c s Hl Hc Hs)|].
    unfold underline_padding. fold startCol label. split.
    + intros Hlt. rewrite (proj2 (Z.ltb_lt _ _) Hlt).
      exists (string_take (Z.to_nat startCol) c), (string_drop (Z.to_nat startCol) c).
      split; [now rewrite append_take_drop|]. split.
      * apply length_string_take. unfold js_length in Hlt. lia.
      * now rewrite replace_non_blank_keep_tab.
    + intros Hle. rewrite (proj2 (Z.ltb_ge _ _) Hle). apply append_nil_r.
  - intros Hi Hline Hu. eapply prettyPrintMessage_returns; eauto.
Qed.

(** A unit that points behind a tab: the tab is kept in the padding. *)
Lemma padding_before_underline_witness :
  exists s indentation padding pre rest,
    prettyPrintMessage "a.js"
      (mkMessage "x" Blame (Some (String "009" "if (a) b;"))
         (Some (mkLoc (Some "a.js") (Some SourceFile) (mkPos 2 6 0) (mkPos 2 6 0))) None)
    = Ret s
    /\ s = indentation +:+ line_label 2 +:+ String "009" "if (a) b;" +:+ nl +:+
           indentation +:+ padding +:+ string_repeat "^" 1 +:+ " " +:+ "x" +:+ ""
    /\ String "009" "if (a) b;" = pre +:+ rest
    /\ String.length pre = 5%nat
    /\ padding = string_repeat " " 5 +:+ string_map keep_tab pre.
Proof.
  eexists.
  destruct (proj1 (padding_before_underline "a.js"
              (mkMessage "x" Blame (Some (String "009" "if (a) b;"))
                 (Some (mkLoc (Some "a.js") (Some SourceFile) (mkPos 2 6 0) (mkPos 2 6 0)))
                 None)
              (mkLoc (Some "a.js") (Some SourceFile) (mkPos 2 6 0) (mkPos 2 6 0))
              (String "009" "if (a) b;") eq_refl eq_refl) _ eq_refl)
    as (indentation & padding & _ & Hs & Hpre & _).
  destruct Hpre as (pre & rest & Hc & Hn & Hp); [vm_compute; reflexivity|].
  exists indentation, padding, pre, rest.
  split; [reflexivity|]. split; [exact Hs|]. split; [exact Hc|]. split; [exact Hn|exact Hp].
Defined.

(** * The example of the specification *)

(** C5 as stated fails: the underline of the example has four carets, under
    "foo(", since [end.column - (start.column - 1)] is 4. *)
Lemma example_has_four_carets :
  exists block,
    (prettyPrintError example_error [example_message]).1 = Ret block
    /\ lines_of "" block !! 2%nat = Some "     ^^^^ Cannot call function"
    /\ count_carets block = 4%nat
    /\ block <> "a.js:3" +:+ nl +:+ "  3: foo();" +:+ nl +:+
                "     ^^^ Cannot call function".
Proof.
  eexists. split; [vm_compute; reflexivity|].
  repeat split. vm_compute. discriminate.
Qed.

(** C5, as the code has it: the block of the example is the header line
    "a.js:3", the context line "  3: foo();", and a line with five spaces,
    four carets, a space and "Cannot call function".  [prettyPrint] returns
    that block for the report with this one error. *)
Theorem example_block :
  let block := "a.js:3" +:+ nl +:+ "  3: foo();" +:+ nl +:+
               "     ^^^^ Cannot call function" in
  (prettyPrintError example_error [example_message]).1 = Ret block
  /\ (prettyPrint (mkResult false [example_error] "0.30.0") [example_message]).1
     = Ret block
  /\ prettyPrintMessage "a.js" example_message
     = Ret ("  3: foo();" +:+ nl +:+ "     ^^^^ Cannot call function").
Proof. repeat split. Qed.

(** * The units after the merge *)

Lemma kept_apart_set_descr h prev p d b :
  h !! prev = Some p -> kept_apart h b ->
  kept_apart (<[prev := set_descr d p]> h) b.
Proof.
  intros Hp (v & Hv & Hk).
  destruct (decide (b = prev)) as [->|Hne].
  - exists (set_descr d p). split.
    + apply list_lookup_insert_eq. now apply lookup_lt_Some in Hp.
    + rewrite Hp in Hv. injection Hv as <-. exact Hk.
  - exists v. split; [|exact Hk]. rewrite list_lookup_insert_ne; auto.
Qed.

Lemma mergeComment_ok acc m h acc' h' :
  merged_ok h acc -> mergeComment acc m h = (Ret acc', h') -> merged_ok h' acc'.
Proof.
  intros Hok E. apply bind_inv in E as (u & h1 & Eu & E).
  apply load_inv in Eu as [Hu ->].
  destruct (bool_decide (loc u <> None) || bool_decide (length acc = 0%nat)
            || bool_decide (type u = Blame)) eqn:Epush.
  - injection E as <- <-. intros i b Hi Hb.
    apply lookup_app_Some in Hb as [Hb|[Hlen Hb]]; [now apply (Hok i)|].
    apply list_lookup_singleton_Some in Hb as [Hi0 <-].
    exists u. split; [exact Hu|].
    apply orb_prop in Epush as [Epush|Epush];
      [apply orb_prop in Epush as [Epush|Epush]|].
    + left. now apply bool_decide_eq_true in Epush.
    + apply bool_decide_eq_true in Epush. lia.
    + right. now apply bool_decide_eq_true in Epush.
  - destruct (bool_decide (descr u <> "Error:")); [|now injection E as <- <-].
    destruct (last acc) as [prev|]; [|discriminate].
    apply bind_inv in E as ([] & h2 & Est & E). injection E as <- <-.
    unfold store in Est. destruct (h !! prev) as [p|] eqn:Hp; [|discriminate].
    injection Est as <-. intros i b Hi Hb.
    apply kept_apart_set_descr; [exact Hp | now apply (Hok i)].
Qed.

Lemma merge_ok l : forall acc h acc' h',
  merged_ok h acc -> reduceJS mergeComment l acc h = (Ret acc', h') -> merged_ok h' acc'.
Proof.
  induction l as [|m l IH]; intros acc h acc' h' Hok E.
  - injection E as <- <-. exact Hok.
  - apply bind_inv in E as (acc1 & h1 & E1 & E). cbn beta in E.
    eapply IH; [|exact E]. eapply mergeComment_ok; eauto.
Qed.

Lemma mergedMessages_inv error h mainFile messages h' :
  mergedMessages error h = (Ret (mainFile, messages), h') ->
  exists units h0, reduceJS mergeComment units [] h0 = (Ret messages, h').
Proof.
  intros E. unfold mergedMessages in E.
  do 6 (apply bind_inv in E as (? & ? & _ & E); cbn beta in E).
  apply bind_inv in E as (msgs & h0 & E0 & E). injection E as _ <- <-.
  eauto.
Qed.

(** C6 as stated fails: the second and the third unit of this error both
    lack a location (the kind unit, which has the location of [message[0]],
    and the unit "Trace:"). *)
Lemma two_units_without_location :
  exists mainFile a b u v h',
    mergedMessages internal_error internal_store = (Ret (mainFile, [2; a; b]%nat), h')
    /\ h' !! a = Some u /\ h' !! b = Some v /\ loc u = None /\ loc v = None.
Proof. do 6 eexists. split; [vm_compute; reflexivity|]. repeat split. Qed.

(** C6, as the code has it: the planner and the merge return a unit
    sequence for every error that has a message and whose messages are in
    the store; and in the units they return for an error, every unit but
    the first has a location or is a Blame, so when two consecutive units
    both lack a location, the second of them is a Blame (a comment without
    location never stands behind another unit). *)
Theorem merged_units_kept_apart (error : FlowError nat) (h : list FlowMessage) :
  (message error <> [] -> below (length h) (error_elems error) ->
   exists mainFile messages h',
     mergedMessages error h = (Ret (mainFile, messages), h'))
  /\ forall mainFile messages h',
       mergedMessages error h = (Ret (mainFile, messages), h') ->
       (forall i b, (0 < i)%nat -> messages !! i = Some b ->
          exists v, h' !! b = Some v /\ (loc v <> None \/ type v = Blame))
       /\ (forall i a b u v,
             messages !! i = Some a -> messages !! S i = Some b ->
             h' !! a = Some u -> h' !! b = Some v ->
             loc u = None -> loc v = None -> type v = Blame).
Proof.
  split; [apply mergedMessages_returns|].
  intros mainFile messages h' H.
  apply mergedMessages_inv in H as (units & h0 & H).
  assert (merged_ok h' messages) as Hok.
  { eapply merge_ok; [|exact H]. intros i b _ Hb. discriminate. }
  split; [exact Hok|].
  intros i a b u v _ Hb _ Hv _ Hlv.
  destruct (Hok (S i) b (Nat.lt_0_succ i) Hb) as (v' & Hv' & [Hk|Hk]).
  - rewrite Hv in Hv'. injection Hv' as <-. contradiction.
  - rewrite Hv in Hv'. now injection Hv' as <-.
Qed.

Lemma merged_units_kept_apart_witness :
  exists v, (mergedMessages internal_error internal_store).2 !! 4%nat = Some v
            /\ (loc v <> None \/ type v = Blame).
Proof.
  refine (proj1 (proj2 (merged_units_kept_apart internal_error internal_store)
                   "[No file]" [2; 3; 4]%nat
                   (mergedMessages internal_error internal_store).2 _)
            2%nat 4%nat _ _).
  - vm_compute. reflexivity.
  - lia.
  - reflexivity.
Defined.

(** * The main location *)

Lemma getHeader_spec mainLoc h :
  getHeader mainLoc h =
    (Ret [length h], h ++ [mkMessage (header_text mainLoc) Comment None None None]).
Proof. destruct mainLoc as [l|]; reflexivity. Qed.

Lemma keeps_ret {A} (I : list FlowMessage -> Prop) (a : A) : keeps I (ret a).
Proof. intros h Hh. exact Hh. Qed.

Lemma keeps_throw {A} (I : list FlowMessage -> Prop) e : keeps I (@throw A e).
Proof. intros h Hh. exact Hh. Qed.

Lemma keeps_load (I : list FlowMessage -> Prop) a : keeps I (load a).
Proof. intros h Hh. unfold load. now destruct (h !! a). Qed.

Lemma keeps_bind {A B} (I : list FlowMessage -> Prop) (c : JS A) (k : A -> JS B) :
  keeps I c -> (forall a, keeps I (k a)) -> keeps I (bind c k).
Proof.
  intros Hc Hk h Hh. specialize (Hc h Hh). unfold bind.
  destruct (c h) as [[a|e] h1]; simpl in *; [now apply Hk | exact Hc].
Qed.

Lemma keeps_reduceJS {A B} (I : list FlowMessage -> Prop) (f : B -> A -> JS B) l :
  Forall (fun x => forall acc, keeps I (f acc x)) l ->
  forall acc, keeps I (reduceJS f l acc).
Proof.
  induction 1 as [|x l Hx Hl IH]; intros acc; simpl; [apply keeps_ret|].
  apply keeps_bind; [apply Hx | exact IH].
Qed.

Lemma keeps_forEachJS {A} (I : list FlowMessage -> Prop) (f : A -> JS unit) l :
  (forall x, keeps I (f x)) -> keeps I (forEachJS f l).
Proof.
  intros Hf. induction l as [|x l IH]; simpl; [apply keeps_ret|].
  apply keeps_bind; [apply Hf | intros _; exact IH].
Qed.

Section header_kept.
Context (n0 : nat) (P : string).
Let I := begins_with n0 P.

Lemma keeps_alloc m : keeps I (alloc m).
Proof.
  intros h (v & more & Hv & Hd). exists v, more. split; [|exact Hd].
  simpl. now apply lookup_app_l_Some.
Qed.

Lemma keeps_store a (f : FlowMessage -> FlowMessage) :
  (forall p more, descr p = P +:+ more -> exists more', descr (f p) = P +:+ more') ->
  keeps I (store a f).
Proof.
  intros Hf h (v & more & Hv & Hd). unfold store.
  destruct (h !! a) as [p|] eqn:Hp; simpl; [|now exists v, more].
  destruct (decide (n0 = a)) as [->|Hne].
  - rewrite Hp in Hv. injection Hv as <-.
    destruct (Hf p more Hd) as [more' Hd'].
    exists (f p), more'. split; [|exact Hd'].
    apply list_lookup_insert_eq. now apply lookup_lt_Some in Hp.
  - exists v, more. split; [|exact Hd]. rewrite list_lookup_insert_ne; auto.
Qed.

Lemma keeps_bump_indent a : keeps I (store a bump_indent).
Proof. apply keeps_store. intros p more Hd. now exists more. Qed.

Lemma keeps_join a d :
  keeps I (store a (fun p => set_descr (joinDescr (descr p) d) p)).
Proof.
  apply keeps_store. intros p more Hd. cbn. unfold joinDescr.
  case_bool_decide as Hp.
  - rewrite Hp in Hd. destruct P; [|discriminate]. now exists d.
  - rewrite Hd. exists (more +:+ ". " +:+ d). now rewrite append_assoc.
Qed.

Lemma keeps_mkComment d : keeps I (mkComment d).
Proof. apply keeps_alloc. Qed.

Lemma keeps_getKindMessage kind level message :
  keeps I (getKindMessage kind level message).
Proof.
  unfold getKindMessage. destruct message; [apply keeps_ret|].
  apply keeps_bind; [apply keeps_load|]. intros m.
  destruct (kindDescr _ _ _); [|apply keeps_ret].
  apply keeps_bind; [apply keeps_alloc | intros; apply keeps_ret].
Qed.

Lemma keeps_getOpReason op : keeps I (getOpReason op).
Proof.
  destruct op; simpl; [|apply keeps_ret].
  apply keeps_bind; [apply keeps_mkComment | intros; apply keeps_ret].
Qed.

Lemma keeps_getTraceReasons trace : keeps I (getTraceReasons trace).
Proof.
  destruct trace as [[|t ts]|]; simpl; try apply keeps_ret.
  apply keeps_bind; [apply keeps_alloc | intros; apply keeps_ret].
Qed.

Lemma keeps_extraMessagesOf callback extra :
  Forall (fun c => forall acc, keeps I (callback acc c)) extra ->
  keeps I (extraMessagesOf callback extra).
Proof.
  intros Hcb. unfold extraMessagesOf.
  apply keeps_bind; [now apply keeps_reduceJS|]. intros messages.
  apply keeps_bind; [|intros; apply keeps_ret].
  apply keeps_forEachJS. intros a. apply keeps_bump_indent.
Qed.

Lemma keeps_extraCallback current : forall acc, keeps I (extraCallback acc current).
Proof.
  induction current as [ms|ms cs IH] using FlowExtraNode_tree_ind; intros acc; simpl.
  - apply keeps_bind; [apply keeps_ret | intros; apply keeps_ret].
  - apply keeps_bind; [|intros; apply keeps_ret].
    now apply keeps_extraMessagesOf.
Qed.

Lemma keeps_getExtraMessages extra : keeps I (getExtraMessages extra).
Proof.
  destruct extra as [l|]; simpl; [|apply keeps_ret].
  apply keeps_extraMessagesOf, Forall_forall. intros c _. apply keeps_extraCallback.
Qed.

Lemma keeps_mergeComment acc message : keeps I (mergeComment acc message).
Proof.
  unfold mergeComment. apply keeps_bind; [apply keeps_load|]. intros m.
  destruct (_ || _ || _); [apply keeps_ret|].
  destruct (bool_decide _); [|apply keeps_ret].
  destruct (last acc); [|apply keeps_throw].
  apply keeps_bind; [apply keeps_join | intros; apply keeps_ret].
Qed.

Lemma keeps_merge l acc : keeps I (reduceJS mergeComment l acc).
Proof.
  apply keeps_reduceJS, Forall_forall. intros m _ acc'. apply keeps_mergeComment.
Qed.
End header_kept.

(** The merge never changes the first unit of a non-empty output. *)
Lemma mergeComment_head acc m h acc' h' x :
  head acc = Some x -> mergeComment acc m h = (Ret acc', h') -> head acc' = Some x.
Proof.
  intros Hx E. apply bind_inv in E as (u & h1 & _ & E).
  destruct (_ || _ || _).
  - injection E as <- _. destruct acc; [discriminate | exact Hx].
  - destruct (bool_decide _); [|now injection E as <- _].
    destruct (last acc); [|discriminate].
    apply bind_inv in E as (? & ? & _ & E). now injection E as <- _.
Qed.

Lemma merge_head l : forall acc h acc' h' x,
  head acc = Some x -> reduceJS mergeComment l acc h = (Ret acc', h') ->
  head acc' = Some x.
Proof.
  induction l as [|m l IH]; intros acc h acc' h' x Hx E.
  - now injection E as <- _.
  - apply bind_inv in E as (acc1 & h1 & E1 & E). cbn beta in E.
    eapply IH; [|exact E]. eapply mergeComment_head; eauto.
Qed.

Lemma merge_first m l h acc' h' :
  reduceJS mergeComment (m :: l) [] h = (Ret acc', h') -> head acc' = Some m.
Proof.
  intros E. apply bind_inv in E as (acc1 & h1 & E1 & E). cbn beta in E.
  apply bind_inv in E1 as (u & h2 & _ & E1).
  rewrite orb_true_r in E1. cbn in E1. injection E1 as <- _.
  eapply merge_head; [|exact E]. reflexivity.
Qed.

Lemma keeps_run {A} (I : list FlowMessage -> Prop) (c : JS A) h a h' :
  keeps I c -> I h -> c h = (Ret a, h') -> I h'.
Proof. intros Hc Hh E. specialize (Hc h Hh). now rewrite E in Hc. Qed.

(** The main file and the header unit of [prettyPrintError], from the main
    location. *)
Lemma mergedMessages_main error h mainLoc mainFile messages h' :
  mainLocOf (operation error) (message error) h = (Ret mainLoc, h) ->
  mergedMessages error h = (Ret (mainFile, messages), h') ->
  mainFile = mainFileOf mainLoc
  /\ exists tail header more,
       messages = length h :: tail
       /\ h' !! length h = Some header
       /\ descr header = header_text mainLoc +:+ more.
Proof.
  intros Hmain E. unfold mergedMessages in E.
  rewrite (bind_Ret _ _ _ _ _ Hmain) in E.
  apply bind_inv in E as (header & h2 & E2 & E). cbn beta in E.
  rewrite getHeader_spec in E2. injection E2 as <- <-.
  assert (begins_with (length h) (header_text mainLoc)
            (h ++ [mkMessage (header_text mainLoc) Comment None None None])) as HI.
  { eexists _, "". split; [apply list_lookup_middle; reflexivity|].
    cbn. now rewrite append_nil_r. }
  apply bind_inv in E as (kindMessage & h3 & E3 & E). cbn beta in E.
  apply (keeps_run _ _ _ _ _ (keeps_getKindMessage _ _ _ _ _) HI) in E3.
  apply bind_inv in E as (opReason & h4 & E4 & E). cbn beta in E.
  apply (keeps_run _ _ _ _ _ (keeps_getOpReason _ _ _) E3) in E4.
  apply bind_inv in E as (extraMessages & h5 & E5 & E). cbn beta in E.
  apply (keeps_run _ _ _ _ _ (keeps_getExtraMessages _ _ _) E4) in E5.
  apply bind_inv in E as (traceReasons & h6 & E6 & E). cbn beta in E.
  apply (keeps_run _ _ _ _ _ (keeps_getTraceReasons _ _ _) E5) in E6.
  apply bind_inv in E as (merged & h7 & E7 & E). cbn beta in E.
  injection E as <- <- <-. split; [reflexivity|].
  pose proof (merge_first _ _ _ _ _ E7) as Hhead.
  apply (keeps_run _ _ _ _ _ (keeps_merge _ _ _ _) E6) in E7.
  destruct E7 as (header & more & Hh & Hd).
  destruct merged as [|x tail]; [discriminate|]. injection Hhead as ->.
  exists tail, header, more. auto.
Qed.

(** C10: when the operation of an error has no location, the main location
    is [message[0]]'s, as it is without operation.  For [message[0]] with
    properties [u], whatever [prettyPrintError] plans for the error:
    - the main file is the source of [loc u] when that is a non-empty
      string, and "[No file]" when [u] has no location or the location has
      no source or an empty one;
    - the first unit is the header object, and its text begins with the
      header text of [loc u];
    - the same error without operation has the same main file and the same
      header text;
    - rendered with this main file, a unit located in the file of
      [message[0]] ends with its text, and a unit located in another file
      [f'] ends with ". See: f':line".
    The planner and the merge return when the error has a message and its
    messages are in the store. *)
Theorem main_location_fallback (error : FlowError nat) (op : nat) (o : FlowMessage)
    (h : list FlowMessage)
    (Hop : operation error = Some op) (Ho : h !! op = Some o) (Hloc : loc o = None) :
  let plain :=
    mkError (kind error) (level error) (message error) (trace error) None (extra error) in
  mainLocOf (operation error) (message error) h = mainLocOf None (message error) h
  /\ (forall m0 rest u,
        message error = m0 :: rest -> h !! m0 = Some u ->
        mainLocOf (operation error) (message error) h = (Ret (loc u), h))
  /\ (forall mainFile messages h',
        mergedMessages error h = (Ret (mainFile, messages), h') ->
        exists m0 rest u,
          message error = m0 :: rest /\ h !! m0 = Some u
          /\ (forall f, loc u ≫= source = Some f -> f <> "" -> mainFile = f)
          /\ (loc u ≫= source = None \/ loc u ≫= source = Some "" ->
              mainFile = "[No file]")
          /\ (exists tail header more,
                messages = length h :: tail
                /\ h' !! length h = Some header
                /\ descr header = header_text (loc u) +:+ more)
          /\ (forall mainFile0 messages0 h0,
                mergedMessages plain h = (Ret (mainFile0, messages0), h0) ->
                mainFile0 = mainFile
                /\ exists tail0 header0 more0,
                     messages0 = length h :: tail0
                     /\ h0 !! length h = Some header0
                     /\ descr header0 = header_text (loc u) +:+ more0)
          /\ (forall f m l s,
                loc u ≫= source = Some f -> f <> "" ->
                loc m = Some l -> prettyPrintMessage mainFile m = Ret s ->
                (source l = Some f -> exists before, s = before +:+ descr m)
                /\ (forall f', source l = Some f' -> f' <> f ->
                      exists before,
                        s = before +:+ descr m +:+ ". See: " +:+ f' +:+ ":"
                            +:+ js_String (line (start l)))))
  /\ (message error <> [] -> below (length h) (error_elems error) ->
      exists mainFile messages h',
        mergedMessages error h = (Ret (mainFile, messages), h')).
Proof.
  intros plain.
  assert (mainLocOf (operation error) (message error) h
          = mainLocOf None (message error) h) as Hmain.
  { unfold mainLocOf. rewrite Hop.
    unfold bind at 1 2. unfold load at 1. rewrite Ho. unfold ret at 1.
    rewrite Hloc. reflexivity. }
  assert (forall m0 rest u,
            message error = m0 :: rest -> h !! m0 = Some u ->
            mainLocOf None (message error) h = (Ret (loc u), h)) as Hfirst.
  { intros m0 rest u Hm Hu. unfold mainLocOf. rewrite Hm.
    cbn. unfold bind, ret. cbn. unfold load. rewrite Hu. reflexivity. }
  split; [exact Hmain|]. split; [|split; [|apply mergedMessages_returns]].
  - intros m0 rest u Hm Hu. rewrite Hmain. now apply (Hfirst m0 rest).
  - intros mainFile messages h' E.
    assert (exists m0 rest u, message error = m0 :: rest /\ h !! m0 = Some u)
      as (m0 & rest & u & Hm & Hu).
    { unfold mergedMessages in E. apply bind_inv in E as (mainLoc & h1 & E1 & _).
      rewrite Hmain in E1. unfold mainLocOf in E1. cbn in E1.
      destruct (message error) as [|m0 rest]; [discriminate|].
      apply bind_inv in E1 as (u & h1' & Eu & _). apply load_inv in Eu as [Hu _].
      now exists m0, rest, u. }
    pose proof (Hfirst m0 rest u Hm Hu) as Hplain.
    destruct (mergedMessages_main error h (loc u) mainFile messages h') as [HF HH];
      [now rewrite Hmain | exact E |].
    exists m0, rest, u. split; [exact Hm|]. split; [exact Hu|].
    assert (forall f, loc u ≫= source = Some f -> f <> "" -> mainFile = f) as Hfile.
    { intros f Hf Hne. rewrite HF. unfold mainFileOf. rewrite Hf.
      now rewrite bool_decide_eq_false_2. }
    split; [exact Hfile|]. split; [|split; [exact HH|split]].
    + intros [Hn|He]; rewrite HF; unfold mainFileOf; [now rewrite Hn | now rewrite He].
    + intros mainFile0 messages0 h0 E0.
      destruct (mergedMessages_main plain h (loc u) mainFile0 messages0 h0) as [HF0 HH0];
        [exact Hplain | exact E0 |].
      split; [congruence | exact HH0].
    + intros f m l s Hf Hne Hl Hs. rewrite (Hfile f Hf Hne) in Hs.
      assert (exists before, s = before +:+ descr m +:+ see_another_file f l)
        as [before Hbefore].
      { destruct (context m) as [c|] eqn:Hc.
        - pose proof (prettyPrintMessage_context f m l c s Hl Hc Hs) as Es.
          cbv zeta in Es. rewrite Es. eexists. rewrite <- !append_assoc. reflexivity.
        - unfold prettyPrintMessage in Hs. rewrite Hl, Hc in Hs.
          destruct (Array_join _ " ") as [ind|]; [|discriminate].
          cbn [obind] in Hs. injection Hs as <-. now exists ind. }
      unfold see_another_file in Hbefore. split.
      * intros Hsame. rewrite bool_decide_eq_true_2 in Hbefore by exact Hsame.
        exists before. now rewrite append_nil_r in Hbefore.
      * intros f' Hf' Hdiff. rewrite bool_decide_eq_false_2 in Hbefore by congruence.
        rewrite Hf' in Hbefore. exists before. exact Hbefore.
Qed.

(** The error of the example with an operation that has no location: the
    main file is the file of its message. *)
Lemma main_location_fallback_witness :
  exists messages h',
    mergedMessages fallback_error fallback_store = (Ret ("a.js", messages), h').
Proof.
  destruct (main_location_fallback fallback_error 1%nat
              (mkMessage "call of foo" Blame None None None) fallback_store
              eq_refl eq_refl eq_refl) as (_ & _ & Hplan & Hret).
  destruct Hret as (mainFile & messages & h' & E).
  - discriminate.
  - repeat constructor.
  - destruct (Hplan mainFile messages h' E) as (m0 & rest & u & Hm & Hu & Hfile & _).
    injection Hm as <- <-. injection Hu as <-.
    rewrite (Hfile "a.js" eq_refl) in E by discriminate.
    now exists messages, h'.
Defined.

(** * Copies *)

Lemma mapJS_cons {A B} (f : A -> JS B) x l h :
  mapJS f (x :: l) h =
  match f x h with
  | (Ret y, h1) =>
      match mapJS f l h1 with
      | (Ret ys, h2) => (Ret (y :: ys), h2)
      | (Throw e, h2) => (Throw e, h2)
      end
  | (Throw e, h1) => (Throw e, h1)
  end.
Proof. reflexivity. Qed.

Lemma allocates_alloc m :
  allocates (fun m => [m]) (fun a => [a]) alloc load m.
Proof.
  intros h. exists (length h). repeat split.
  intros H [k ->]. apply load_Some.
  rewrite <- app_assoc. now apply list_lookup_middle.
Qed.

Lemma allocates_mapJS {T U} (eT : T -> list FlowMessage) (eU : U -> list nat)
    (al : T -> JS U) (ld : U -> JS T) (l : list T) :
  Forall (allocates eT eU al ld) l ->
  allocates (elems_list eT) (elems_list eU) (mapJS al) (mapJS ld) l.
Proof.
  unfold elems_list. induction 1 as [|x l Hx Hl IH]; intros h.
  - exists []. cbn. rewrite app_nil_r. repeat split.
  - destruct (Hx h) as (r & E & S & L).
    destruct (IH (h ++ eT x)) as (rs & E' & S' & L').
    exists (r :: rs). rewrite mapJS_cons, E, E'. cbn [map concat].
    rewrite <- app_assoc. split; [reflexivity|]. split.
    + rewrite S, S', !length_app, seq_app. reflexivity.
    + intros H HP. rewrite mapJS_cons.
      rewrite app_assoc in HP.
      rewrite (L H) by (eapply prefix_app_l; exact HP).
      rewrite (L' H) by exact HP. reflexivity.
Qed.

Lemma allocates_messages (ms : list FlowMessage) :
  allocates id id (mapJS alloc) (mapJS load) ms.
Proof.
  intros h.
  destruct (allocates_mapJS (fun m => [m]) (fun a => [a]) alloc load ms) with (h := h)
    as (r & E & S & L).
  { apply Forall_forall. intros m _. apply allocates_alloc. }
  assert (forall (A : Type) (l : list A), elems_list (fun x => [x]) l = l) as Hid.
  { intros A l. unfold elems_list. induction l as [|x l IH]; cbn; [|rewrite IH]; reflexivity. }
  rewrite !Hid in *. exists r. auto.
Qed.

Lemma allocates_option {T U} (eT : T -> list FlowMessage) (eU : U -> list nat)
    (al : T -> JS U) (ld : U -> JS T) (o : option T) :
  (forall x, o = Some x -> allocates eT eU al ld x) ->
  allocates (elems_option eT) (elems_option eU) (traverse_option al) (traverse_option ld) o.
Proof.
  intros Ho h. destruct o as [x|]; cbn.
  - destruct (Ho x eq_refl h) as (r & E & S & L).
    exists (Some r). rewrite (bind_Ret _ _ _ _ _ E). repeat split; [exact S|].
    intros H HP. cbn. now rewrite (bind_Ret _ _ _ _ _ (L H HP)).
  - exists None. rewrite app_nil_r. repeat split.
Qed.

Lemma traverse_extra_unfold {A B} (f : A -> JS B) ms ch h :
  traverse_extra f (mkExtra ms ch) h =
  bind (mapJS f ms) (fun msgs =>
    bind (traverse_option (mapJS (traverse_extra f)) ch) (fun ch' =>
      ret (mkExtra msgs ch'))) h.
Proof. reflexivity. Qed.

Lemma allocates_extra (node : FlowExtraNode FlowMessage) :
  allocates extra_elems extra_elems (traverse_extra alloc) (traverse_extra load) node.
Proof.
  assert (forall ms ch,
    allocates (elems_option (elems_list extra_elems)) (elems_option (elems_list extra_elems))
      (traverse_option (mapJS (traverse_extra alloc)))
      (traverse_option (mapJS (traverse_extra load))) ch ->
    allocates extra_elems extra_elems (traverse_extra alloc) (traverse_extra load)
      (mkExtra ms ch)) as Hnode.
  { intros ms ch Hch h.
    destruct (allocates_messages ms h) as (ms' & Em & Sm & Lm). unfold id in *.
    destruct (Hch (h ++ ms)) as (ch' & Ec & Sc & Lc).
    exists (mkExtra ms' ch'). rewrite traverse_extra_unfold.
    rewrite (bind_Ret _ _ _ _ _ Em), (bind_Ret _ _ _ _ _ Ec).
    cbn [extra_elems ex_message children]. rewrite <- app_assoc.
    split; [reflexivity|]. split.
    - rewrite Sm, Sc, !length_app, seq_app. reflexivity.
    - intros H HP. rewrite traverse_extra_unfold. rewrite app_assoc in HP.
      rewrite (bind_Ret _ _ _ _ _ (Lm H (prefix_app_l _ _ _ HP))).
      rewrite (bind_Ret _ _ _ _ _ (Lc H HP)). reflexivity. }
  induction node as [ms|ms cs IH] using FlowExtraNode_tree_ind; apply Hnode.
  - apply allocates_option. discriminate.
  - apply allocates_option. intros cs' [= <-]. now apply allocates_mapJS.
Qed.

Lemma allocates_error (t : FlowError FlowMessage) :
  allocates error_elems error_elems JSON_parse_error JSON_stringify_error t.
Proof.
  intros h. unfold JSON_parse_error, JSON_stringify_error, traverse_error, error_elems.
  destruct (allocates_messages (message t) h) as (m' & Em & Sm & Lm).
  change (id (message t)) with (message t) in *. change (id m') with m' in *.
  destruct (allocates_option id id (mapJS alloc) (mapJS load) (trace t)
              (fun x _ => allocates_messages x) (h ++ message t))
    as (t' & Et & St & Lt).
  destruct (allocates_option (fun m => [m]) (fun a => [a]) alloc load (operation t)
              (fun x _ => allocates_alloc x)
              ((h ++ message t) ++ elems_option id (trace t)))
    as (o' & Eo & So & Lo).
  destruct (allocates_option (elems_list extra_elems) (elems_list extra_elems)
              (mapJS (traverse_extra alloc)) (mapJS (traverse_extra load)) (extra t)
              (fun x _ => allocates_mapJS _ _ _ _ x
                            (proj2 (Forall_forall _ _) (fun c _ => allocates_extra c)))
              (((h ++ message t) ++ elems_option id (trace t))
                 ++ elems_option (fun m => [m]) (operation t)))
    as (x' & Ex & Sx & Lx).
  exists (mkError (kind t) (level t) m' t' o' x').
  rewrite (bind_Ret _ _ _ _ _ Em), (bind_Ret _ _ _ _ _ Et),
          (bind_Ret _ _ _ _ _ Eo), (bind_Ret _ _ _ _ _ Ex).
  cbn [message trace operation extra kind level].
  rewrite <- !app_assoc. split; [reflexivity|]. split.
  - rewrite Sm, St, So, Sx, !length_app, !seq_app. reflexivity.
  - intros H HP. rewrite !app_assoc in HP.
    pose proof (prefix_app_l _ _ _ HP) as HP3.
    pose proof (prefix_app_l _ _ _ HP3) as HP2.
    pose proof (prefix_app_l _ _ _ HP2) as HP1.
    rewrite (bind_Ret _ _ _ _ _ (Lm H HP1)), (bind_Ret _ _ _ _ _ (Lt H HP2)),
            (bind_Ret _ _ _ _ _ (Lo H HP3)), (bind_Ret _ _ _ _ _ (Lx H HP)).
    destruct t; reflexivity.
Qed.

(** * The difference of two reports *)

Lemma survives_spec baseline e :
  survives baseline e = true <->
  Forall (fun o => json_messages (message o) <> json_messages (message e)) baseline.
Proof.
  unfold survives, same_message_text. induction baseline as [|o l IH]; cbn.
  - split; constructor.
  - rewrite Forall_cons, andb_true_iff, IH, negb_true_iff, bool_decide_eq_false.
    reflexivity.
Qed.

Lemma json_messages_bracket l : exists s, json_messages l = String "[" s.
Proof. unfold json_messages, json_array. rewrite append_cons. eauto. Qed.

(** The text of an array is not a property of [Object.prototype]. *)
Lemma json_messages_own l : json_messages l ∉ Object_prototype_keys.
Proof.
  destruct (json_messages_bracket l) as [s ->]. unfold Object_prototype_keys.
  intros H. repeat (apply elem_of_cons in H as [H|H]; [discriminate H|]).
  inversion H.
Qed.

Lemma property_defined_own {V} (obj : gmap string V) l :
  property_defined obj (json_messages l) = bool_decide (is_Some (obj !! json_messages l)).
Proof.
  unfold property_defined.
  rewrite (bool_decide_eq_false_2 (json_messages l ∈ Object_prototype_keys))
    by apply json_messages_own.
  apply orb_false_r.
Qed.

Lemma mapJS_app {A B} (f : A -> JS B) l1 l2 h y1 h1 y2 h2 :
  mapJS f l1 h = (Ret y1, h1) -> mapJS f l2 h1 = (Ret y2, h2) ->
  mapJS f (l1 ++ l2) h = (Ret (y1 ++ y2), h2).
Proof.
  revert h y1. induction l1 as [|x l1 IH]; intros h y1 E1 E2.
  - injection E1 as <- <-. exact E2.
  - cbn [app]. rewrite mapJS_cons in *.
    destruct (f x h) as [[y|e] h'] ; [|discriminate].
    destruct (mapJS f l1 h') as [[ys|e] h''] eqn:E; [|discriminate].
    injection E1 as <- <-. now rewrite (IH _ _ E E2).
Qed.

Lemma mapJS_stable_inv {A B} (f : A -> JS B) l : (forall x, stable (f x)) ->
  forall h ys h', mapJS f l h = (Ret ys, h') ->
    h' = h /\ Forall2 (fun x y => f x h = (Ret y, h)) l ys.
Proof.
  intros Hf. induction l as [|x l IH]; intros h ys h' E.
  - injection E as <- <-. split; constructor.
  - rewrite mapJS_cons in E.
    destruct (f x h) as [[y|e] h1] eqn:Ex; [|discriminate].
    assert (h1 = h) as -> by (pose proof (proj1 (Hf x h)) as H; now rewrite Ex in H).
    destruct (mapJS f l h) as [[ys'|e] h2] eqn:El; [|discriminate].
    injection E as <- <-. destruct (IH _ _ _ El) as [-> HF].
    split; [reflexivity|]. now constructor.
Qed.

Lemma stable_grow {A} (c : JS A) h a fresh :
  stable c -> c h = (Ret a, h) -> c (h ++ fresh) = (Ret a, h ++ fresh).
Proof. intros Hc E. apply (Hc h). now rewrite E. Qed.

Lemma JSON_stringify_inv a h ta h' :
  JSON_stringify a h = (Ret ta, h') ->
  Forall2 (fun e t => JSON_stringify_error e h = (Ret t, h)) (errors a) (errors ta)
  /\ passed ta = passed a /\ flowVersion ta = flowVersion a.
Proof.
  intros E. unfold JSON_stringify, traverse_result in E.
  apply bind_inv in E as (ts & h1 & E1 & E). injection E as <- _.
  apply mapJS_stable_inv in E1 as [_ HF]; [|apply stable_JSON_stringify_error].
  auto.
Qed.

Lemma stringify_error_messages e h t h' :
  JSON_stringify_error e h = (Ret t, h') ->
  JSON_stringify_messages (message e) h = (Ret (json_messages (message t)), h).
Proof.
  intros E. unfold JSON_stringify_error, traverse_error in E.
  apply bind_inv in E as (m' & h1 & Em & E).
  do 3 (apply bind_inv in E as (? & ? & _ & E); cbn beta in E).
  injection E as <- _. cbn [message].
  assert (h1 = h) as ->
    by (pose proof (proj1 (stable_mapJS_load (message e) h)) as H; now rewrite Em in H).
  unfold JSON_stringify_messages. now rewrite (bind_Ret _ _ _ _ _ Em).
Qed.

(** The first loop of [difference]: the keys of [oldHashes]. *)
Lemma difference_oldHashes h es ts :
  Forall2 (fun e t => JSON_stringify_error e h = (Ret t, h)) es ts ->
  forall m0 : gmap string (FlowError nat), exists m,
    reduceJS recordHash es m0 h = (Ret m, h)
    /\ forall k, is_Some (m !! k) <->
         is_Some (m0 !! k) \/ Exists (fun o => json_messages (message o) = k) ts.
Proof.
  induction 1 as [|e t es ts He Hes IH]; intros m0.
  - exists m0. split; [reflexivity|]. intros k. rewrite Exists_nil. tauto.
  - destruct (IH (<[json_messages (message t) := e]> m0)) as (m & E & Hm).
    exists m. split.
    + rewrite reduceJS_cons.
      rewrite (bind_Ret _ _ h (<[json_messages (message t) := e]> m0) h); [exact E|].
      unfold recordHash.
      now rewrite (bind_Ret _ _ _ _ _ (stringify_error_messages _ _ _ _ He)).
    + intros k. rewrite Hm, Exists_cons, lookup_insert_is_Some.
      destruct (decide (json_messages (message t) = k)); tauto.
Qed.

Lemma survives_defined (oldHashes : gmap string (FlowError nat)) baseline t :
  (forall k, is_Some (oldHashes !! k) <->
     Exists (fun o => json_messages (message o) = k) baseline) ->
  property_defined oldHashes (json_messages (message t)) = negb (survives baseline t).
Proof.
  intros Hm. rewrite property_defined_own.
  destruct (survives baseline t) eqn:E; cbn.
  - apply survives_spec in E. apply bool_decide_eq_false.
    rewrite Hm. intros HE. apply Exists_exists in HE as (o & Ho & Heq).
    rewrite Forall_forall in E. exact (E o Ho Heq).
  - apply bool_decide_eq_true. rewrite Hm.
    apply not_true_iff_false in E. rewrite survives_spec in E.
    apply not_Forall_Exists in E; [|intros o; apply _].
    eapply Exists_impl; [exact E|]. cbn. intros o Ho.
    destruct (decide (json_messages (message o) = json_messages (message t))); tauto.
Qed.

(** The second loop: [acc] holds copies of the survivors so far, made of
    the objects [fresh] that the loop has added to [h]. *)
Lemma difference_keepNew (oldHashes : gmap string (FlowError nat)) baseline h es ts :
  (forall k, is_Some (oldHashes !! k) <->
     Exists (fun o => json_messages (message o) = k) baseline) ->
  Forall2 (fun e t => JSON_stringify_error e h = (Ret t, h)) es ts ->
  forall acc accT fresh,
    (forall H, (h ++ fresh) `prefix_of` H ->
               mapJS JSON_stringify_error acc H = (Ret accT, H)) ->
    elems_list error_elems acc = seq (length h) (length fresh) ->
    exists acc' fresh',
      reduceJS (keepNew oldHashes) es acc (h ++ fresh) = (Ret acc', h ++ fresh')
      /\ (forall H, (h ++ fresh') `prefix_of` H ->
            mapJS JSON_stringify_error acc' H
            = (Ret (accT ++ List.filter (survives baseline) ts), H))
      /\ elems_list error_elems acc' = seq (length h) (length fresh').
Proof.
  intros Hm. induction 1 as [|e t es ts He Hes IH]; intros acc accT fresh Hacc Hel.
  - exists acc, fresh. cbn. rewrite app_nil_r. auto.
  - pose proof (stable_grow _ _ _ fresh (stable_JSON_stringify_messages _)
                  (stringify_error_messages _ _ _ _ He)) as Ehash.
    rewrite reduceJS_cons. cbn [List.filter].
    destruct (survives baseline t) eqn:Es.
    + pose proof (stable_grow _ _ _ fresh (stable_JSON_stringify_error _) He) as Etext.
      destruct (allocates_error t (h ++ fresh)) as (r & Er & Sr & Lr).
      assert (keepNew oldHashes acc e (h ++ fresh)
              = (Ret (acc ++ [r]), (h ++ fresh) ++ error_elems t)) as Ek.
      { unfold keepNew. rewrite (bind_Ret _ _ _ _ _ Ehash).
        rewrite (survives_defined _ _ _ Hm), Es. cbn [negb].
        rewrite (bind_Ret _ _ _ _ _ Etext), (bind_Ret _ _ _ _ _ Er). reflexivity. }
      rewrite (bind_Ret _ _ _ _ _ Ek), <- app_assoc.
      destruct (IH (acc ++ [r]) (accT ++ [t]) (fresh ++ error_elems t))
        as (acc' & fresh' & E & L & S).
      * intros H HP. rewrite app_assoc in HP.
        eapply mapJS_app; [apply Hacc; eapply prefix_app_l; exact HP|].
        rewrite mapJS_cons, (Lr H HP). reflexivity.
      * unfold elems_list in *. rewrite map_app, concat_app, Hel. cbn.
        rewrite app_nil_r, Sr, !length_app, seq_app. reflexivity.
      * exists acc', fresh'. split; [exact E|]. split; [|exact S].
        intros H HP. rewrite (L H HP), <- app_assoc. reflexivity.
    + assert (keepNew oldHashes acc e (h ++ fresh) = (Ret acc, h ++ fresh)) as Ek.
      { unfold keepNew. rewrite (bind_Ret _ _ _ _ _ Ehash).
        rewrite (survives_defined _ _ _ Hm), Es. reflexivity. }
      rewrite (bind_Ret _ _ _ _ _ Ek).
      destruct (IH acc accT fresh Hacc Hel) as (acc' & fresh' & E & L & S).
      exists acc', fresh'. auto.
Qed.

Lemma mapJS_length {A B} (f : A -> JS B) l : forall h ys h',
  mapJS f l h = (Ret ys, h') -> length ys = length l.
Proof.
  induction l as [|x l IH]; intros h ys h' E.
  - now injection E as <- _.
  - rewrite mapJS_cons in E. destruct (f x h) as [[y|e] h1]; [|discriminate].
    destruct (mapJS f l h1) as [[ys'|e] h2] eqn:El; [|discriminate].
    injection E as <- _. cbn. f_equal. eapply IH; eauto.
Qed.



(** * Why [prettyPrint] copies

    [prettyPrintError] by itself writes to the objects of its argument:
    here it raises the [indent] of the message of an [extra] group and
    joins a comment into the text of [message[0]]. *)

Example prettyPrintError_writes :
  (prettyPrintError noted_error noted_store).2 !! 0%nat
    = Some (set_descr "Cannot call function. See the docs" example_message)
  /\ (prettyPrintError noted_error noted_store).2 !! 2%nat
    = Some (mkMessage "foo is not a function" Blame None None (Some 2))
  /\ (prettyPrint (mkResult false [noted_error] "0.30.0") noted_store).2 !! 0%nat
    = Some example_message.
Proof. repeat split. Qed.

(** * Further properties of [JSON.parse(JSON.stringify(...))] *)

Lemma allocates_result (t : FlowResult FlowMessage) :
  allocates result_elems result_elems JSON_parse JSON_stringify t.
Proof.
  intros h. unfold JSON_parse, JSON_stringify, traverse_result, result_elems.
  destruct (allocates_mapJS error_elems error_elems JSON_parse_error JSON_stringify_error
              (errors t)) with (h := h) as (es & E & S & L).
  { apply Forall_forall. intros e _. apply allocates_error. }
  exists (mkResult (passed t) es (flowVersion t)).
  unfold JSON_parse_error in E. rewrite (bind_Ret _ _ _ _ _ E).
  split; [reflexivity|]. split; [exact S|].
  intros H HP. unfold JSON_stringify_error in L.
  cbn [errors passed flowVersion]. rewrite (bind_Ret _ _ _ _ _ (L H HP)).
  destruct t; reflexivity.
Qed.

(** X1: [JSON.parse] of the JSON text [t] of a report returns, in any
    store, a report made of new message objects only (one for every message
    of [t], none used twice), and leaves the objects of the store alone;
    [JSON.stringify] of what it returns gives [t] back, now and however the
    store grows afterwards. *)
Theorem JSON_parse_stringify (t : FlowResult FlowMessage) (h : list FlowMessage) :
  exists r,
    JSON_parse t h = (Ret r, h ++ result_elems t)
    /\ result_elems r = seq (length h) (length (result_elems t))
    /\ forall later,
         JSON_stringify r (h ++ result_elems t ++ later)
         = (Ret t, h ++ result_elems t ++ later).
Proof.
  destruct (allocates_result t h) as (r & E & S & L).
  exists r. split; [exact E|]. split; [exact S|].
  intros later. apply L. rewrite app_assoc. now apply prefix_app_r.
Qed.

(** * Further properties of [difference] *)

Lemma JSON_stringify_errors p acc v ts H :
  mapJS JSON_stringify_error acc H = (Ret ts, H) ->
  JSON_stringify (mkResult p acc v) H = (Ret (mkResult p ts v), H).
Proof.
  intros E. unfold JSON_stringify, traverse_result. cbn [errors passed flowVersion].
  unfold JSON_stringify_error in E. now rewrite (bind_Ret _ _ _ _ _ E).
Qed.

(** What [difference] returns, for reports that the store holds. *)
Lemma difference_reads (a b : FlowResult nat) ta tb h :
  JSON_stringify a h = (Ret ta, h) -> JSON_stringify b h = (Ret tb, h) ->
  exists acc fresh,
    difference a b h
    = (Ret (mkResult (bool_decide (length acc = 0%nat)) acc (flowVersion a)), h ++ fresh)
    /\ (forall H, (h ++ fresh) `prefix_of` H ->
          mapJS JSON_stringify_error acc H
          = (Ret (List.filter (survives (errors tb)) (errors ta)), H))
    /\ elems_list error_elems acc = seq (length h) (length fresh).
Proof.
  intros Ha Hb.
  apply JSON_stringify_inv in Ha as (HFa & _ & Hva).
  apply JSON_stringify_inv in Hb as (HFb & _ & _).
  destruct (difference_oldHashes h _ _ HFb ∅) as (oldHashes & E1 & Hm).
  assert (forall k, is_Some (oldHashes !! k) <->
            Exists (fun o => json_messages (message o) = k) (errors tb)) as Hm'.
  { intros k. rewrite Hm, lookup_empty. split; [intros [[? [=]]|?]; assumption | auto]. }
  destruct (difference_keepNew oldHashes (errors tb) h _ _ Hm' HFa [] [] [])
    as (acc & fresh & E2 & L & S).
  { intros H _. reflexivity. }
  { reflexivity. }
  rewrite app_nil_r in E2. cbn [app] in L.
  exists acc, fresh. split; [|split; assumption].
  unfold difference.
  rewrite (bind_Ret _ _ _ _ _ E1), (bind_Ret _ _ _ _ _ E2). reflexivity.
Qed.

Lemma filter_none {A} (p : A -> bool) l :
  Forall (fun x => p x = false) l -> List.filter p l = [].
Proof.
  induction 1 as [|x l Hx Hl IH]; [reflexivity|]. cbn. now rewrite Hx.
Qed.

Lemma filter_all {A} (p : A -> bool) l :
  Forall (fun x => p x = true) l -> List.filter p l = l.
Proof.
  induction 1 as [|x l Hx Hl IH]; [reflexivity|]. cbn. rewrite Hx. now f_equal.
Qed.


Lemma survives_known baseline e o :
  o ∈ baseline -> json_messages (message o) = json_messages (message e) ->
  survives baseline e = false.
Proof.
  intros Ho Heq. apply not_true_iff_false. rewrite survives_spec, Forall_forall.
  intros H. exact (H o Ho Heq).
Qed.

(** [difference] on reports of which no error survives. *)
Lemma difference_nothing_new (a b : FlowResult nat) ta tb h :
  JSON_stringify a h = (Ret ta, h) -> JSON_stringify b h = (Ret tb, h) ->
  Forall (fun e => survives (errors tb) e = false) (errors ta) ->
  difference a b h = (Ret (mkResult true [] (flowVersion a)), h).
Proof.
  intros Ha Hb Hknown.
  destruct (difference_reads a b ta tb h Ha Hb) as (acc & fresh & E & L & S).
  rewrite (filter_none _ _ Hknown) in L.
  specialize (L (h ++ fresh) (reflexivity _)).
  apply mapJS_length in L. destruct acc; [|discriminate].
  cbn in S. symmetry in S. apply (f_equal length) in S.
  rewrite length_seq in S. cbn in S. destruct fresh; [|discriminate].
  rewrite app_nil_r in E. exact E.
Qed.



(** X3: the difference of a report with itself is the report without
    errors that passed, and no object is created; so
    [prettyPrintWithHeader(difference(R, R))] is "No errors". *)
Theorem difference_self (R : FlowResult nat) (t : FlowResult FlowMessage)
    (h : list FlowMessage) (HR : JSON_stringify R h = (Ret t, h)) :
  difference R R h = (Ret (mkResult true [] (flowVersion R)), h)
  /\ bind (difference R R) prettyPrintWithHeader h = (Ret "No errors", h).
Proof.
  assert (difference R R h = (Ret (mkResult true [] (flowVersion R)), h)) as E.
  { apply (difference_nothing_new R R t t h HR HR).
    apply Forall_forall. intros e He. now apply (survives_known _ e e). }
  split; [exact E|]. now rewrite (bind_Ret _ _ _ _ _ E).
Qed.

Lemma difference_self_witness :
  bind (difference (mkResult false [example_error] "0.30.0")
                   (mkResult false [example_error] "0.30.0"))
       prettyPrintWithHeader [example_message]
  = (Ret "No errors", [example_message]).
Proof.
  exact (proj2 (difference_self
                  (mkResult false [example_error] "0.30.0")
                  (mkResult false [mkError "infer" "error" [example_message] None None None]
                     "0.30.0")
                  [example_message] eq_refl)).
Defined.

(** X4: against a baseline without errors, such as [noErrors],
    [difference(a, b)] returns a copy of every error of [a]: the errors of
    the result read as the errors of [a], in new objects, [passed] holds
    iff [a] has no errors, and the version is that of [a]. *)
Theorem difference_no_baseline (a b : FlowResult nat) (ta : FlowResult FlowMessage)
    (h : list FlowMessage)
    (Ha : JSON_stringify a h = (Ret ta, h)) (Hb : errors b = []) :
  exists r fresh,
    difference a b h = (Ret r, h ++ fresh)
    /\ JSON_stringify r (h ++ fresh)
       = (Ret (mkResult (bool_decide (errors ta = [])) (errors ta) (flowVersion ta)),
          h ++ fresh)
    /\ result_elems r = seq (length h) (length fresh)
    /\ difference a noErrors h = (Ret r, h ++ fresh).
Proof.
  assert (forall b', errors b' = [] ->
            JSON_stringify b' h = (Ret (mkResult (passed b') [] (flowVersion b')), h)) as Hread.
  { intros b' Hb'. unfold JSON_stringify, traverse_result. rewrite Hb'. reflexivity. }
  destruct (difference_reads a b ta _ h Ha (Hread b Hb)) as (acc & fresh & E & L & S).
  cbn [errors] in L.
  rewrite (filter_all (survives []) (errors ta)) in L
    by (apply Forall_forall; intros; reflexivity).
  pose proof (L (h ++ fresh) (reflexivity _)) as L0.
  pose proof (mapJS_length _ _ _ _ _ L0) as Hlen.
  apply JSON_stringify_inv in Ha as (_ & _ & Hva).
  exists (mkResult (bool_decide (length acc = 0%nat)) acc (flowVersion a)), fresh.
  split; [exact E|]. split; [|split; [exact S|]].
  - rewrite (JSON_stringify_errors _ _ _ _ _ L0), Hva. do 3 f_equal.
    apply bool_decide_ext. rewrite <- !length_zero_iff_nil. lia.
  - rewrite <- E. unfold difference. rewrite Hb. reflexivity.
Qed.

Lemma difference_no_baseline_witness :
  exists r fresh,
    difference (mkResult false [example_error] "0.30.0") noErrors [example_message]
    = (Ret r, [example_message] ++ fresh)
    /\ result_elems r = [1%nat].
Proof.
  destruct (difference_no_baseline
              (mkResult false [example_error] "0.30.0") noErrors
              (mkResult false [mkError "infer" "error" [example_message] None None None]
                 "0.30.0")
              [example_message] eq_refl eq_refl)
    as (r & fresh & E & _ & S & _).
  exists r, fresh. split; [exact E|].
  rewrite S. vm_compute in E. injection E as _ <-. reflexivity.
Defined.



(** * Further properties of [getExtraMessages] *)

Lemma indented_bump k m : indented (S k) m = bump_indent (indented k m).
Proof.
  destruct k as [|k]; unfold indented, bump_indent; cbn [descr type context loc indent default].
  - reflexivity.
  - unfold id. replace (2 * Z.of_nat (S (S k))) with (2 * Z.of_nat (S k) + 2) by lia.
    now rewrite Z.add_assoc.
Qed.

Lemma indented_add j k m : indented (j + k) m = indented j (indented k m).
Proof.
  induction j as [|j IH]; [reflexivity|].
  cbn [Nat.add]. now rewrite !indented_bump, IH.
Qed.

Lemma bumped_refl w h : (forall a, w a = 0%nat) -> bumped w h h.
Proof.
  intros Hw. split; [reflexivity|]. intros a. rewrite Hw.
  now destruct (h !! a).
Qed.

Lemma bumped_trans w1 w2 w h1 h2 h3 :
  bumped w1 h1 h2 -> bumped w2 h2 h3 -> (forall a, w a = (w2 a + w1 a)%nat) ->
  bumped w h1 h3.
Proof.
  intros [L1 B1] [L2 B2] Hw. split; [congruence|].
  intros a. rewrite B2, B1, Hw. destruct (h1 !! a); cbn; [|reflexivity].
  now rewrite indented_add.
Qed.

Lemma bumped_store a h m :
  h !! a = Some m ->
  bumped (fun b => if decide (b = a) then 1%nat else 0%nat) h (<[a := bump_indent m]> h).
Proof.
  intros Hm. split; [apply length_insert|].
  intros b. destruct (decide (b = a)) as [->|Hne].
  - rewrite list_lookup_insert_eq by (now apply lookup_lt_Some in Hm).
    rewrite Hm. cbn. now rewrite (indented_bump 0).
  - rewrite list_lookup_insert_ne by auto. now destruct (h !! b).
Qed.

(** [messages.forEach(message => message.indent = ...)] *)
Lemma forEach_bump l : forall h,
  below (length h) l ->
  exists h', forEachJS (fun message => store message bump_indent) l h = (Ret tt, h')
             /\ bumped (count_occ Nat.eq_dec l) h h'.
Proof.
  induction l as [|x l IH]; intros h Hl.
  - exists h. split; [reflexivity|]. now apply bumped_refl.
  - apply Forall_cons in Hl as [Hx Hl].
    destruct (lookup_lt_is_Some_2 h x Hx) as [m Hm].
    destruct (IH (<[x := bump_indent m]> h)) as (h' & E & B).
    { unfold below. now rewrite length_insert. }
    exists h'. split.
    + cbn [forEachJS]. unfold bind, store at 1. rewrite Hm. exact E.
    + eapply bumped_trans; [apply (bumped_store x h m Hm) | exact B|].
      intros a. cbn [count_occ].
      destruct (Nat.eq_dec x a) as [->|Hne].
      * rewrite decide_True by reflexivity. lia.
      * rewrite decide_False by auto. lia.
Qed.

Lemma count_occ_elems_list {T} (el : T -> list nat) l a :
  count_occ Nat.eq_dec (elems_list el l) a
  = sum_list (map (fun x => count_occ Nat.eq_dec (el x) a) l).
Proof.
  unfold elems_list. induction l as [|x l IH]; [reflexivity|].
  cbn. now rewrite count_occ_app, IH.
Qed.

(** One level deeper, every occurrence counts once more. *)
Lemma node_weight_S a n : forall d,
  node_weight a (S d) n = (node_weight a d n + count_occ Nat.eq_dec (extra_elems n) a)%nat.
Proof.
  induction n as [ms|ms cs IH] using FlowExtraNode_tree_ind; intros d;
    cbn [node_weight extra_elems ex_message children from_option elems_option];
    rewrite count_occ_app.
  - cbn. lia.
  - rewrite count_occ_elems_list.
    assert (sum_list (map (node_weight a (S (S d))) cs)
            = (sum_list (map (node_weight a (S d)) cs)
               + sum_list (map (fun c => count_occ Nat.eq_dec (extra_elems c) a) cs))%nat) as ->.
    { induction IH as [|c cs Hc Hcs IHcs]; [reflexivity|]. cbn. rewrite Hc, IHcs. lia. }
    lia.
Qed.

Lemma extra_weight_S a d l :
  extra_weight a (S d) l
  = (extra_weight a d l + count_occ Nat.eq_dec (elems_list extra_elems l) a)%nat.
Proof.
  unfold extra_weight. rewrite count_occ_elems_list.
  induction l as [|n l IH]; [reflexivity|]. cbn. rewrite node_weight_S, IH. lia.
Qed.

Lemma extra_weight_1 a l :
  extra_weight a 1 l
  = (count_occ Nat.eq_dec (elems_list extra_elems l) a
     + sum_list (map (children_weight a) l))%nat.
Proof.
  rewrite count_occ_elems_list. unfold extra_weight.
  induction l as [|n l IH]; [reflexivity|]. cbn [map sum_list]. rewrite IH.
  destruct n as [ms [cs|]];
    cbn [node_weight extra_elems ex_message children from_option elems_option children_weight];
    rewrite count_occ_app.
  - change (sum_list (map (node_weight a 2) cs)) with (extra_weight a 2 cs).
    rewrite extra_weight_S. cbn. lia.
  - cbn. lia.
Qed.

(** The body of [getExtraMessages], given what the callback does on each
    group of the array. *)
Lemma extraMessagesOf_run l :
  Forall (fun n => forall acc h, below (length h) (extra_elems n) ->
            exists h', extraCallback acc n h = (Ret (acc ++ extra_elems n), h')
                       /\ bumped (fun a => children_weight a n) h h') l ->
  forall h, below (length h) (elems_list extra_elems l) ->
    exists h', extraMessagesOf extraCallback l h = (Ret (elems_list extra_elems l), h')
               /\ bumped (fun a => extra_weight a 1 l) h h'.
Proof.
  intros HF.
  assert (forall acc h, below (length h) (elems_list extra_elems l) ->
            exists h1, reduceJS extraCallback l acc h
                       = (Ret (acc ++ elems_list extra_elems l), h1)
                       /\ bumped (fun a => sum_list (map (children_weight a) l)) h h1) as Hred.
  { induction HF as [|n l Hn Hl IH]; intros acc h Hv.
    - exists h. cbn. rewrite app_nil_r. split; [reflexivity|]. now apply bumped_refl.
    - unfold elems_list in Hv. cbn [map concat] in Hv. apply Forall_app in Hv as [Hvn Hvl].
      destruct (Hn acc h Hvn) as (h1 & E1 & B1).
      destruct (IH (acc ++ extra_elems n) h1) as (h2 & E2 & B2).
      { unfold below. rewrite (proj1 B1). exact Hvl. }
      exists h2. split.
      + rewrite reduceJS_cons, (bind_Ret _ _ _ _ _ E1), E2.
        unfold elems_list. cbn [map concat]. now rewrite app_assoc.
      + eapply bumped_trans; [exact B1 | exact B2|]. intros a. cbn. lia. }
  intros h Hv. destruct (Hred [] h Hv) as (h1 & E1 & B1). cbn [app] in E1.
  destruct (forEach_bump (elems_list extra_elems l) h1) as (h2 & E2 & B2).
  { unfold below. rewrite (proj1 B1). exact Hv. }
  exists h2. split.
  - unfold extraMessagesOf. now rewrite (bind_Ret _ _ _ _ _ E1), (bind_Ret _ _ _ _ _ E2).
  - eapply bumped_trans; [exact B1 | exact B2|]. intros a. apply extra_weight_1.
Qed.

Lemma extraCallback_run n : forall acc h,
  below (length h) (extra_elems n) ->
  exists h', extraCallback acc n h = (Ret (acc ++ extra_elems n), h')
             /\ bumped (fun a => children_weight a n) h h'.
Proof.
  induction n as [ms|ms cs IH] using FlowExtraNode_tree_ind; intros acc h Hv.
  - exists h. split; [|now apply bumped_refl].
    cbn. unfold bind, ret. cbn. now rewrite app_nil_r.
  - cbn [extra_elems ex_message children elems_option from_option] in Hv.
    apply Forall_app in Hv as [_ Hv].
    destruct (extraMessagesOf_run cs IH h Hv) as (h' & E & B).
    exists h'. split; [|exact B].
    cbn [extraCallback children ex_message]. now rewrite (bind_Ret _ _ _ _ _ E).
Qed.

(** X6: for an [extra] array whose messages are in the store,
    [getExtraMessages] returns its messages in pre-order (the messages of a
    group, then those of its children) and raises the indent of each by 2
    for every level of nesting: a message that occurs once, at level [d]
    (1 for the groups of [extra] itself), ends with [(indent || 0) + 2d].
    Nothing else of any object changes, and no object is created. *)
Theorem getExtraMessages_indents (extra : list (FlowExtraNode nat))
    (h : list FlowMessage) (Hv : below (length h) (elems_list extra_elems extra)) :
  exists h',
    getExtraMessages (Some extra) h = (Ret (elems_list extra_elems extra), h')
    /\ length h' = length h
    /\ forall a m, h !! a = Some m ->
         h' !! a = Some (indented (extra_weight a 1 extra) m).
Proof.
  destruct (extraMessagesOf_run extra) with (h := h) as (h' & E & [L B]).
  { apply Forall_forall. intros n _. apply extraCallback_run. }
  { exact Hv. }
  exists h'. split; [exact E|]. split; [exact L|].
  intros a m Hm. now rewrite B, Hm.
Qed.

Lemma getExtraMessages_indents_witness :
  exists h',
    getExtraMessages (Some [mkExtra [1%nat] (Some [mkExtra [2%nat] None])]) noted_store
      = (Ret [1; 2]%nat, h')
    /\ h' !! 2%nat = Some (mkMessage "foo is not a function" Blame None None (Some 4)).
Proof.
  destruct (getExtraMessages_indents
              [mkExtra [1%nat] (Some [mkExtra [2%nat] None])] noted_store)
    as (h' & E & _ & B).
  { repeat constructor. }
  exists h'. split; [exact E|].
  exact (B 2%nat _ eq_refl).
Defined.

(** * Further properties of the merge *)

Lemma same_but_descr_refl h : same_but_descr h h.
Proof.
  split; [reflexivity|]. intros a m Hm. exists (descr m). now destruct m.
Qed.

Lemma same_but_descr_trans h1 h2 h3 :
  same_but_descr h1 h2 -> same_but_descr h2 h3 -> same_but_descr h1 h3.
Proof.
  intros [L1 S1] [L2 S2]. split; [congruence|].
  intros a m Hm. destruct (S1 a m Hm) as [d1 H1]. destruct (S2 a _ H1) as [d2 H2].
  exists d2. exact H2.
Qed.

Lemma same_but_descr_store h prev p d :
  h !! prev = Some p -> same_but_descr h (<[prev := set_descr d p]> h).
Proof.
  intros Hp. split; [apply length_insert|]. intros a m Hm.
  destruct (decide (a = prev)) as [->|Hne].
  - rewrite Hp in Hm. injection Hm as <-. exists d.
    apply list_lookup_insert_eq. now apply lookup_lt_Some in Hp.
  - exists (descr m). rewrite list_lookup_insert_ne by auto. now destruct m.
Qed.

Lemma stays_same h h' a : same_but_descr h h' -> stays h' a = stays h a.
Proof.
  intros [L S]. unfold stays. destruct (h !! a) as [m|] eqn:Hm.
  - destruct (S a m Hm) as [d ->]. reflexivity.
  - apply lookup_ge_None in Hm. rewrite <- L in Hm.
    apply lookup_ge_None in Hm. now rewrite Hm.
Qed.

(** One step of the merge on a unit [m] with properties [u]. *)
Lemma mergeComment_step acc m h u :
  h !! m = Some u ->
  mergeComment acc m h =
  if bool_decide (loc u <> None) || bool_decide (length acc = 0%nat)
     || bool_decide (type u = Blame)
  then (Ret (acc ++ [m]), h)
  else if bool_decide (descr u <> "Error:")
       then match last acc with
            | Some prev =>
                match h !! prev with
                | Some p =>
                    (Ret acc, <[prev := set_descr (joinDescr (descr p) (descr u)) p]> h)
                | None => (Throw Stuck, h)
                end
            | None => (Throw TypeError, h)
            end
       else (Ret acc, h).
Proof.
  intros Hu. unfold mergeComment. rewrite (bind_Ret _ _ _ _ _ (load_Some _ _ _ Hu)).
  destruct (_ || _ || _); [reflexivity|].
  destruct (bool_decide _); [|reflexivity].
  destruct (last acc) as [prev|]; [|reflexivity].
  unfold bind, store. now destruct (h !! prev).
Qed.

(** The merge from a non-empty output [acc]. *)
Lemma merge_units l : forall acc h,
  below (length h) l -> acc <> [] -> below (length h) acc ->
  exists h', reduceJS mergeComment l acc h = (Ret (acc ++ List.filter (stays h) l), h')
             /\ same_but_descr h h'.
Proof.
  induction l as [|m l IH]; intros acc h Hl Hne Hacc.
  - exists h. cbn. rewrite app_nil_r. split; [reflexivity | apply same_but_descr_refl].
  - apply Forall_cons in Hl as [Hm Hl].
    destruct (lookup_lt_is_Some_2 h m Hm) as [u Hu].
    assert (bool_decide (length acc = 0%nat) = false) as Hlen
      by (apply bool_decide_eq_false; now destruct acc).
    rewrite reduceJS_cons. cbn [List.filter]. unfold stays at 1. rewrite Hu.
    unfold bind at 1. rewrite (mergeComment_step _ _ _ _ Hu), Hlen, orb_false_r.
    destruct (bool_decide (loc u <> None) || bool_decide (type u = Blame)) eqn:Est.
    + destruct (IH (acc ++ [m]) h Hl) as (h' & E & S).
      { now destruct acc. }
      { apply Forall_app. split; [exact Hacc | now constructor]. }
      exists h'. split; [|exact S].
      rewrite E, <- app_assoc. reflexivity.
    + destruct (bool_decide (descr u <> "Error:")).
      * destruct (last acc) as [prev|] eqn:El; [|apply last_None in El; contradiction].
        assert (prev < length h)%nat as Hprev.
        { apply last_Some in El as [acc' ->]. apply Forall_app in Hacc as [_ Hp].
          exact (Forall_inv Hp). }
        destruct (lookup_lt_is_Some_2 h prev Hprev) as [p Hp]. rewrite Hp.
        set (h1 := <[prev := set_descr (joinDescr (descr p) (descr u)) p]> h).
        pose proof (same_but_descr_store h prev p (joinDescr (descr p) (descr u)) Hp) as S1.
        fold h1 in S1.
        destruct (IH acc h1) as (h' & E & S); auto.
        { unfold below. rewrite (proj1 S1). exact Hl. }
        { unfold below. rewrite (proj1 S1). exact Hacc. }
        exists h'. split; [|eapply same_but_descr_trans; eauto].
        rewrite E. do 3 f_equal. apply filter_ext. intros a. now apply stays_same.
      * destruct (IH acc h Hl Hne Hacc) as (h' & E & S).
        exists h'. split; [exact E | exact S].
Qed.

(** X7: on units that are in the store, the merge returns the first unit
    followed by exactly the later units that have a location or are Blame,
    in their order; a later comment without location is never a unit of the
    output.  The merge creates no object and changes nothing but texts. *)
Theorem merge_keeps (m0 : nat) (rest : list nat) (h : list FlowMessage)
    (Hv : below (length h) (m0 :: rest)) :
  exists h',
    reduceJS mergeComment (m0 :: rest) [] h
      = (Ret (m0 :: List.filter (stays h) rest), h')
    /\ same_but_descr h h'.
Proof.
  pose proof Hv as Hv'. apply Forall_cons in Hv' as [Hm Hrest].
  destruct (lookup_lt_is_Some_2 h m0 Hm) as [u Hu].
  destruct (merge_units rest [m0] h Hrest) as (h' & E & S).
  { discriminate. }
  { now constructor. }
  exists h'. split; [|exact S].
  rewrite reduceJS_cons. unfold bind at 1. rewrite (mergeComment_step _ _ _ _ Hu).
  cbn [length]. rewrite (bool_decide_eq_true_2 (0%nat = 0%nat)) by reflexivity.
  rewrite orb_true_r. exact E.
Qed.

Lemma merge_keeps_witness :
  exists h',
    reduceJS mergeComment [1; 0; 1; 2]%nat [] noted_store = (Ret [1; 0; 2]%nat, h')
    /\ same_but_descr noted_store h'.
Proof.
  exact (merge_keeps 1%nat [0; 1; 2]%nat noted_store ltac:(repeat constructor)).
Defined.

Lemma reads_insert h l ms a v :
  a ∉ l -> reads h l ms -> reads (<[a := v]> h) l ms.
Proof.
  intros Ha Hr. induction Hr as [|x m l ms Hx Hr IH]; constructor.
  - rewrite list_lookup_insert_ne; [exact Hx|]. intros ->. apply Ha. left.
  - apply IH. intros Hin. apply Ha. now right.
Qed.

(** The merge on distinct objects, from the output [acc]. *)
Lemma merge_refines todo : forall todoP acc accP h,
  NoDup (acc ++ todo) -> reads h acc accP -> reads h todo todoP ->
  exists out h', reduceJS mergeComment todo acc h = (Ret out, h')
                 /\ reads h' out (fold_left merge_value todoP accP).
Proof.
  induction todo as [|m todo IH]; intros todoP acc accP h Hnd Hacc Htodo.
  - inversion Htodo; subst. exists acc, h. split; [reflexivity | exact Hacc].
  - inversion Htodo as [|? u ? todoP' Hu Htodo']; subst. cbn [fold_left].
    rewrite reduceJS_cons. unfold bind at 1, merge_value at 2.
    rewrite (mergeComment_step _ _ _ _ Hu).
    rewrite <- (Forall2_length _ _ _ Hacc).
    destruct (bool_decide (loc u <> None) || bool_decide (length acc = 0%nat)
              || bool_decide (type u = Blame)) eqn:Epush.
    + apply (IH todoP' (acc ++ [m]) (accP ++ [u]) h).
      * now rewrite <- app_assoc.
      * apply Forall2_app; [exact Hacc | now constructor].
      * exact Htodo'.
    + destruct (bool_decide (descr u <> "Error:")).
      * destruct (last acc) as [prev|] eqn:El.
        2:{ apply last_None in El. subst acc. cbn in Epush.
            now rewrite orb_true_r in Epush. }
        apply last_Some in El as [acc' ->].
        apply Forall2_app_inv_l in Hacc as (accP' & ps & Hacc' & Hp & ->).
        inversion Hp as [|? p ? ? Hp0 Hnil]; subst. inversion Hnil; subst.
        rewrite Hp0.
        set (p' := set_descr (joinDescr (descr p) (descr u)) p).
        apply NoDup_app in Hnd as (Hnd1 & Hdisj & Hnd2).
        apply NoDup_app in Hnd1 as (Hacc'nd & Hprev & _).
        assert (prev ∉ acc') as Hnotin.
        { intros Hin. apply (Hprev prev Hin). left. }
        assert (prev ∉ todo) as Hnotin2.
        { intros Hin. apply (Hdisj prev); [apply elem_of_app; right; left | now right]. }
        replace (alter _ _ (accP' ++ [p])) with (accP' ++ [p']).
        2:{ rewrite length_app. cbn [length].
            replace (length acc' + 1 - 1)%nat with (length accP' + 0)%nat
              by (rewrite (Forall2_length _ _ _ Hacc'); lia).
            now rewrite alter_app_r. }
        apply (IH todoP' (acc' ++ [prev]) (accP' ++ [p']) (<[prev := p']> h)).
        -- apply NoDup_app. split; [|split].
           ++ apply NoDup_app. split; [exact Hacc'nd|]. split; [exact Hprev|].
              apply NoDup_singleton.
           ++ intros x Hx Hin. apply (Hdisj x Hx). now right.
           ++ now inversion Hnd2.
        -- apply Forall2_app; [now apply reads_insert|].
           constructor; [|constructor].
           apply list_lookup_insert_eq. now apply lookup_lt_Some in Hp0.
        -- now apply reads_insert.
      * apply (IH todoP' acc accP h); auto.
        apply NoDup_app in Hnd as (Hnd1 & Hdisj & Hnd2).
        apply NoDup_app. split; [exact Hnd1|]. split.
        -- intros x Hx Hin. apply (Hdisj x Hx). now right.
        -- now inversion Hnd2.
Qed.

(** X8: on distinct objects the merge computes [merge_values]: the units
    it returns have, after the merge, the properties that the fold of
    [merge_value] over the properties of the given units has.  So a comment
    without location adds its text to the unit before it (unless the text
    is "Error:") and is gone, and every other unit is kept with its own
    properties. *)
Theorem merge_distinct (l : list nat) (ms : list FlowMessage) (h : list FlowMessage)
    (Hd : NoDup l) (Hr : reads h l ms) :
  exists out h',
    reduceJS mergeComment l [] h = (Ret out, h')
    /\ reads h' out (merge_values ms).
Proof.
  apply (merge_refines l ms [] [] h); [exact Hd | constructor | exact Hr].
Qed.

Lemma merge_distinct_witness :
  exists out h',
    reduceJS mergeComment [0; 1; 2]%nat [] noted_store = (Ret out, h')
    /\ reads h' out
         [ set_descr "Cannot call function. See the docs" example_message;
           mkMessage "foo is not a function" Blame None None None ].
Proof.
  refine (merge_distinct [0; 1; 2]%nat noted_store noted_store _ _).
  - exact (bool_decide_unpack (NoDup [0; 1; 2]%nat) I).
  - repeat constructor.
Defined.

(** * Further properties of [prettyPrintMessage] *)

Lemma Array_join_cases n sep :
  (array_length n /\ Array_join n sep = Ret (string_repeat sep (Z.to_nat (n - 1))))
  \/ (~ array_length n /\ Array_join n sep = Throw RangeError).
Proof.
  unfold Array_join, array_length.
  destruct (Z.ltb_spec n 0); cbn [orb]; [right; split; [lia | reflexivity]|].
  destruct (Z.ltb_spec (2 ^ 32 - 1) n); [right | left]; split; try reflexivity; lia.
Qed.





(** X11: the underline starts under the character it points at.  For a
    unit with a context line [c] that is longer than [startCol]
    (= start.column - 1, not negative), [c] is [pre] followed by [rest]
    with [pre] of [startCol] characters; the first line of the rendering is
    indentation, label, [pre], [rest], and the second line is the same
    indentation, as many spaces as the label is long, [pre] with every
    character but a tab turned into a space, and then the carets. *)
Theorem underline_aligned (mainFile : string) (m : FlowMessage) (l : FlowLoc)
    (c s : string) (Hl : loc m = Some l) (Hc : context m = Some c)
    (Hs : prettyPrintMessage mainFile m = Ret s)
    (Hcol : 0 <= column (start l) - 1 < js_length c) :
  exists indentation pre rest,
    c = pre +:+ rest
    /\ js_length pre = column (start l) - 1
    /\ s = indentation +:+ line_label (line (start l)) +:+ pre +:+ rest +:+ nl +:+
           indentation +:+ string_repeat " " (String.length (line_label (line (start l))))
           +:+ string_map keep_tab pre
           +:+ string_repeat "^" (Z.to_nat (underline_length l)) +:+ " " +:+
           descr m +:+ see_another_file mainFile l
    /\ String.length (string_map keep_tab pre) = String.length pre.
Proof.
  pose proof (prettyPrintMessage_context mainFile m l c s Hl Hc Hs) as E. cbv zeta in E.
  set (n := Z.to_nat (column (start l) - 1)).
  exists (string_repeat " " (Z.to_nat (default 0 (indent m)))),
         (string_take n c), (string_drop n c).
  split; [now rewrite append_take_drop|]. split; [|split].
  - unfold js_length in *. rewrite length_string_take; subst n; lia.
  - rewrite E. unfold underline_padding.
    rewrite (proj2 (Z.ltb_lt _ _) (proj2 Hcol)).
    rewrite replace_non_blank_keep_tab. unfold substr0. fold n.
    rewrite <- (append_take_drop n c) at 1.
    rewrite !append_assoc. reflexivity.
  - apply length_string_map.
Qed.

Lemma underline_aligned_witness :
  exists s indentation pre rest,
    prettyPrintMessage "a.js" backwards_message = Ret s
    /\ "var x = ;" = pre +:+ rest
    /\ js_length pre = 8
    /\ s = indentation +:+ line_label 7 +:+ pre +:+ rest +:+ nl +:+
           indentation +:+ string_repeat " " (String.length (line_label 7))
           +:+ string_map keep_tab pre
           +:+ string_repeat "^" 1 +:+ " " +:+ "Unexpected token" +:+ ""
    /\ String.length (string_map keep_tab pre) = String.length pre.
Proof.
  eexists.
  destruct (underline_aligned "a.js" backwards_message
              (mkLoc (Some "a.js") (Some SourceFile) (mkPos 7 9 0) (mkPos 7 4 0))
              "var x = ;" _ eq_refl eq_refl eq_refl)
    as (indentation & pre & rest & H1 & H2 & H3 & H4).
  - vm_compute. split; [discriminate | reflexivity].
  - exists indentation, pre, rest. split; [reflexivity|]. repeat split; assumption.
Defined.

(** * The outcome of [prettyPrintError] *)

Lemma prettyPrintMessage_outcome mainFile m :
  (exists s, prettyPrintMessage mainFile m = Ret s)
  \/ prettyPrintMessage mainFile m = Throw RangeError.
Proof.
  unfold prettyPrintMessage.
  destruct (Array_join_cases (default 0 (indent m) + 1) " ") as [[_ ->]|[_ ->]];
    [|now right].
  cbn [obind]. destruct (loc m) as [l|]; [|left; eauto].
  destruct (context m) as [c|]; [|left; cbn [obind]; eauto].
  match goal with
  | |- context [Array_join ?n " "] =>
      destruct (Array_join_cases n " ") as [[_ E]|[_ E]]; rewrite E
  end; [|now right].
  cbn [obind].
  match goal with
  | |- context [Array_join ?n "^"] =>
      destruct (Array_join_cases n "^") as [[_ E']|[_ E']]; rewrite E'
  end; [left; cbn [obind]; eauto | now right].
Qed.

Lemma render_units mainFile msgs h :
  below (length h) msgs ->
  (exists lines,
      mapJS (fun message => bind (load message)
                              (fun m => lift (prettyPrintMessage mainFile m))) msgs h
      = (Ret lines, h))
  \/ mapJS (fun message => bind (load message)
                              (fun m => lift (prettyPrintMessage mainFile m))) msgs h
     = (Throw RangeError, h).
Proof.
  induction 1 as [|a msgs Ha _ IH]; [left; now exists []|].
  rewrite mapJS_cons.
  destruct (lookup_lt_is_Some_2 h a Ha) as [m Hm].
  rewrite (bind_Ret _ _ _ _ _ (load_Some _ _ _ Hm)). unfold lift in IH |- *.
  destruct (prettyPrintMessage_outcome mainFile m) as [[s ->]| ->]; [|now right].
  destruct IH as [[lines ->]| ->]; [left; eauto | now right].
Qed.

Lemma mainLocOf_cases operation message h :
  below (length h) (elems_option (fun x => [x]) operation) ->
  below (length h) message ->
  (message <> [] \/ located operation h ->
     exists mainLoc, mainLocOf operation message h = (Ret mainLoc, h))
  /\ (message = [] -> ~ located operation h ->
        mainLocOf operation message h = (Throw TypeError, h)).
Proof.
  intros Hop Hm. unfold mainLocOf.
  assert (exists opLoc,
            match operation with
            | Some op => bind (load op) (fun o => ret (loc o))
            | None => ret None
            end h = (Ret opLoc, h)
            /\ (opLoc <> None <-> located operation h)) as (opLoc & E & Hloc).
  { destruct operation as [op|].
    - destruct (lookup_lt_is_Some_2 h op (Forall_inv Hop)) as [o Ho].
      exists (loc o). rewrite (bind_Ret _ _ _ _ _ (load_Some _ _ _ Ho)).
      split; [reflexivity|]. split.
      + intros Hne. destruct (loc o) as [l|] eqn:El; [|contradiction].
        now exists op, o, l.
      + intros (op' & o' & l & [= <-] & Ho' & Hl). congruence.
    - exists None. split; [reflexivity|]. split; [contradiction|].
      intros (op' & _ & _ & [=] & _). }
  rewrite (bind_Ret _ _ _ _ _ E). split.
  - intros Hcase. destruct opLoc as [l|]; [now exists (Some l)|].
    destruct Hcase as [Hne|Hl]; [|apply Hloc in Hl; contradiction].
    destruct message as [|m0 rest]; [contradiction|].
    destruct (lookup_lt_is_Some_2 h m0 (Forall_inv Hm)) as [m Hm0].
    exists (loc m). now rewrite (bind_Ret _ _ _ _ _ (load_Some _ _ _ Hm0)).
  - intros -> Hno. destruct opLoc as [l|]; [|reflexivity].
    exfalso. apply Hno, Hloc. discriminate.
Qed.

Lemma mergedMessages_from error h mainLoc :
  mainLocOf (operation error) (message error) h = (Ret mainLoc, h) ->
  below (length h) (error_elems error) ->
  exists messages h',
    mergedMessages error h = (Ret (mainFileOf mainLoc, messages), h')
    /\ below (length h') messages.
Proof.
  intros E HP. unfold error_elems in HP.
  apply Forall_app in HP as [Hm HP]. apply Forall_app in HP as [Ht HP].
  apply Forall_app in HP as [Ho Hx].
  unfold mergedMessages. rewrite (bind_Ret _ _ _ _ _ E).
  match goal with
  | |- exists messages h', ?c h = _ /\ _ =>
      assert (returns (length h) c
                (fun r n => r.1 = mainFileOf mainLoc /\ below n r.2)) as H
  end.
  { eapply returns_bind; [apply returns_getHeader|]. intros header n2 H2 Hh.
    eapply returns_bind.
    { apply returns_getKindMessage. eapply below_mono; [|exact Hm]. lia. }
    intros kindMessage n3 H3 Hk.
    eapply returns_bind.
    { apply returns_getOpReason. eapply below_mono; [|exact Ho]. lia. }
    intros opReason n4 H4 Hop.
    eapply returns_bind.
    { apply returns_getExtraMessages. eapply below_mono; [|exact Hx]. lia. }
    intros extraMessages n5 H5 He.
    eapply returns_bind.
    { apply returns_getTraceReasons. eapply below_mono; [|exact Ht]. lia. }
    intros traceReasons n6 H6 Htr.
    eapply returns_bind.
    { apply returns_merge; [|constructor].
      repeat (apply Forall_app; split);
        [eapply below_mono; [|exact Hh] | eapply below_mono; [|exact Hk]
         | eapply below_mono; [|exact Hop] | eapply below_mono; [|exact Hm]
         | eapply below_mono; [|exact He] | eapply below_mono; [|exact Htr]]; lia. }
    intros messages n7 H7 Hms. apply returns_ret. intros n8 H8. cbn [fst snd].
    split; [reflexivity|]. eapply below_mono; [|exact Hms]. lia. }
  destruct (H h (le_n _)) as ([mainFile messages] & h' & E' & _ & Hf & Hb).
  cbn [fst snd] in Hf, Hb. subst mainFile. eauto.
Qed.

(** X12: the outcome of [prettyPrintError] for an error whose messages are
    in the store.  It throws a TypeError, before it changes anything,
    exactly when [message] is empty and [operation && operation.loc] gives
    no location.  In every other case it returns its text or throws the
    RangeError of a unit that cannot be rendered; an empty [message] is
    accepted when the operation has a location. *)
Theorem prettyPrintError_outcome (error : FlowError nat) (h : list FlowMessage)
    (Hv : below (length h) (error_elems error)) :
  (message error <> [] \/ located (operation error) h ->
     exists h', (exists s, prettyPrintError error h = (Ret s, h'))
                \/ prettyPrintError error h = (Throw RangeError, h'))
  /\ (message error = [] -> ~ located (operation error) h ->
        prettyPrintError error h = (Throw TypeError, h)).
Proof.
  assert (below (length h) (elems_option (fun x => [x]) (operation error))
          /\ below (length h) (message error)) as [Hop Hm].
  { unfold error_elems in Hv.
    apply Forall_app in Hv as [Hm Hv]. apply Forall_app in Hv as [_ Hv].
    apply Forall_app in Hv as [Ho _]. now split. }
  destruct (mainLocOf_cases _ _ h Hop Hm) as [Hret Hthrow]. split.
  - intros Hcase. destruct (Hret Hcase) as [mainLoc E].
    destruct (mergedMessages_from error h mainLoc E Hv) as (messages & h' & E' & Hb).
    exists h'. unfold prettyPrintError. rewrite (bind_Ret _ _ _ _ _ E').
    destruct (render_units (mainFileOf mainLoc) messages h' Hb) as [[lines El]|El].
    + left. exists (join nl lines). now rewrite (bind_Ret _ _ _ _ _ El).
    + right. now rewrite (bind_Throw _ _ _ _ _ El).
  - intros Hnil Hno. unfold prettyPrintError, mergedMessages.
    pose proof (Hthrow Hnil Hno) as E.
    erewrite bind_Throw; [reflexivity|].
    now rewrite (bind_Throw _ _ _ _ _ E).
Qed.

Lemma prettyPrintError_outcome_witness :
  prettyPrintError (mkError "infer" "error" [] None None None) [] = (Throw TypeError, []).
Proof.
  refine (proj2 (prettyPrintError_outcome (mkError "infer" "error" [] None None None) [] _)
            eq_refl _).
  - constructor.
  - intros (op & _ & _ & E & _). discriminate E.
Defined.

(** * The renderer as a function of the text *)

(** ** Reading units *)

Lemma stable_heap {A} (c : JS A) h a h' : stable c -> c h = (Ret a, h') -> h' = h.
Proof. intros Hc E. pose proof (proj1 (Hc h)) as H. now rewrite E in H. Qed.

Lemma mapJS_Forall2 {A B} (f : A -> JS B) l ys h :
  Forall2 (fun x y => f x h = (Ret y, h)) l ys -> mapJS f l h = (Ret ys, h).
Proof.
  induction 1 as [|x y l ys E _ IH]; [reflexivity|].
  now rewrite mapJS_cons, E, IH.
Qed.

Lemma mapJS_load_reads l h ms h' : mapJS load l h = (Ret ms, h') -> reads h l ms.
Proof.
  intros E. apply mapJS_stable_inv in E as [_ HF]; [|apply stable_load].
  eapply Forall2_impl; [exact HF|]. intros a m Ha. now apply load_inv in Ha.
Qed.

Lemma reads_mapJS_load h l ms : reads h l ms -> mapJS load l h = (Ret ms, h).
Proof.
  intros Hr. apply mapJS_Forall2.
  eapply Forall2_impl; [exact Hr|]. intros a m. apply load_Some.
Qed.

Lemma reads_agree h h' l ms :
  (forall a m, a ∈ l -> h !! a = Some m -> h' !! a = Some m) ->
  reads h l ms -> reads h' l ms.
Proof.
  intros Hag Hr. induction Hr as [|a m l ms Ha Hr IH]; constructor.
  - apply Hag; [left | exact Ha].
  - apply IH. intros b v Hb. apply Hag. now right.
Qed.

Lemma reads_grow h fresh l ms : reads h l ms -> reads (h ++ fresh) l ms.
Proof.
  apply reads_agree. intros a m _ Ha. now apply lookup_app_l_Some.
Qed.

Lemma reads_below h l ms : reads h l ms -> below (length h) l.
Proof.
  induction 1 as [|a m l ms Ha _ IH]; constructor; [|exact IH].
  now apply lookup_lt_Some in Ha.
Qed.

Lemma reads_fresh h fresh later :
  reads (h ++ fresh ++ later) (seq (length h) (length fresh)) fresh.
Proof.
  revert h. induction fresh as [|m fresh IH]; intros h; [constructor|].
  cbn [length seq]. constructor.
  - now apply list_lookup_middle.
  - specialize (IH (h ++ [m])). rewrite length_app, <- app_assoc in IH.
    cbn [length] in IH. now rewrite Nat.add_1_r in IH.
Qed.

Lemma stable_mapJS_traverse_extra cs : stable (mapJS (traverse_extra load) cs).
Proof. apply stable_mapJS, Forall_forall. intros; apply stable_traverse_extra_load. Qed.

(** The parts of the text of an error. *)
Lemma JSON_stringify_error_inv e h t h' :
  JSON_stringify_error e h = (Ret t, h') ->
  mapJS load (message e) h = (Ret (message t), h)
  /\ traverse_option (mapJS load) (trace e) h = (Ret (trace t), h)
  /\ traverse_option load (operation e) h = (Ret (operation t), h)
  /\ traverse_option (mapJS (traverse_extra load)) (extra e) h = (Ret (extra t), h)
  /\ kind t = kind e /\ level t = level e.
Proof.
  intros E. unfold JSON_stringify_error, traverse_error in E.
  apply bind_inv in E as (m' & h1 & Em & E).
  pose proof (stable_heap _ _ _ _ (stable_mapJS_load _) Em) as ->.
  apply bind_inv in E as (t' & h2 & Et & E).
  assert (h2 = h) as ->.
  { eapply stable_heap; [|exact Et].
    apply stable_traverse_option. intros; apply stable_mapJS_load. }
  apply bind_inv in E as (o' & h3 & Eo & E).
  assert (h3 = h) as ->.
  { eapply stable_heap; [|exact Eo].
    apply stable_traverse_option. intros; apply stable_load. }
  apply bind_inv in E as (x' & h4 & Ex & E).
  assert (h4 = h) as ->.
  { eapply stable_heap; [|exact Ex].
    apply stable_traverse_option. intros; apply stable_mapJS_traverse_extra. }
  injection E as <- _. cbn. auto 10.
Qed.

(** An error has its text in every store that has its objects. *)
Lemma traverse_extra_agree n : forall tn h h',
  (forall a m, a ∈ extra_elems n -> h !! a = Some m -> h' !! a = Some m) ->
  traverse_extra load n h = (Ret tn, h) -> traverse_extra load n h' = (Ret tn, h').
Proof.
  induction n as [ms|ms cs IH] using FlowExtraNode_tree_ind; intros tn h h' Hag E;
    rewrite traverse_extra_unfold in E |- *;
    apply bind_inv in E as (ms' & h1 & Em & E);
    pose proof (stable_heap _ _ _ _ (stable_mapJS_load _) Em) as ->;
    apply mapJS_load_reads in Em;
    cbn [extra_elems ex_message children elems_option from_option] in Hag.
  - erewrite bind_Ret.
    2:{ apply reads_mapJS_load. eapply reads_agree; [|exact Em].
        intros a m Ha. apply Hag. apply elem_of_app. now left. }
    cbn in E |- *. now injection E as <-.
  - erewrite bind_Ret.
    2:{ apply reads_mapJS_load. eapply reads_agree; [|exact Em].
        intros a m Ha. apply Hag. apply elem_of_app. now left. }
    cbn [traverse_option] in E |- *.
    apply bind_inv in E as (ch' & h2 & Ec & E).
    apply bind_inv in Ec as (cs' & h3 & Ec & Ec').
    injection Ec' as <- <-.
    pose proof (stable_heap _ _ _ _ (stable_mapJS_traverse_extra _) Ec) as ->.
    injection E as <-.
    apply mapJS_stable_inv in Ec as [_ HF]; [|apply stable_traverse_extra_load].
    assert (mapJS (traverse_extra load) cs h' = (Ret cs', h')) as Ec'.
    { apply mapJS_Forall2.
      assert (forall a m, a ∈ elems_list extra_elems cs -> h !! a = Some m ->
                h' !! a = Some m) as Hcs.
      { intros a m Ha. apply Hag. apply elem_of_app. now right. }
      clear Hag Em. induction HF as [|c c' cs cs' Hc HF IHF]; constructor.
      - eapply (Forall_inv IH); [|exact Hc].
        intros a m Ha. apply Hcs. unfold elems_list. cbn.
        apply elem_of_app. now left.
      - apply IHF; [exact (Forall_inv_tail IH)|].
        intros a m Ha. apply Hcs. unfold elems_list. cbn.
        apply elem_of_app. now right. }
    rewrite (bind_Ret _ _ _ _ _ (bind_Ret _ _ _ _ _ Ec')). reflexivity.
Qed.

Lemma traverse_option_agree {A B} (f : A -> JS B) (el : A -> list nat) o r h h' :
  (forall x y, (forall a m, a ∈ el x -> h !! a = Some m -> h' !! a = Some m) ->
               f x h = (Ret y, h) -> f x h' = (Ret y, h')) ->
  (forall a m, a ∈ elems_option el o -> h !! a = Some m -> h' !! a = Some m) ->
  (forall x, stable (f x)) ->
  traverse_option f o h = (Ret r, h) -> traverse_option f o h' = (Ret r, h').
Proof.
  intros Hf Hag Hst E. destruct o as [x|]; cbn in *.
  - apply bind_inv in E as (y & h1 & Ey & E).
    pose proof (stable_heap _ _ _ _ (Hst x) Ey) as ->. injection E as <-.
    now rewrite (bind_Ret _ _ _ _ _ (Hf x y Hag Ey)).
  - now injection E as <-.
Qed.

Lemma mapJS_load_agree l ms h h' :
  (forall a m, a ∈ l -> h !! a = Some m -> h' !! a = Some m) ->
  mapJS load l h = (Ret ms, h) -> mapJS load l h' = (Ret ms, h').
Proof.
  intros Hag E. apply reads_mapJS_load. eapply reads_agree; [exact Hag|].
  eapply mapJS_load_reads, E.
Qed.

Lemma mapJS_traverse_extra_agree cs cs' h h' :
  (forall a m, a ∈ elems_list extra_elems cs -> h !! a = Some m -> h' !! a = Some m) ->
  mapJS (traverse_extra load) cs h = (Ret cs', h) ->
  mapJS (traverse_extra load) cs h' = (Ret cs', h').
Proof.
  intros Hag E.
  apply mapJS_stable_inv in E as [_ HF]; [|apply stable_traverse_extra_load].
  apply mapJS_Forall2. induction HF as [|c c' cs cs' Hc HF IH]; constructor.
  - eapply traverse_extra_agree; [|exact Hc].
    intros a m Ha. apply Hag. unfold elems_list. cbn. apply elem_of_app. now left.
  - apply IH. intros a m Ha. apply Hag. unfold elems_list. cbn.
    apply elem_of_app. now right.
Qed.

Lemma JSON_stringify_error_agree e t h h' :
  (forall a m, a ∈ error_elems e -> h !! a = Some m -> h' !! a = Some m) ->
  JSON_stringify_error e h = (Ret t, h) -> JSON_stringify_error e h' = (Ret t, h').
Proof.
  intros Hag E.
  pose proof (JSON_stringify_error_inv _ _ _ _ E) as (Em & Et & Eo & Ex & Hk & Hl).
  unfold error_elems in Hag.
  unfold JSON_stringify_error, traverse_error.
  erewrite bind_Ret.
  2:{ eapply mapJS_load_agree; [|exact Em]. intros a m Ha. apply Hag.
      apply elem_of_app. now left. }
  erewrite bind_Ret.
  2:{ eapply (traverse_option_agree (mapJS load) id); [| |apply stable_mapJS_load|exact Et].
      - intros l ms Hl'. now apply mapJS_load_agree.
      - intros a m Ha. apply Hag. rewrite !elem_of_app. auto. }
  erewrite bind_Ret.
  2:{ eapply (traverse_option_agree load (fun x => [x])); [| |apply stable_load|exact Eo].
      - intros x y Hx Ey. apply load_inv in Ey as [Ey _].
        apply load_Some, Hx; [left | exact Ey].
      - intros a m Ha. apply Hag. rewrite !elem_of_app. auto. }
  erewrite bind_Ret.
  2:{ eapply (traverse_option_agree (mapJS (traverse_extra load)) (elems_list extra_elems));
        [| |apply stable_mapJS_traverse_extra|exact Ex].
      - intros l ms Hl'. now apply mapJS_traverse_extra_agree.
      - intros a m Ha. apply Hag. rewrite !elem_of_app. auto. }
  unfold ret. rewrite <- Hk, <- Hl. now destruct t.
Qed.

(** ** The indent of the units of [extra] *)

Lemma count_occ_notin (l : list nat) a : a ∉ l -> count_occ Nat.eq_dec l a = 0%nat.
Proof. intros Ha. apply count_occ_not_In. now rewrite <- list_elem_of_In. Qed.

Lemma count_occ_NoDup (l : list nat) a :
  NoDup l -> a ∈ l -> count_occ Nat.eq_dec l a = 1%nat.
Proof.
  intros Hnd Ha. apply NoDup_ListNoDup in Hnd.
  apply (proj1 (NoDup_count_occ' Nat.eq_dec l) Hnd). now apply list_elem_of_In.
Qed.

Lemma node_weight_notin a n : forall d, a ∉ extra_elems n -> node_weight a d n = 0%nat.
Proof.
  induction n as [ms|ms cs IH] using FlowExtraNode_tree_ind; intros d Ha;
    cbn [node_weight extra_elems ex_message children from_option elems_option] in *;
    apply not_elem_of_app in Ha as [Hms Hcs]; rewrite (count_occ_notin _ _ Hms).
  - lia.
  - assert (sum_list (map (node_weight a (S d)) cs) = 0%nat) as ->; [|lia].
    unfold elems_list in Hcs.
    induction IH as [|c cs Hc _ IHcs]; [reflexivity|].
    cbn in Hcs |- *. apply not_elem_of_app in Hcs as [H1 H2].
    now rewrite (Hc _ H1), (IHcs H2).
Qed.

Lemma extra_weight_notin a d l :
  a ∉ elems_list extra_elems l -> extra_weight a d l = 0%nat.
Proof.
  unfold extra_weight, elems_list. induction l as [|n l IH]; [reflexivity|].
  cbn. intros Ha. apply not_elem_of_app in Ha as [H1 H2].
  now rewrite (node_weight_notin _ _ _ H1), (IH H2).
Qed.

Lemma reads_map_indented h h' l ms d :
  reads h l ms ->
  (forall a m, a ∈ l -> h !! a = Some m -> h' !! a = Some (indented d m)) ->
  reads h' l (map (indented d) ms).
Proof.
  intros Hr Hi. induction Hr as [|a m l ms Ha Hr IH]; constructor.
  - apply Hi; [left | exact Ha].
  - apply IH. intros b v Hb. apply Hi. now right.
Qed.

(** The units of an array of groups, given those of each group. *)
Lemma extra_units_list cs : forall cs' d h h',
  Forall (fun c => forall d tc h h',
            traverse_extra load c h = (Ret tc, h) -> NoDup (extra_elems c) ->
            (forall a m, a ∈ extra_elems c -> h !! a = Some m ->
               h' !! a = Some (indented (node_weight a d c) m)) ->
            reads h' (extra_elems c) (extra_units d tc)) cs ->
  Forall2 (fun c c' => traverse_extra load c h = (Ret c', h)) cs cs' ->
  NoDup (elems_list extra_elems cs) ->
  (forall a m, a ∈ elems_list extra_elems cs -> h !! a = Some m ->
     h' !! a = Some (indented (extra_weight a d cs) m)) ->
  reads h' (elems_list extra_elems cs) (concat (map (extra_units d) cs')).
Proof.
  unfold elems_list, extra_weight.
  induction cs as [|c cs IHcs]; intros cs' d h h' IH HF Hnd Hw;
    inversion HF as [|? c' ? cs0 Hc HF']; subst; [constructor|].
  cbn [map concat] in *. apply NoDup_app in Hnd as (Hnd1 & Hdisj & Hnd2).
  apply Forall2_app.
  - apply (Forall_inv IH d c' h h' Hc Hnd1).
    intros a m Ha Hm. rewrite (Hw a m); [|apply elem_of_app; now left|exact Hm].
    cbn [sum_list]. fold (extra_weight a d cs).
    rewrite (extra_weight_notin a d cs) by (now apply Hdisj).
    now rewrite Nat.add_0_r.
  - apply (IHcs cs0 d h h' (Forall_inv_tail IH) HF' Hnd2).
    intros a m Ha Hm. rewrite (Hw a m); [|apply elem_of_app; now right|exact Hm].
    cbn [sum_list].
    rewrite (node_weight_notin a c d); [reflexivity|].
    intros Hin. exact (Hdisj a Hin Ha).
Qed.

Lemma extra_units_node n : forall d tn h h',
  traverse_extra load n h = (Ret tn, h) -> NoDup (extra_elems n) ->
  (forall a m, a ∈ extra_elems n -> h !! a = Some m ->
     h' !! a = Some (indented (node_weight a d n) m)) ->
  reads h' (extra_elems n) (extra_units d tn).
Proof.
  induction n as [ms|ms cs IH] using FlowExtraNode_tree_ind; intros d tn h h' E Hnd Hw;
    rewrite traverse_extra_unfold in E;
    apply bind_inv in E as (ms' & h1 & Em & E);
    pose proof (stable_heap _ _ _ _ (stable_mapJS_load _) Em) as ->;
    apply mapJS_load_reads in Em;
    cbn [extra_elems ex_message children elems_option from_option node_weight] in *;
    apply NoDup_app in Hnd as (Hnd1 & Hdisj & Hnd2).
  - cbn in E. injection E as <-.
    cbn [extra_units ex_message children from_option].
    apply Forall2_app; [|constructor].
    apply (reads_map_indented h); [exact Em|].
    intros a m Ha Hm. rewrite (Hw a m); [|apply elem_of_app; now left|exact Hm].
    rewrite (count_occ_NoDup _ _ Hnd1 Ha). do 2 f_equal. lia.
  - cbn [traverse_option] in E.
    apply bind_inv in E as (ch' & h2 & Ec & E).
    apply bind_inv in Ec as (cs' & h3 & Ec & Ec').
    injection Ec' as <- <-.
    pose proof (stable_heap _ _ _ _ (stable_mapJS_traverse_extra _) Ec) as ->.
    injection E as <-.
    apply mapJS_stable_inv in Ec as [_ HF]; [|apply stable_traverse_extra_load].
    cbn [extra_units ex_message children from_option].
    apply Forall2_app.
    + apply (reads_map_indented h); [exact Em|].
      intros a m Ha Hm. rewrite (Hw a m); [|apply elem_of_app; now left|exact Hm].
      rewrite (count_occ_NoDup _ _ Hnd1 Ha).
      fold (extra_weight a (S d) cs).
      rewrite (extra_weight_notin a (S d) cs) by (now apply Hdisj).
      do 2 f_equal. lia.
    + apply (extra_units_list cs cs' (S d) h h' IH HF Hnd2).
      intros a m Ha Hm. rewrite (Hw a m); [|apply elem_of_app; now right|exact Hm].
      rewrite (count_occ_notin ms a); [|intros Hin; exact (Hdisj a Hin Ha)].
      do 2 f_equal. unfold extra_weight. lia.
Qed.

Lemma extra_units_read cs cs' h h' :
  mapJS (traverse_extra load) cs h = (Ret cs', h) ->
  NoDup (elems_list extra_elems cs) ->
  (forall a m, a ∈ elems_list extra_elems cs -> h !! a = Some m ->
     h' !! a = Some (indented (extra_weight a 1 cs) m)) ->
  reads h' (elems_list extra_elems cs) (concat (map (extra_units 1) cs')).
Proof.
  intros E Hnd Hw.
  apply mapJS_stable_inv in E as [_ HF]; [|apply stable_traverse_extra_load].
  apply (extra_units_list cs cs' 1%nat h h'); [|exact HF|exact Hnd|exact Hw].
  apply Forall_forall. intros c _ d tc h0 h0'. apply extra_units_node.
Qed.

(** ** The units that [prettyPrintError] collects *)

Lemma reads_fresh_end h fresh : reads (h ++ fresh) (seq (length h) (length fresh)) fresh.
Proof. pose proof (reads_fresh h fresh []) as H. now rewrite app_nil_r in H. Qed.

Lemma reads_bumped w h h' l ms :
  bumped w h h' -> (forall a, a ∈ l -> w a = 0%nat) -> reads h l ms -> reads h' l ms.
Proof.
  intros [_ B] Hw. apply reads_agree. intros a m Ha Hm.
  now rewrite B, Hm, (Hw a Ha).
Qed.

Lemma reads_option_load o o' h :
  traverse_option load o h = (Ret o', h) ->
  reads h (elems_option (fun x => [x]) o) (elems_option (fun x => [x]) o').
Proof.
  intros E. destruct o as [a|]; cbn in E.
  - apply bind_inv in E as (m & h1 & Em & E). injection E as <- _.
    apply load_inv in Em as [Em _]. repeat constructor. exact Em.
  - injection E as <-. constructor.
Qed.

Lemma reads_option_mapJS o o' h :
  traverse_option (mapJS load) o h = (Ret o', h) ->
  reads h (elems_option id o) (elems_option id o')
  /\ (o = None <-> o' = None) /\ (o = Some [] <-> o' = Some []).
Proof.
  intros E. destruct o as [l|]; cbn in E.
  - apply bind_inv in E as (ms & h1 & Em & E). injection E as <- _.
    apply mapJS_load_reads in Em. split; [exact Em|]. split; [split; discriminate|].
    split; intros [= ->]; inversion Em; reflexivity.
  - injection E as <-. split; [constructor|]. split; [tauto | split; discriminate].
Qed.

Lemma mainLocOf_text error t h :
  reads h (message error) (message t) ->
  traverse_option load (operation error) h = (Ret (operation t), h) ->
  mainLocOf (operation error) (message error) h = (main_loc t, h).
Proof.
  intros Rm Eo. unfold mainLocOf, main_loc.
  assert (match operation error with
          | Some op => bind (load op) (fun o => ret (loc o))
          | None => ret None
          end h = (Ret (operation t ≫= loc), h)) as E.
  { destruct (operation error) as [op|]; cbn in Eo.
    - apply bind_inv in Eo as (o & h1 & Eop & Eo). injection Eo as <- _.
      apply load_inv in Eop as [Eop _].
      now rewrite (bind_Ret _ _ _ _ _ (load_Some _ _ _ Eop)).
    - now injection Eo as <-. }
  rewrite (bind_Ret _ _ _ _ _ E).
  destruct (operation t ≫= loc) as [l|]; [reflexivity|].
  inversion Rm as [|m0 m ? ? Hm0 _ E1 E2]; [reflexivity|].
  now rewrite (bind_Ret _ _ _ _ _ (load_Some _ _ _ Hm0)).
Qed.

Lemma getKindMessage_run error t H :
  reads H (message error) (message t) -> kind t = kind error -> level t = level error ->
  getKindMessage (kind error) (level error) (message error) H
  = (Ret (seq (length H) (length (kind_units t))), H ++ kind_units t).
Proof.
  intros Rm Hk Hl. unfold getKindMessage, kind_units. rewrite Hk, Hl.
  inversion Rm as [|m0 m ? ? Hm0 _ E1 E2]; [now rewrite app_nil_r|].
  rewrite (bind_Ret _ _ _ _ _ (load_Some _ _ _ Hm0)).
  destruct (kindDescr (kind error) (level error) (loc m)); [reflexivity|].
  now rewrite app_nil_r.
Qed.

Lemma getOpReason_run error t h H :
  traverse_option load (operation error) h = (Ret (operation t), h) ->
  exists fresh,
    getOpReason (operation error) H
    = (Ret (elems_option (fun x => [x]) (operation error)
            ++ seq (length H) (length fresh)), H ++ fresh)
    /\ op_units t = elems_option (fun x => [x]) (operation t) ++ fresh.
Proof.
  intros Eo. unfold getOpReason, op_units. destruct (operation error) as [op|]; cbn in Eo.
  - apply bind_inv in Eo as (o & h1 & _ & Eo). injection Eo as <- _.
    exists [mkMessage "Error:" Comment None None None]. split; reflexivity.
  - injection Eo as <-. exists []. cbn. now rewrite app_nil_r.
Qed.

Lemma getTraceReasons_run error t h H :
  traverse_option (mapJS load) (trace error) h = (Ret (trace t), h) ->
  exists fresh,
    getTraceReasons (trace error) H
    = (Ret (seq (length H) (length fresh) ++ elems_option id (trace error)), H ++ fresh)
    /\ trace_units t = fresh ++ elems_option id (trace t).
Proof.
  intros Et. unfold getTraceReasons, trace_units.
  destruct (trace error) as [l|]; cbn [traverse_option] in Et.
  - apply bind_inv in Et as (ms & h1 & Em & Et). injection Et as <- _.
    apply mapJS_load_reads in Em. inversion Em; subst.
    + exists []. cbn. now rewrite app_nil_r.
    + exists [mkMessage "Trace:" Blame None None None]. split; reflexivity.
  - injection Et as <-. exists []. cbn. now rewrite app_nil_r.
Qed.

Lemma getExtraMessages_run extra H :
  below (length H) (elems_option (elems_list extra_elems) extra) ->
  exists H',
    getExtraMessages extra H = (Ret (elems_option (elems_list extra_elems) extra), H')
    /\ bumped (fun a => from_option (extra_weight a 1) 0%nat extra) H H'.
Proof.
  intros Hv. destruct extra as [l|]; cbn in *.
  - apply extraMessagesOf_run; [|exact Hv].
    apply Forall_forall. intros n _. apply extraCallback_run.
  - exists H. split; [reflexivity|]. now apply bumped_refl.
Qed.

(** The merge writes to the units it is given only. *)
Lemma merge_footprint todo : forall acc h out h',
  reduceJS mergeComment todo acc h = (Ret out, h') ->
  length h' = length h /\ forall a, a ∉ acc -> a ∉ todo -> h' !! a = h !! a.
Proof.
  induction todo as [|m todo IH]; intros acc h out h' E.
  - injection E as <- <-. auto.
  - rewrite reduceJS_cons in E. apply bind_inv in E as (acc1 & h1 & E1 & E).
    apply IH in E as [L F].
    assert (length h1 = length h
            /\ (forall a, a ∉ acc -> h1 !! a = h !! a)
            /\ (forall a, a ∈ acc1 -> a ∈ acc \/ a = m)) as (L1 & F1 & S1).
    { unfold mergeComment in E1. apply bind_inv in E1 as (u & h0 & Eu & E1).
      apply load_inv in Eu as [Hu ->].
      destruct (_ || _ || _).
      - injection E1 as <- <-. split; [reflexivity|]. split; [reflexivity|].
        intros a Ha. apply elem_of_app in Ha as [Ha|Ha]; [now left|].
        right. now apply list_elem_of_singleton in Ha.
      - destruct (bool_decide (descr u <> "Error:")).
        + destruct (last acc) as [prev|] eqn:El; [|discriminate].
          apply bind_inv in E1 as ([] & h2 & Es & E1). injection E1 as <- <-.
          unfold store in Es. destruct (h !! prev) as [p|]; [|discriminate].
          injection Es as <-. split; [apply length_insert|]. split; [|auto].
          intros a Ha. apply list_lookup_insert_ne. intros ->. apply Ha.
          apply last_Some in El as [acc' ->]. apply elem_of_app. right. left.
        + injection E1 as <- <-. auto. }
    split; [congruence|].
    intros a Ha Hm. apply not_elem_of_cons in Hm as [Hne Hm].
    rewrite F; [now apply F1| |exact Hm].
    intros Hin. apply S1 in Hin as [Hin| ->]; [contradiction | now apply Hne].
Qed.

Lemma count_occ_above n (l : list nat) x :
  Forall (fun a => (n <= a)%nat) l -> (x < n)%nat -> count_occ Nat.eq_dec l x = 0%nat.
Proof.
  intros Hl Hx. apply count_occ_notin. intros Hin.
  rewrite Forall_forall in Hl. specialize (Hl x Hin). cbn in Hl. lia.
Qed.

Lemma count_occ_below n (l : list nat) x :
  below n l -> (n <= x)%nat -> count_occ Nat.eq_dec l x = 0%nat.
Proof.
  intros Hl Hx. apply count_occ_notin. intros Hin.
  unfold below in Hl. rewrite Forall_forall in Hl. specialize (Hl x Hin). cbn in Hl. lia.
Qed.

Lemma count_occ_le_1 (l : list nat) x : NoDup l -> (count_occ Nat.eq_dec l x <= 1)%nat.
Proof.
  intros Hnd. apply NoDup_ListNoDup in Hnd.
  now apply (proj1 (NoDup_count_occ Nat.eq_dec l)).
Qed.

Lemma NoDup_count_le_1 (l : list nat) :
  (forall x, (count_occ Nat.eq_dec l x <= 1)%nat) -> NoDup l.
Proof. intros H. apply NoDup_ListNoDup. now apply (NoDup_count_occ Nat.eq_dec l). Qed.

Lemma traverse_extra_below n : forall tn h,
  traverse_extra load n h = (Ret tn, h) -> below (length h) (extra_elems n).
Proof.
  induction n as [ms|ms cs IH] using FlowExtraNode_tree_ind; intros tn h E;
    rewrite traverse_extra_unfold in E;
    apply bind_inv in E as (ms' & h1 & Em & E);
    pose proof (stable_heap _ _ _ _ (stable_mapJS_load _) Em) as ->;
    apply mapJS_load_reads, reads_below in Em;
    cbn [extra_elems ex_message children elems_option from_option];
    apply Forall_app; (split; [exact Em|]); [constructor|].
  cbn [traverse_option] in E.
  apply bind_inv in E as (ch' & h2 & Ec & _).
  apply bind_inv in Ec as (cs' & h3 & Ec & _).
  apply mapJS_stable_inv in Ec as [_ HF]; [|apply stable_traverse_extra_load].
  unfold elems_list. clear Em.
  induction HF as [|c c' cs cs' Hc HF IHF]; [constructor|].
  cbn. apply Forall_app. split.
  - exact (Forall_inv IH c' h Hc).
  - exact (IHF (Forall_inv_tail IH)).
Qed.

Lemma traverse_extras_below x x' h :
  traverse_option (mapJS (traverse_extra load)) x h = (Ret x', h) ->
  below (length h) (elems_option (elems_list extra_elems) x).
Proof.
  intros E. destruct x as [cs|]; [|constructor]. cbn [traverse_option] in E.
  apply bind_inv in E as (cs' & h1 & Ec & _).
  apply mapJS_stable_inv in Ec as [_ HF]; [|apply stable_traverse_extra_load].
  cbn. unfold elems_list.
  induction HF as [|c c' cs cs' Hc HF IHF]; [constructor|].
  cbn. apply Forall_app. split; [|exact IHF].
  now apply traverse_extra_below with (tn := c').
Qed.

Lemma Forall_above_seq n s k :
  (n <= s)%nat -> Forall (fun a => (n <= a)%nat) (seq s k).
Proof.
  intros Hs. apply Forall_forall. intros a Ha. apply elem_of_seq in Ha. lia.
Qed.

Lemma extra_weight_outside a x :
  a ∉ elems_option (elems_list extra_elems) x ->
  from_option (extra_weight a 1) 0%nat x = 0%nat.
Proof. destruct x as [cs|]; [apply extra_weight_notin | reflexivity]. Qed.

Lemma below_notin n l a : below n l -> (n <= a)%nat -> a ∉ l.
Proof.
  intros Hl Ha Hin. unfold below in Hl. rewrite Forall_forall in Hl.
  specialize (Hl a Hin). cbn in Hl. lia.
Qed.

(** The planner and the merge of [prettyPrintError] on an error of distinct
    objects with the text [t]: the units that are printed, and what is
    written. *)
Lemma mergedMessages_run error t h mainLoc :
  NoDup (error_elems error) ->
  JSON_stringify_error error h = (Ret t, h) ->
  main_loc t = Ret mainLoc ->
  exists out h',
    mergedMessages error h = (Ret (mainFileOf mainLoc, out), h')
    /\ reads h' out (merge_values (units t mainLoc))
    /\ (length h <= length h')%nat
    /\ forall a, (a < length h)%nat -> a ∉ error_elems error -> h' !! a = h !! a.
Proof.
  intros Hnd Hs Hml.
  pose proof (JSON_stringify_error_inv _ _ _ _ Hs) as (Em & Et & Eo & Ex & Hk & Hl).
  pose proof (mapJS_load_reads _ _ _ _ Em) as Rm.
  pose proof (reads_option_load _ _ _ Eo) as Ro.
  pose proof (reads_option_mapJS _ _ _ Et) as [Rt _].
  pose proof (traverse_extras_below _ _ _ Ex) as Bx.
  pose proof (reads_below _ _ _ Rm) as Bm.
  pose proof (reads_below _ _ _ Ro) as Bo.
  pose proof (reads_below _ _ _ Rt) as Bt.
  unfold error_elems in Hnd. unfold error_elems.
  set (M := message error) in *.
  set (T := elems_option id (trace error)) in *.
  set (OP := elems_option (fun x => [x]) (operation error)) in *.
  set (X := elems_option (elems_list extra_elems) (extra error)) in *.
  apply NoDup_app in Hnd as (NM & DM & Hnd).
  apply NoDup_app in Hnd as (NT & DT & Hnd).
  apply NoDup_app in Hnd as (NO & DO & NX).
  assert (forall a, a ∈ M -> a ∉ X) as MX.
  { intros a Ha Hx. apply (DM a Ha). rewrite !elem_of_app. auto. }
  assert (forall a, a ∈ T -> a ∉ X) as TX.
  { intros a Ha Hx. apply (DT a Ha). rewrite !elem_of_app. auto. }
  assert (forall a, (length h <= a)%nat -> a ∉ X) as NewX.
  { intros a Ha. now apply (below_notin (length h)). }
  (* the planner *)
  assert (mainLocOf (operation error) M h = (Ret mainLoc, h)) as E1.
  { subst M. rewrite (mainLocOf_text error t h Rm Eo). now rewrite Hml. }
  unfold mergedMessages. fold M. rewrite (bind_Ret _ _ _ _ _ E1).
  rewrite (bind_Ret _ _ _ _ _ (getHeader_spec mainLoc h)).
  set (hdr := mkMessage (header_text mainLoc) Comment None None None).
  set (h1 := h ++ [hdr]).
  pose proof (getKindMessage_run error t h1 (reads_grow _ _ _ _ Rm) Hk Hl) as E2.
  fold M in E2. rewrite (bind_Ret _ _ _ _ _ E2).
  set (ks := kind_units t) in *. set (h2 := h1 ++ ks) in *.
  destruct (getOpReason_run error t h h2 Eo) as (cf & E3 & Hop).
  fold OP in E3. rewrite (bind_Ret _ _ _ _ _ E3).
  set (h3 := h2 ++ cf) in *.
  assert (length h1 = S (length h)) as L1
    by (unfold h1; rewrite length_app; cbn; lia).
  assert (length h2 = (length h1 + length ks)%nat) as L2
    by (unfold h2; now rewrite length_app).
  assert (length h3 = (length h2 + length cf)%nat) as L3
    by (unfold h3; now rewrite length_app).
  destruct (getExtraMessages_run (extra error) h3) as (h4 & E4 & B).
  { fold X. eapply below_mono; [|exact Bx]. lia. }
  fold X in E4. rewrite (bind_Ret _ _ _ _ _ E4).
  pose proof (proj1 B) as L4.
  destruct (getTraceReasons_run error t h h4 Et) as (tf & E5 & Htr).
  fold T in E5. rewrite (bind_Ret _ _ _ _ _ E5).
  cbv zeta.
  set (N0 := [length h]).
  set (K := seq (length h1) (length ks)).
  set (C := seq (length h2) (length cf)).
  set (TR := seq (length h4) (length tf)).
  set (messages := N0 ++ K ++ (OP ++ C) ++ M ++ X ++ TR ++ T).
  (* what the units read *)
  assert (forall l ms, (forall a, a ∈ l -> a ∉ X) -> reads h3 l ms ->
            reads (h4 ++ tf) l ms) as Keep.
  { intros l ms Hl' Hr. apply reads_grow. apply (reads_bumped _ _ _ _ _ B); [|exact Hr].
    intros a Ha. apply extra_weight_outside. fold X. now apply Hl'. }
  assert (reads (h4 ++ tf) messages (units t mainLoc)) as Rall.
  { unfold messages, units. fold hdr ks. rewrite Hop, Htr.
    repeat apply Forall2_app.
    - apply Keep.
      + intros a Ha. apply list_elem_of_singleton in Ha as ->. now apply NewX.
      + unfold h3, h2. do 2 apply reads_grow. exact (reads_fresh_end h [hdr]).
    - apply Keep.
      + intros a Ha. apply elem_of_seq in Ha. apply NewX. lia.
      + unfold h3. apply reads_grow. exact (reads_fresh_end h1 ks).
    - apply Keep.
      + intros a Ha Hx. apply (DO a Ha Hx).
      + unfold h3, h2, h1. do 3 apply reads_grow. exact Ro.
    - apply Keep.
      + intros a Ha. apply elem_of_seq in Ha. apply NewX. lia.
      + exact (reads_fresh_end h2 cf).
    - apply Keep; [exact MX|].
      unfold h3, h2, h1. do 3 apply reads_grow. exact Rm.
    - apply reads_grow. unfold X in *.
      destruct (extra error) as [cs|]; cbn [traverse_option] in Ex.
      + apply bind_inv in Ex as (cs' & h0 & Ec & Ex).
        pose proof (stable_heap _ _ _ _ (stable_mapJS_traverse_extra _) Ec) as ->.
        injection Ex as <-. cbn [from_option elems_option].
        apply (extra_units_read cs cs' h3 h4); [|exact NX|].
        * eapply mapJS_traverse_extra_agree; [|exact Ec].
          intros a m _ Ha. unfold h3, h2, h1. now do 3 apply lookup_app_l_Some.
        * intros a m _ Ha. rewrite (proj2 B a), Ha. reflexivity.
      + injection Ex as <-. constructor.
    - exact (reads_fresh_end h4 tf).
    - apply Keep; [exact TX|].
      unfold h3, h2, h1. do 3 apply reads_grow. exact Rt. }
  (* the units are distinct objects *)
  assert (seq (length h) (1 + length ks + length cf + length tf) = N0 ++ K ++ C ++ TR)
    as Hseq.
  { rewrite !seq_app, <- !app_assoc. unfold N0, K, C, TR.
    f_equal. f_equal; [f_equal; lia|]. f_equal; f_equal; lia. }
  assert (forall x, (length h <= x)%nat ->
            count_occ Nat.eq_dec M x = 0 /\ count_occ Nat.eq_dec T x = 0
            /\ count_occ Nat.eq_dec OP x = 0 /\ count_occ Nat.eq_dec X x = 0)%nat as Old0.
  { intros x Hx. repeat split; now apply (count_occ_below (length h)). }
  assert (forall x, (x < length h)%nat ->
            count_occ Nat.eq_dec N0 x = 0 /\ count_occ Nat.eq_dec K x = 0
            /\ count_occ Nat.eq_dec C x = 0 /\ count_occ Nat.eq_dec TR x = 0)%nat as New0.
  { intros x Hx. repeat split; apply (count_occ_above (length h)); try exact Hx;
      try (apply Forall_above_seq; lia).
    repeat constructor. }
  assert (NoDup messages) as Hnd'.
  { apply NoDup_count_le_1. intros x. unfold messages. rewrite !count_occ_app.
    pose proof (count_occ_le_1 _ x (NoDup_seq (length h)
                  (1 + length ks + length cf + length tf))) as HN.
    rewrite Hseq, !count_occ_app in HN.
    assert (NoDup (M ++ T ++ OP ++ X)) as Hold.
    { apply NoDup_app. split; [exact NM|]. split; [exact DM|].
      apply NoDup_app. split; [exact NT|]. split; [exact DT|].
      apply NoDup_app. auto. }
    pose proof (count_occ_le_1 _ x Hold) as HO. rewrite !count_occ_app in HO.
    destruct (Nat.lt_ge_cases x (length h)) as [Hx|Hx].
    - destruct (New0 x Hx) as (? & ? & ? & ?). lia.
    - destruct (Old0 x Hx) as (? & ? & ? & ?). lia. }
  destruct (merge_refines messages (units t mainLoc) [] [] (h4 ++ tf))
    as (out & h6 & E6 & R6); [exact Hnd' | constructor | exact Rall |].
  rewrite (bind_Ret _ _ _ _ _ E6).
  exists out, h6. split; [reflexivity|]. split; [exact R6|].
  destruct (merge_footprint _ _ _ _ _ E6) as [L6 F6].
  split; [rewrite L6, length_app; lia|].
  intros a Ha Hout. apply not_elem_of_app in Hout as [HaM Hout].
  apply not_elem_of_app in Hout as [HaT Hout].
  apply not_elem_of_app in Hout as [HaO HaX].
  rewrite F6; [|apply not_elem_of_nil|].
  - rewrite lookup_app_l by lia. rewrite (proj2 B a).
    rewrite (extra_weight_outside a (extra error) HaX).
    unfold h3, h2, h1. rewrite !lookup_app_l by (rewrite ?length_app; lia).
    now destruct (h !! a).
  - unfold messages. rewrite !not_elem_of_app.
    assert (forall s k, (length h <= s)%nat -> a ∉ seq s k) as Hseq'.
    { intros s k Hle Hin. apply elem_of_seq in Hin. lia. }
    repeat split; try assumption; try (apply Hseq'; lia).
    intros Hin. apply list_elem_of_singleton in Hin. lia.
Qed.

Lemma render_reads mainFile out ms h :
  reads h out ms ->
  mapJS (fun message => bind (load message)
                          (fun m => lift (prettyPrintMessage mainFile m))) out h
  = (mapO (prettyPrintMessage mainFile) ms, h).
Proof.
  induction 1 as [|a m out ms Ha _ IH]; [reflexivity|].
  rewrite mapJS_cons, (bind_Ret _ _ _ _ _ (load_Some _ _ _ Ha)).
  unfold lift at 1. cbn [mapO].
  destruct (prettyPrintMessage mainFile m) as [s|e]; [|reflexivity].
  rewrite IH. cbn [obind].
  now destruct (mapO (prettyPrintMessage mainFile) ms).
Qed.

(** [prettyPrintError] on an error of distinct objects with the text [t]. *)
Lemma prettyPrintError_run error t h :
  NoDup (error_elems error) ->
  JSON_stringify_error error h = (Ret t, h) ->
  exists h',
    prettyPrintError error h = (error_text t, h')
    /\ (length h <= length h')%nat
    /\ forall a, (a < length h)%nat -> a ∉ error_elems error -> h' !! a = h !! a.
Proof.
  intros Hnd Hs. unfold prettyPrintError, error_text.
  destruct (main_loc t) as [mainLoc|e] eqn:Hml.
  - destruct (mergedMessages_run error t h mainLoc Hnd Hs Hml)
      as (out & h' & E & R & L & F).
    exists h'. rewrite (bind_Ret _ _ _ _ _ E). cbn [obind].
    split; [|split; [exact L | exact F]].
    unfold bind at 1. rewrite (render_reads _ _ _ _ R).
    now destruct (mapO _ _).
  - exists h. split; [|split; [lia | reflexivity]].
    pose proof (JSON_stringify_error_inv _ _ _ _ Hs) as (Em & _ & Eo & _).
    pose proof (mainLocOf_text error t h (mapJS_load_reads _ _ _ _ Em) Eo) as E1.
    rewrite Hml in E1. unfold mergedMessages.
    erewrite bind_Throw; [reflexivity|]. now rewrite (bind_Throw _ _ _ _ _ E1).
Qed.

(** The blocks of the errors of a report of distinct objects. *)
Lemma prettyPrint_errors es : forall ts h,
  NoDup (elems_list error_elems es) ->
  Forall2 (fun e t => JSON_stringify_error e h = (Ret t, h)) es ts ->
  exists h', mapJS prettyPrintError es h = (mapO error_text ts, h').
Proof.
  unfold elems_list. induction es as [|e es IH]; intros ts h Hnd HF;
    inversion HF as [|? t ? ts' He HF']; subst; [now exists h|].
  cbn [map concat] in Hnd. apply NoDup_app in Hnd as (Hnd1 & Hdisj & Hnd2).
  destruct (prettyPrintError_run e t h Hnd1 He) as (h1 & E & L & F).
  rewrite mapJS_cons, E. cbn [mapO].
  destruct (error_text t) as [block|err]; [|now exists h1]. cbn [obind].
  assert (Forall2 (fun e' t' => JSON_stringify_error e' h1 = (Ret t', h1)) es ts') as HF1.
  { assert (forall a, a ∈ concat (map error_elems es) -> a ∉ error_elems e) as Hd'.
    { intros a Ha Hin. exact (Hdisj a Hin Ha). }
    clear -HF' Hd' F. induction HF' as [|e' t' es ts' He' HF' IHF]; constructor.
    - eapply JSON_stringify_error_agree; [|exact He'].
      intros a m Ha Hm. rewrite F; [exact Hm|now apply lookup_lt_Some in Hm|].
      apply Hd'. cbn. apply elem_of_app. now left.
    - apply IHF. intros a Ha. apply Hd'. cbn. apply elem_of_app. now right. }
  destruct (IH ts' h1 Hnd2 HF1) as (h' & E').
  exists h'. rewrite E'. now destruct (mapO error_text ts').
Qed.

(** [prettyPrint] on a report with the text [t]. *)
Lemma prettyPrint_run R t h :
  JSON_stringify R h = (Ret t, h) -> (prettyPrint R h).1 = report_text t.
Proof.
  intros Hs. unfold prettyPrint. rewrite (bind_Ret _ _ _ _ _ Hs).
  destruct (allocates_result t h) as (r & E & S & L).
  rewrite (bind_Ret _ _ _ _ _ E).
  pose proof (L (h ++ result_elems t) (reflexivity _)) as Hr.
  apply JSON_stringify_inv in Hr as (HF & _ & _).
  destruct (prettyPrint_errors (errors r) (errors t) (h ++ result_elems t))
    as (h' & E'); [|exact HF|].
  { unfold result_elems in S. rewrite S. apply NoDup_seq. }
  unfold bind, report_text. rewrite E'.
  now destruct (mapO error_text (errors t)).
Qed.

(** X13: [prettyPrintError] on an error whose objects are distinct (as in
    a parsed report) depends on the text of the error only.  The block is
    the header, the kind message, the operation with "Error:", the
    messages, the units of [extra] with two more spaces for every level,
    and the trace below "Trace:", merged and rendered one per line; the
    outcome is a TypeError when there is no main location to take. *)
Theorem prettyPrintError_text (error : FlowError nat) (t : FlowError FlowMessage)
    (h : list FlowMessage) (Hd : NoDup (error_elems error))
    (Hr : JSON_stringify_error error h = (Ret t, h)) :
  (prettyPrintError error h).1 = error_text t.
Proof.
  destruct (prettyPrintError_run error t h Hd Hr) as (h' & E & _). now rewrite E.
Qed.

Lemma prettyPrintError_text_witness :
  (prettyPrintError (mkError "infer" "error" [0%nat] None None
                       (Some [mkExtra [1%nat] (Some [mkExtra [2%nat] None])]))
     noted_store).1
  = error_text (mkError "infer" "error" [example_message] None None
                  (Some [mkExtra [mkMessage "See the docs" Comment None None None]
                           (Some [mkExtra [mkMessage "foo is not a function" Blame
                                             None None None] None])])).
Proof.
  apply prettyPrintError_text.
  - exact (bool_decide_unpack (NoDup [0; 1; 2]%nat) I).
  - reflexivity.
Defined.

(** X14: [prettyPrint] and [prettyPrintWithHeader] are functions of the
    JSON text of the report: for a report with the text [t], whatever
    objects it shares, the outcome is [report_text t], the blocks of the
    errors with an empty line between them, and under the count line for
    [prettyPrintWithHeader]. *)
Theorem prettyPrint_text (R : FlowResult nat) (t : FlowResult FlowMessage)
    (h : list FlowMessage) (Hr : JSON_stringify R h = (Ret t, h)) :
  (prettyPrint R h).1 = report_text t
  /\ (prettyPrintWithHeader R h).1 = report_text_with_header t.
Proof.
  pose proof (prettyPrint_run R t h Hr) as Hp. split; [exact Hp|].
  apply JSON_stringify_inv in Hr as (HF & Hpass & _).
  unfold prettyPrintWithHeader, report_text_with_header. rewrite Hpass.
  destruct (passed R); [reflexivity|].
  rewrite <- (Forall2_length _ _ _ HF), <- Hp. unfold bind, count_line.
  destruct (prettyPrint R h) as [[body|e] h']; [|reflexivity]. cbn.
  destruct (bool_decide (length (errors R) = 1%nat)); cbn;
    now rewrite ?append_assoc, ?append_nil_r.
Qed.

(** X15: two reports with the same JSON text are printed alike, in any
    two stores: sharing of objects within a report or between reports
    does not show in the output. *)
Theorem prettyPrint_same_text (R R' : FlowResult nat) (t : FlowResult FlowMessage)
    (h h' : list FlowMessage)
    (Hr : JSON_stringify R h = (Ret t, h)) (Hr' : JSON_stringify R' h' = (Ret t, h')) :
  (prettyPrint R h).1 = (prettyPrint R' h').1
  /\ (prettyPrintWithHeader R h).1 = (prettyPrintWithHeader R' h').1.
Proof.
  assert ((prettyPrint R h).1 = (prettyPrint R' h').1) as Hp.
  { now rewrite (prettyPrint_run R t h Hr), (prettyPrint_run R' t h' Hr'). }
  split; [exact Hp|].
  apply JSON_stringify_inv in Hr as (HF & Hpass & _).
  apply JSON_stringify_inv in Hr' as (HF' & Hpass' & _).
  unfold prettyPrintWithHeader. rewrite <- Hpass, <- Hpass'.
  destruct (passed t); [reflexivity|].
  rewrite (Forall2_length _ _ _ HF), (Forall2_length _ _ _ HF'). unfold bind.
  destruct (prettyPrint R h) as [[body|e] h1], (prettyPrint R' h') as [[body'|e'] h1'];
    cbn in Hp |- *; congruence.
Qed.

Lemma prettyPrint_text_witness :
  (prettyPrint (mkResult false [example_error] "0.30.0") [example_message]).1
  = report_text (mkResult false [mkError "infer" "error" [example_message] None None None]
                   "0.30.0")
  /\ (prettyPrintWithHeader (mkResult false [example_error] "0.30.0") [example_message]).1
     = report_text_with_header
         (mkResult false [mkError "infer" "error" [example_message] None None None]
            "0.30.0").
Proof.
  exact (prettyPrint_text (mkResult false [example_error] "0.30.0") _ [example_message]
           eq_refl).
Defined.

Lemma prettyPrint_same_text_witness :
  (prettyPrint (mkResult false [example_error; example_error] "0.30.0")
     [example_message]).1
  = (prettyPrint (mkResult false [example_error;
                                  mkError "infer" "error" [1%nat] None None None] "0.30.0")
       [example_message; example_message]).1
  /\ (prettyPrintWithHeader (mkResult false [example_error; example_error] "0.30.0")
        [example_message]).1
     = (prettyPrintWithHeader
          (mkResult false [example_error;
                           mkError "infer" "error" [1%nat] None None None] "0.30.0")
          [example_message; example_message]).1.
Proof.
  exact (prettyPrint_same_text
           (mkResult false [example_error; example_error] "0.30.0")
           (mkResult false [example_error;
                            mkError "infer" "error" [1%nat] None None None] "0.30.0")
           _ [example_message] [example_message; example_message] eq_refl eq_refl).
Defined.

(** X16: the key under which [difference] records an error, the text of
    its [message] array, begins with "[" and is no property of
    [Object.prototype]; the test [oldHashes[hash] !== undefined] is true
    exactly when an error with that text has been recorded, also for
    messages named "constructor" or "__proto__". *)
Theorem hash_not_inherited (V : Type) (oldHashes : gmap string V) (l : list FlowMessage) :
  (json_messages l ∉ Object_prototype_keys)
  /\ (property_defined oldHashes (json_messages l) = true
      <-> is_Some (oldHashes !! json_messages l)).
Proof.
  split; [apply json_messages_own|].
  rewrite property_defined_own. apply bool_decide_eq_true.
Qed.
